(** * Transcript alignment engine: a shallow embedding and its properties

    The development follows the TypeScript sources
    - [utils/time.ts]   (timestamp parsing, interval membership, best window),
    - [alignment/TranscriptAligner.ts] (alignment, gap fill, short-segment
      merge, validation).

    Numbers.  A JavaScript [number] is modelled by an exact rational ([Q]) where
    the source computes with times in seconds, and by an integer ([Z]) where the
    source stores the result of [Math.floor], [Math.round], [parseInt] or a
    length.  Rounding, overflow and the infinities of IEEE doubles are not
    modelled; [NaN] is modelled where the parser can produce it.

    Strings.  A JavaScript string is modelled by [string]; a character is one
    [ascii], so [length] counts bytes where JavaScript counts UTF-16 units, and
    only the ASCII white space characters are white space. *)

From Stdlib Require Import ZArith QArith Qabs Qround.
From Stdlib Require Import String Ascii List Bool Lia DecimalString.
From Stdlib Require Import DecimalPos DecimalZ Sorted Permutation.
Import ListNotations.

Local Open Scope string_scope.
Local Open Scope list_scope.

(* ===================================================================== *)
(** ** JavaScript primitives used by the sources *)
(* ===================================================================== *)

Module JS.

(** A [number] that may be [NaN] (the result of [parseInt] on a string that
    does not start with a digit, and of any arithmetic on it). *)
Inductive number : Type :=
| NaN : number
| Fin : Q -> number.

Definition nadd (a b : number) : number :=
  match a, b with
  | Fin x, Fin y => Fin (x + y)
  | _, _ => NaN
  end.

Definition nmul (a b : number) : number :=
  match a, b with
  | Fin x, Fin y => Fin (x * y)
  | _, _ => NaN
  end.

Definition ndiv (a b : number) : number :=
  match a, b with
  | Fin x, Fin y => Fin (x / y)
  | _, _ => NaN
  end.

Definition ofZ (z : Z) : number := Fin (inject_Z z).

(** Equality of numbers up to the representation of the rational. *)
Definition neq (a b : number) : Prop :=
  match a, b with
  | NaN, NaN => True
  | Fin x, Fin y => x == y
  | _, _ => False
  end.

(** What a call does: it returns a value or throws an [Error] with a message. *)
Inductive completion (A : Type) : Type :=
| Returned : A -> completion A
| Threw : string -> completion A.
Arguments Returned {A} _.
Arguments Threw {A} _.

(** The operators [>=] and [<] on numbers. *)
Definition geb (a b : Q) : bool := Qle_bool b a.
Definition ltb (a b : Q) : bool := negb (Qle_bool b a).

(** [\d] *)
Definition isDigit (c : ascii) : bool :=
  let n := nat_of_ascii c in (48 <=? n)%nat && (n <=? 57)%nat.

Definition digitValue (c : ascii) : Z := Z.of_nat (nat_of_ascii c) - 48.

(** [\s] and the white space that [trim] and [parseInt] skip (ASCII part):
    tab, line feed, vertical tab, form feed, carriage return, space. *)
Definition isSpace (c : ascii) : bool :=
  let n := nat_of_ascii c in
  ((9 <=? n)%nat && (n <=? 13)%nat) || (n =? 32)%nat.

(** [s.split(sep)] for a one-character separator. *)
Fixpoint split (sep : ascii) (s : string) : list string :=
  match s with
  | EmptyString => [EmptyString]
  | String c s' =>
      if Ascii.eqb c sep then EmptyString :: split sep s'
      else match split sep s' with
           | [] => [String c EmptyString]
           | piece :: pieces => String c piece :: pieces
           end
  end.

Fixpoint repeatChar (c : ascii) (n : nat) : string :=
  match n with
  | O => EmptyString
  | S n' => String c (repeatChar c n')
  end.

(** [s.padStart(n, c)] and [s.padEnd(n, c)] for a one-character pad. *)
Definition padStart (n : nat) (c : ascii) (s : string) : string :=
  repeatChar c (n - String.length s) ++ s.

Definition padEnd (n : nat) (c : ascii) (s : string) : string :=
  s ++ repeatChar c (n - String.length s).

Fixpoint dropSpaces (s : string) : string :=
  match s with
  | String c s' => if isSpace c then dropSpaces s' else s
  | EmptyString => EmptyString
  end.

(** The longest prefix of digits, read as a decimal numeral after the value
    [acc]; [seen] records whether a digit has been read. *)
Fixpoint readDigits (s : string) (seen : bool) (acc : Z) : option Z :=
  match s with
  | String c s' =>
      if isDigit c then readDigits s' true (10 * acc + digitValue c)%Z
      else if seen then Some acc else None
  | EmptyString => if seen then Some acc else None
  end.

(** [parseInt(s, 10)]: leading white space is skipped, a sign is read, then
    the longest run of digits; the rest of the string is ignored, and the
    result is [NaN] when there is no digit. *)
Definition parseInt (s : string) : number :=
  let body := dropSpaces s in
  let (negative, digits) :=
    match body with
    | String "-" rest => (true, rest)
    | String "+" rest => (false, rest)
    | _ => (false, body)
    end in
  match readDigits digits false 0%Z with
  | Some v => ofZ (if negative then (- v)%Z else v)
  | None => NaN
  end.

(** [n.toString()] for an integer. *)
Definition toString (z : Z) : string := NilZero.string_of_int (Z.to_int z).

(** [Math.floor], [Math.round] (halves go up) and the remainder [%], whose
    quotient is truncated towards zero. *)
Definition floor (x : Q) : Z := Qfloor x.
Definition round (x : Q) : Z := Qfloor (x + (1 # 2)).
Definition trunc (x : Q) : Z := Z.quot (Qnum x) (Z.pos (Qden x)).
Definition rem (x m : Q) : Q := x - inject_Z (trunc (x / m)) * m.

(** [s.trim()] *)
Fixpoint dropSpacesEnd (s : string) : string :=
  match s with
  | EmptyString => EmptyString
  | String c s' =>
      match dropSpacesEnd s' with
      | EmptyString => if isSpace c then EmptyString else String c EmptyString
      | kept => String c kept
      end
  end.

Definition trim (s : string) : string := dropSpacesEnd (dropSpaces s).

(** [s.split(/\s+/)]: [cur] is the piece being read, [inGap] tells that the
    previous character was white space. *)
Fixpoint splitSpacesFrom (s cur : string) (inGap : bool) : list string :=
  match s with
  | EmptyString => [cur]
  | String c s' =>
      if isSpace c then
        if inGap then splitSpacesFrom s' cur true
        else cur :: splitSpacesFrom s' EmptyString true
      else splitSpacesFrom s' (cur ++ String c EmptyString) false
  end.

Definition splitSpaces (s : string) : list string :=
  splitSpacesFrom s EmptyString false.

(** Truthiness of a string: only the empty string is falsy. *)
Definition truthy (s : string) : bool :=
  match s with
  | EmptyString => false
  | _ => true
  end.

End JS.

(* ===================================================================== *)
(** ** [utils/time.ts] *)
(* ===================================================================== *)

Module TimeUtil.
Import JS.

(** The structural type [{ startSec; endSec; speakerName }] that
    [findBestSpeakerWindow] asks of its windows. *)
Class WindowLike (W : Type) : Type := {
  startSec : W -> Q;
  endSec : W -> Q;
  speakerName : W -> string
}.

(** [timeToSeconds]: the parts between colons are read with [parseInt]; two
    parts are minutes and seconds, three are hours, minutes and seconds, and
    any other number of parts throws. *)
Definition timeToSeconds (timeStr : string) : completion number :=
  let parts := map parseInt (split ":" timeStr) in
  match parts with
  | [minutes; seconds] =>
      Returned (nadd (nmul minutes (ofZ 60)) seconds)
  | [hours; minutes; seconds] =>
      Returned (nadd (nadd (nmul hours (ofZ 3600)) (nmul minutes (ofZ 60))) seconds)
  | _ => Threw ("Invalid time format: " ++ timeStr)
  end.

(** The groups of [/^(\d):(\d{2}):(\d{2})\.(\d{3})$/] on a string, if it
    matches. *)
Definition matchShortHours (s : string) : option (string * string * string * string) :=
  match list_ascii_of_string s with
  | [h; c1; m1; m2; c2; s1; s2; dot; f1; f2; f3] =>
      if isDigit h && Ascii.eqb c1 ":" && isDigit m1 && isDigit m2
         && Ascii.eqb c2 ":" && isDigit s1 && isDigit s2
         && Ascii.eqb dot "." && isDigit f1 && isDigit f2 && isDigit f3
      then Some (string_of_list_ascii [h],
                 string_of_list_ascii [m1; m2],
                 string_of_list_ascii [s1; s2],
                 string_of_list_ascii [f1; f2; f3])
      else None
  | _ => None
  end.

(** [timestamp.replace(/^(\d):(\d{2}):(\d{2})\.(\d{3})$/, '$1:$2:$3.$4')] *)
Definition cleanTimestamp (timestamp : string) : string :=
  match matchShortHours timestamp with
  | Some (g1, g2, g3, g4) => g1 ++ ":" ++ g2 ++ ":" ++ g3 ++ "." ++ g4
  | None => timestamp
  end.

(** [vttTimestampToSeconds]: exactly three parts between colons are accepted;
    the last is split at ["."] into seconds and an optional fraction, which is
    padded to three digits and read as milliseconds. *)
Definition vttTimestampToSeconds (timestamp : string) : completion number :=
  let parts := split ":" (cleanTimestamp timestamp) in
  match parts with
  | [p0; p1; p2] =>
      let hours := parseInt p0 in
      let minutes := parseInt p1 in
      let pieces := split "." p2 in
      let secondsPart := hd EmptyString pieces in
      let milliseconds := nth_error pieces 1 in
      let seconds := parseInt secondsPart in
      let ms :=
        match milliseconds with
        | Some m => if truthy m then parseInt (padEnd 3 "0" m) else ofZ 0
        | None => ofZ 0
        end in
      Returned (nadd (nadd (nadd (nmul hours (ofZ 3600)) (nmul minutes (ofZ 60))) seconds)
                     (ndiv ms (ofZ 1000)))
  | _ => Threw ("Invalid VTT timestamp format: " ++ timestamp)
  end.

(** [secondsToTimestamp] *)
Definition secondsToTimestamp (seconds : Q) : string :=
  let hours := floor (seconds / 3600) in
  let minutes := floor (rem seconds 3600 / 60) in
  let secs := floor (rem seconds 60) in
  padStart 2 "0" (toString hours) ++ ":" ++
  padStart 2 "0" (toString minutes) ++ ":" ++
  padStart 2 "0" (toString secs).

(** The default value of the parameter [graceWindow]. *)
Definition defaultGraceWindow : Q := 35 # 100.

(** [isTimeInWindow] *)
Definition isTimeInWindow (time start end_ graceWindow : Q) : bool :=
  geb time (start - graceWindow) && ltb time (end_ + graceWindow).

Section BestWindow.
Context {W : Type} `{WindowLike W}.

(** The callback of [matching.reduce]: the current window replaces the best
    one only when it is strictly closer. *)
Definition closer (time : Q) (best current : W) : W :=
  let bestDistance := Qabs (time - startSec best) in
  let currentDistance := Qabs (time - startSec current) in
  if ltb currentDistance bestDistance then current else best.

(** [findBestSpeakerWindow]; [None] is the source's [null]. *)
Definition findBestSpeakerWindow (time : Q) (windows : list W) (graceWindow : Q)
  : option W :=
  let matching :=
    filter (fun w => isTimeInWindow time (startSec w) (endSec w) graceWindow) windows in
  match matching with
  | [] => None
  | [only] => Some only
  | first :: others => Some (fold_left (closer time) others first)
  end.

End BestWindow.

(** The spec's words for a well-formed time literal, in their most liberal
    reading: two or three fields between colons, each a non-empty run of
    digits, the last one possibly followed by a period or a comma and a
    non-empty run of digits. *)
Fixpoint allDigits (s : string) : bool :=
  match s with
  | EmptyString => true
  | String c s' => isDigit c && allDigits s'
  end.

Definition digitField (s : string) : bool := truthy s && allDigits s.

Definition commaToPeriod (c : ascii) : ascii :=
  if Ascii.eqb c "," then "."%char else c.

Definition lastField (s : string) : bool :=
  match split "." (string_of_list_ascii (map commaToPeriod (list_ascii_of_string s))) with
  | [whole] => digitField whole
  | [whole; fraction] => digitField whole && digitField fraction
  | _ => false
  end.

(** The integer that a run of digits denotes in base ten. *)
Definition numeral (s : string) : Z :=
  fold_left (fun acc c => (10 * acc + digitValue c)%Z) (list_ascii_of_string s) 0%Z.

Definition timeLiteralForm (s : string) : bool :=
  match split ":" s with
  | [a; b] => digitField a && lastField b
  | [a; b; c] => digitField a && digitField b && lastField c
  | _ => false
  end.

End TimeUtil.

(* ===================================================================== *)
(** ** [types/transcript.ts] *)
(* ===================================================================== *)

Module Types.
Import JS TimeUtil.

(** A property of type [string | null] that may also be left out. *)
Inductive optional : Type :=
| Undefined : optional
| Null : optional
| Value : string -> optional.

Record SpeakerWindow : Type := mkSpeakerWindow {
  sw_startSec : Q;
  sw_endSec : Q;
  sw_speakerName : string
}.

Record AgendaItem : Type := mkAgendaItem {
  id : string;
  title : string;
  order : Z;
  speakers : list SpeakerWindow
}.

Record VTTCue : Type := mkVTTCue {
  start : Q;
  end_ : Q;
  text : string
}.

(** [speaker_name] is [string | null] ([None] is [null]); the numeric fields
    hold integers. *)
Record TranscriptSegment : Type := mkSegment {
  segment_id : string;
  speaker_name : option string;
  transcript_text : string;
  video_seconds : Z;
  timestamp_start : string;
  timestamp_end : string;
  duration_seconds : Z;
  word_count : Z;
  char_count : Z;
  segment_type : string;
  agenda_item : optional
}.

(** [SpeakerWindow & { agendaItemId: string }]: a speaker window spread into
    a new object together with the id of the agenda item that owns it. *)
Record OwnedWindow : Type := mkOwnedWindow {
  window : SpeakerWindow;
  agendaItemId : string
}.

#[export] Instance SpeakerWindow_like : WindowLike SpeakerWindow := {
  startSec := sw_startSec;
  endSec := sw_endSec;
  speakerName := sw_speakerName
}.

#[export] Instance OwnedWindow_like : WindowLike OwnedWindow := {
  startSec := fun w => sw_startSec (window w);
  endSec := fun w => sw_endSec (window w);
  speakerName := fun w => sw_speakerName (window w)
}.

(** [a === b] on [string | null] and on an optional [string | null]. *)
Definition sameName (a b : option string) : bool :=
  match a, b with
  | None, None => true
  | Some x, Some y => String.eqb x y
  | _, _ => false
  end.

Definition sameOptional (a b : optional) : bool :=
  match a, b with
  | Undefined, Undefined => true
  | Null, Null => true
  | Value x, Value y => String.eqb x y
  | _, _ => false
  end.

(** Truthiness of a [string | null]: [null] and the empty string are falsy. *)
Definition truthyName (a : option string) : bool :=
  match a with
  | Some s => truthy s
  | None => false
  end.

End Types.

(* ===================================================================== *)
(** ** [alignment/TranscriptAligner.ts]: alignment of cues *)
(* ===================================================================== *)

Module Aligner.
Import JS TimeUtil Types.

(** [speakers.sort((a, b) => a.startSec - b.startSec)]: the sort is stable, so
    a window is placed after the windows that do not start later. *)
Fixpoint insertByStart (w : OwnedWindow) (sorted : list OwnedWindow) : list OwnedWindow :=
  match sorted with
  | [] => [w]
  | v :: rest =>
      if ltb (startSec w) (startSec v) then w :: v :: rest
      else v :: insertByStart w rest
  end.

Definition sortByStart (ws : list OwnedWindow) : list OwnedWindow :=
  fold_left (fun sorted w => insertByStart w sorted) ws [].

(** [collectAllSpeakers] *)
Definition collectAllSpeakers (agendaItems : list AgendaItem) : list OwnedWindow :=
  sortByStart
    (flat_map (fun item => map (fun speaker => mkOwnedWindow speaker (id item))
                               (speakers item))
              agendaItems).

Section WithGrace.
(** The field [graceWindow] of the aligner. *)
Variable graceWindow : Q.

(** [isCueInAgendaItemTimeRange] *)
Definition isCueInAgendaItemTimeRange (cue : VTTCue) (agendaItem : AgendaItem) : bool :=
  match speakers agendaItem with
  | [] => false
  | _ =>
      existsb (fun speaker =>
                 geb (start cue) (startSec speaker - graceWindow)
                 && ltb (start cue) (endSec speaker + graceWindow))
              (speakers agendaItem)
  end.

(** [findAgendaItemForCue]; [matchedSpeaker = None] is the source's
    [undefined]. *)
Definition findAgendaItemForCue (cue : VTTCue) (agendaItems : list AgendaItem)
    (matchedSpeaker : option OwnedWindow) : option AgendaItem :=
  let bySpeaker :=
    match matchedSpeaker with
    | Some w =>
        if truthy (agendaItemId w)
        then find (fun item => String.eqb (id item) (agendaItemId w)) agendaItems
        else None
    | None => None
    end in
  match bySpeaker with
  | Some item => Some item
  | None =>
      match find (isCueInAgendaItemTimeRange cue) agendaItems with
      | Some item => Some item
      | None => hd_error agendaItems
      end
  end.

(** [secondsToHHMMSS] *)
Definition secondsToHHMMSS (seconds : Q) : string :=
  let hours := floor (seconds / 3600) in
  let minutes := floor (rem seconds 3600 / 60) in
  let secs := floor (rem seconds 60) in
  padStart 2 "0" (toString hours) ++ ":" ++
  padStart 2 "0" (toString minutes) ++ ":" ++
  padStart 2 "0" (toString secs).

(** [countWords] *)
Definition countWords (text : string) : Z :=
  Z.of_nat (List.length (filter (fun word => (0 <? String.length word)%nat)
                                (splitSpaces (trim text)))).

(** [matchedSpeaker?.speakerName || null] *)
Definition speakerNameOrNull (matchedSpeaker : option OwnedWindow) : option string :=
  match matchedSpeaker with
  | Some w => if truthy (speakerName w) then Some (speakerName w) else None
  | None => None
  end.

(** [agendaItem?.title || null] *)
Definition titleOrNull (agendaItem : option AgendaItem) : optional :=
  match agendaItem with
  | Some item => if truthy (title item) then Value (title item) else Null
  | None => Null
  end.

(** The segment that the body of the loop of [alignTranscript] builds for a
    cue, given the counter [segmentId]. *)
Definition segmentOfCue (allSpeakers : list OwnedWindow) (agendaItems : list AgendaItem)
    (segmentId : Z) (cue : VTTCue) : TranscriptSegment :=
  let matchedSpeaker := findBestSpeakerWindow (start cue) allSpeakers graceWindow in
  let agendaItem := findAgendaItemForCue cue agendaItems matchedSpeaker in
  {| segment_id := padStart 3 "0" (toString segmentId);
     speaker_name := speakerNameOrNull matchedSpeaker;
     transcript_text := text cue;
     video_seconds := floor (start cue);
     timestamp_start := secondsToHHMMSS (start cue);
     timestamp_end := secondsToHHMMSS (end_ cue);
     duration_seconds := round (end_ cue - start cue);
     word_count := countWords (text cue);
     char_count := Z.of_nat (String.length (text cue));
     segment_type := "spoken";
     agenda_item := titleOrNull agendaItem |}.

(** One turn of the loop: the state is the array [segments] and the counter
    [segmentId]. *)
Definition alignStep (allSpeakers : list OwnedWindow) (agendaItems : list AgendaItem)
    (state : list TranscriptSegment * Z) (cue : VTTCue) : list TranscriptSegment * Z :=
  let (segments, segmentId) := state in
  (segments ++ [segmentOfCue allSpeakers agendaItems segmentId cue], (segmentId + 1)%Z).

(** [alignTranscript]; the calls to the logger do not change the result and
    are left out. *)
Definition alignTranscript (cues : list VTTCue) (agendaItems : list AgendaItem)
  : list TranscriptSegment :=
  let allSpeakers := collectAllSpeakers agendaItems in
  fst (fold_left (alignStep allSpeakers agendaItems) cues ([], 1%Z)).

End WithGrace.

(* --------------------------------------------------------------------- *)
(** *** Short-segment merge *)
(* --------------------------------------------------------------------- *)

(** The condition [shouldMerge] of [mergeShortSegments]. *)
Definition shouldMerge (minDurationSeconds : Z) (current next : TranscriptSegment) : bool :=
  sameName (speaker_name current) (speaker_name next)
  && sameOptional (agenda_item current) (agenda_item next)
  && (duration_seconds current <? minDurationSeconds)%Z
  && (video_seconds next - (video_seconds current + duration_seconds current) <? 5)%Z.

(** The five assignments that merge [next] into [current]. *)
Definition mergeInto (current next : TranscriptSegment) : TranscriptSegment :=
  {| segment_id := segment_id current;
     speaker_name := speaker_name current;
     transcript_text := transcript_text current ++ " " ++ transcript_text next;
     video_seconds := video_seconds current;
     timestamp_start := timestamp_start current;
     timestamp_end := timestamp_end next;
     duration_seconds :=
       (video_seconds next + duration_seconds next - video_seconds current)%Z;
     word_count := (word_count current + word_count next)%Z;
     char_count := (char_count current + char_count next)%Z;
     segment_type := segment_type current;
     agenda_item := agenda_item current |}.

(** One turn of the loop: the state is the array [result] and the
    accumulator [current]. *)
Definition mergeStep (minDurationSeconds : Z)
    (state : list TranscriptSegment * TranscriptSegment) (next : TranscriptSegment)
  : list TranscriptSegment * TranscriptSegment :=
  let (result, current) := state in
  if shouldMerge minDurationSeconds current next
  then (result, mergeInto current next)
  else (result ++ [current], next).

(** [mergeShortSegments(segments, minDurationSeconds)] *)
Definition mergeShortSegmentsWith (minDurationSeconds : Z)
    (segments : list TranscriptSegment) : list TranscriptSegment :=
  match segments with
  | [] => segments
  | first :: others =>
      let (result, current) :=
        fold_left (mergeStep minDurationSeconds) others ([], first) in
      result ++ [current]
  end.

(** [mergeShortSegments(segments)], with the default threshold. *)
Definition mergeShortSegments : list TranscriptSegment -> list TranscriptSegment :=
  mergeShortSegmentsWith 2.

(** The loop of [mergeShortSegments] read as a recursion on the segments that
    remain: the output that the accumulator [current] and [rest] give rise to. *)
Fixpoint mergeFrom (minDurationSeconds : Z) (current : TranscriptSegment)
    (rest : list TranscriptSegment) : list TranscriptSegment :=
  match rest with
  | [] => [current]
  | next :: rest' =>
      if shouldMerge minDurationSeconds current next
      then mergeFrom minDurationSeconds (mergeInto current next) rest'
      else current :: mergeFrom minDurationSeconds next rest'
  end.

(** A sequence in which no segment would absorb its successor. *)
Fixpoint settled (minDurationSeconds : Z) (segments : list TranscriptSegment) : Prop :=
  match segments with
  | a :: (b :: _) as rest =>
      shouldMerge minDurationSeconds a b = false /\ settled minDurationSeconds rest
  | _ => True
  end.

(** Totals over a segment sequence. *)
Definition totalWords (segments : list TranscriptSegment) : Z :=
  fold_right (fun s total => (word_count s + total)%Z) 0%Z segments.

Definition totalChars (segments : list TranscriptSegment) : Z :=
  fold_right (fun s total => (char_count s + total)%Z) 0%Z segments.

(* --------------------------------------------------------------------- *)
(** *** The segment objects as a store *)
(* --------------------------------------------------------------------- *)

(** [fillSpeakerGaps] copies the array it is given but not the objects in it,
    and assigns to a field of these objects; [validateAlignment] reads them.
    Both are written over a store that holds, in order, the segment objects of
    the argument array (the objects are distinct: [alignTranscript] and
    [mergeShortSegments] create a fresh one for every entry). *)
Definition Store : Type := list TranscriptSegment.

Definition M (A : Type) : Type := Store -> A * Store.

Definition ret {A : Type} (a : A) : M A := fun st => (a, st).

Definition bind {A B : Type} (m : M A) (k : A -> M B) : M B :=
  fun st => let (a, st') := m st in k a st'.

Notation "x <- m ;; k" := (bind m (fun x => k))
  (at level 61, m at next level, right associativity).
Notation "m ;;; k" := (bind m (fun _ => k))
  (at level 61, right associativity).

(** [segments.length], [segments[i]] and a copy of the array. *)
Definition getLength : M nat := fun st => (List.length st, st).
Definition getSegment (i : nat) : M (option TranscriptSegment) :=
  fun st => (nth_error st i, st).
Definition getSegments : M (list TranscriptSegment) := fun st => (st, st).

Definition withSpeakerName (name : option string) (s : TranscriptSegment)
  : TranscriptSegment :=
  {| segment_id := segment_id s;
     speaker_name := name;
     transcript_text := transcript_text s;
     video_seconds := video_seconds s;
     timestamp_start := timestamp_start s;
     timestamp_end := timestamp_end s;
     duration_seconds := duration_seconds s;
     word_count := word_count s;
     char_count := char_count s;
     segment_type := segment_type s;
     agenda_item := agenda_item s |}.

Fixpoint updateAt (i : nat) (f : TranscriptSegment -> TranscriptSegment)
    (st : Store) : Store :=
  match st, i with
  | [], _ => []
  | s :: rest, O => f s :: rest
  | s :: rest, S i' => s :: updateAt i' f rest
  end.

(** [segments[i].speaker_name = name] *)
Definition setSpeakerName (i : nat) (name : option string) : M unit :=
  fun st => (tt, updateAt i (withSpeakerName name) st).

(** A [for] loop over the indices [indices], and one that carries a local
    variable. *)
Fixpoint forEach (indices : list nat) (body : nat -> M unit) : M unit :=
  match indices with
  | [] => ret tt
  | i :: rest => body i ;;; forEach rest body
  end.

Fixpoint foldLoop {A : Type} (indices : list nat) (body : A -> nat -> M A) (a : A) : M A :=
  match indices with
  | [] => ret a
  | i :: rest => a' <- body a i ;; foldLoop rest body a'
  end.

(* --------------------------------------------------------------------- *)
(** *** Gap fill *)
(* --------------------------------------------------------------------- *)

(** [result[i].speaker_name], with [null] outside the array as the source's
    conditional expressions give it. *)
Definition speakerNameAt (i : nat) : M (option string) :=
  s <- getSegment i ;;
  ret match s with
      | Some seg => speaker_name seg
      | None => None
      end.

(** The body of the loop of [fillSpeakerGaps] at index [i] of an array of
    [n] segments. *)
Definition fillGapAt (n i : nat) : M unit :=
  s <- getSegment i ;;
  match s with
  | None => ret tt
  | Some segment =>
      if negb (truthyName (speaker_name segment)) then
        prevSpeaker <- (if (0 <? i)%nat then speakerNameAt (i - 1) else ret None) ;;
        nextSpeaker <- (if (i <? n - 1)%nat then speakerNameAt (i + 1) else ret None) ;;
        if truthyName prevSpeaker && sameName prevSpeaker nextSpeaker
        then setSpeakerName i prevSpeaker
        else ret tt
      else ret tt
  end.

(** [fillSpeakerGaps]: the returned array holds the objects of the store. *)
Definition fillSpeakerGapsM : M (list TranscriptSegment) :=
  n <- getLength ;;
  forEach (seq 0 n) (fillGapAt n) ;;;
  getSegments.

Definition fillSpeakerGaps (segments : list TranscriptSegment) : list TranscriptSegment :=
  fst (fillSpeakerGapsM segments).

(** [postProcessSegments] *)
Definition postProcessSegments (segments : list TranscriptSegment)
  : list TranscriptSegment :=
  mergeShortSegments (fillSpeakerGaps segments).

(* --------------------------------------------------------------------- *)
(** *** Validation *)
(* --------------------------------------------------------------------- *)

Record Validation : Type := mkValidation {
  valid : bool;
  warnings : list string;
  errors : list string
}.

Definition isNullName (a : option string) : bool :=
  match a with
  | None => true
  | Some _ => false
  end.

Definition isNullOptional (a : optional) : bool :=
  match a with
  | Null => true
  | _ => false
  end.

(** [(segments.length - unaligned) / segments.length] *)
Definition alignmentRate (total unaligned : nat) : Q :=
  inject_Z (Z.of_nat total - Z.of_nat unaligned) / inject_Z (Z.of_nat total).

Definition percent (rate : Q) : string := toString (round (rate * 100)) ++ "%".

(** The body of the timing loop at index [i]: [errors] is the local array. *)
Definition checkTimingAt (errors : list string) (i : nat) : M (list string) :=
  c <- getSegment i ;;
  n <- getSegment (i + 1) ;;
  match c, n with
  | Some current, Some next =>
      if (video_seconds current >? video_seconds next)%Z
      then ret (errors ++
                [("Timing inconsistency at segment " ++ segment_id current ++ ": "
                  ++ toString (video_seconds current) ++ " > "
                  ++ toString (video_seconds next))%string])
      else ret errors
  | _, _ => ret errors
  end.

(** [validateAlignment] *)
Definition validateAlignmentM : M Validation :=
  total <- getLength ;;
  if (total =? 0)%nat then
    ret (mkValidation false [] ["No segments generated"])
  else
    segments <- getSegments ;;
    let unalignedSpeakers :=
      List.length (filter (fun s => isNullName (speaker_name s)) segments) in
    let speakerAlignmentRate := alignmentRate total unalignedSpeakers in
    let warnings1 :=
      if ltb speakerAlignmentRate (1 # 2)
      then [("Low speaker alignment rate: " ++ percent speakerAlignmentRate)%string]
      else [] in
    let unalignedAgenda :=
      List.length (filter (fun s => isNullOptional (agenda_item s)) segments) in
    let agendaAlignmentRate := alignmentRate total unalignedAgenda in
    let warnings2 :=
      if ltb agendaAlignmentRate (3 # 10)
      then warnings1
           ++ [("Low agenda item alignment rate: " ++ percent agendaAlignmentRate)%string]
      else warnings1 in
    errors <- foldLoop (seq 0 (total - 1)) checkTimingAt [] ;;
    ret (mkValidation (Nat.eqb (List.length errors) 0) warnings2 errors).

Definition validateAlignment (segments : list TranscriptSegment) : Validation :=
  fst (validateAlignmentM segments).

(** A computation that leaves every segment object as it found it. *)
Definition readOnly {A : Type} (m : M A) : Prop :=
  forall st, snd (m st) = st.

End Aligner.

(* ===================================================================== *)
(** ** Sample data *)
(* ===================================================================== *)

Module Samples.
Import JS TimeUtil Types Aligner.

(** The window and the cue of the README's example meeting. *)
Definition julesBijl : SpeakerWindow := mkSpeakerWindow 76 454 "Jules Bijl".
Definition opening : AgendaItem := mkAgendaItem "item-1" "Opening" 1 [julesBijl].
Definition damesEnHeren : VTTCue := mkVTTCue (832 # 10) 85 "Dames en heren".

(** A second item whose only window carries an empty speaker name, as
    [parseSpeakerLine] produces from a line that ends in ["-  "]. *)
Definition unnamed : SpeakerWindow := mkSpeakerWindow 500 600 EmptyString.
Definition rondvraag : AgendaItem := mkAgendaItem "item-2" "Rondvraag" 2 [unnamed].
Definition laterCue : VTTCue := mkVTTCue 510 512 "Dank u wel".

(** An item without a title and an item without windows. *)
Definition untitled : AgendaItem := mkAgendaItem "item-3" EmptyString 3 [julesBijl].
Definition sluiting : AgendaItem := mkAgendaItem "item-4" "Sluiting" 4 [].

(** Two windows that overlap around second 12 and start at the same distance
    from it, the second one within the grace. *)
Definition early : SpeakerWindow := mkSpeakerWindow (118 # 10) 20 "Eerste".
Definition late : SpeakerWindow := mkSpeakerWindow (122 # 10) 30 "Tweede".

(** Segments for the two passes. *)
Definition segment (name : option string) (agenda : optional)
    (videoSeconds duration : Z) (words : string) : TranscriptSegment :=
  {| segment_id := "001";
     speaker_name := name;
     transcript_text := words;
     video_seconds := videoSeconds;
     timestamp_start := "00:00:00";
     timestamp_end := "00:00:01";
     duration_seconds := duration;
     word_count := 1;
     char_count := Z.of_nat (String.length words);
     segment_type := "spoken";
     agenda_item := agenda |}.

Definition byA (videoSeconds : Z) : TranscriptSegment :=
  segment (Some "A") (Value "X") videoSeconds 1 "ja".
Definition byNobody (videoSeconds : Z) : TranscriptSegment :=
  segment None (Value "X") videoSeconds 1 "nee".

End Samples.

(* ===================================================================== *)
(** ** [utils/time.ts]: speaker lines *)
(* ===================================================================== *)

Module SpeakerLines.
Import JS TimeUtil.

(** What [parseSpeakerLine] returns for a line that matches. *)
Record SpeakerLine : Type := mkSpeakerLine {
  startSec : number;
  endSec : number;
  speakerName : string
}.

(** [.] matches every character but a line terminator. *)
Definition isLineTerminator (c : ascii) : bool :=
  let n := nat_of_ascii c in (n =? 10)%nat || (n =? 13)%nat.

Fixpoint noLineTerminator (s : string) : bool :=
  match s with
  | EmptyString => true
  | String c s' => negb (isLineTerminator c) && noLineTerminator s'
  end.

(** [\d{1,2}:\d{2}(?::\d{2})?] at the head of a string: the time and what
    follows it.  The hours are the one or two digits before the colon (with
    two digits taken and no colon next, one digit fewer leaves a digit where
    the colon must be).  The seconds are taken when a colon and two digits
    follow; giving them back would leave a colon where the expression goes on
    with white space or a dash. *)
Definition takeTime (s : string) : option (string * string) :=
  match s with
  | String d1 r1 =>
      if isDigit d1 then
        let (hours, r2) :=
          match r1 with
          | String d2 r =>
              if isDigit d2 then (String d1 (String d2 EmptyString), r)
              else (String d1 EmptyString, r1)
          | EmptyString => (String d1 EmptyString, r1)
          end in
        match r2 with
        | String c1 (String m1 (String m2 r3)) =>
            if Ascii.eqb c1 ":" && isDigit m1 && isDigit m2 then
              let minutes := (hours ++ ":" ++ String m1 (String m2 EmptyString))%string in
              match r3 with
              | String c2 (String s1 (String s2 r4)) =>
                  if Ascii.eqb c2 ":" && isDigit s1 && isDigit s2
                  then Some ((minutes ++ ":" ++ String s1 (String s2 EmptyString))%string,
                             r4)
                  else Some (minutes, r3)
              | _ => Some (minutes, r3)
              end
            else None
        | _ => None
        end
      else None
  | EmptyString => None
  end.

(** [\s*-] at the head of a string: what follows the dash. *)
Definition takeDash (s : string) : option string :=
  match dropSpaces s with
  | String c rest => if Ascii.eqb c "-" then Some rest else None
  | EmptyString => None
  end.

(** The last character of a string that is not a line terminator. *)
Fixpoint lastOnLine (s : string) : option ascii :=
  match s with
  | EmptyString => None
  | String c s' =>
      match lastOnLine s' with
      | Some x => Some x
      | None => if isLineTerminator c then None else Some c
      end
  end.

(** [\s*(.+?)\s*$] on the rest of the line: the group.  When something other
    than white space is left, the white space before it is skipped and the
    group runs to the last character that is not white space; it may not
    cross a line terminator.  When only white space is left, the skipping
    gives back characters from the end until the group can take one: the
    last one that is not a line terminator. *)
Definition nameGroup (rest : string) : option string :=
  match dropSpaces rest with
  | EmptyString =>
      match lastOnLine rest with
      | Some c => Some (String c EmptyString)
      | None => None
      end
  | body =>
      let name := dropSpacesEnd body in
      if noLineTerminator name then Some name else None
  end.

(** [parseSpeakerLine]: [None] is the source's [null]. *)
Definition parseSpeakerLine (line : string) : completion (option SpeakerLine) :=
  match takeTime (dropSpaces line) with
  | None => Returned None
  | Some (startTime, afterStart) =>
  match takeDash afterStart with
  | None => Returned None
  | Some beforeEnd =>
  match takeTime (dropSpaces beforeEnd) with
  | None => Returned None
  | Some (endTime, afterEnd) =>
  match takeDash afterEnd with
  | None => Returned None
  | Some afterDash =>
  match nameGroup afterDash with
  | None => Returned None
  | Some name =>
      match timeToSeconds startTime with
      | Threw message => Threw message
      | Returned start =>
          match timeToSeconds endTime with
          | Threw message => Threw message
          | Returned end_ => Returned (Some (mkSpeakerLine start end_ (trim name)))
          end
      end
  end end end end end.

End SpeakerLines.

(* ===================================================================== *)
(** ** [scraper/VTTProcessor.ts]: operations on cue lists *)
(* ===================================================================== *)

Module VTTProcessor.
Import JS TimeUtil Types.

(** The operators [<=] and [>] on numbers, and [Math.max]. *)
Definition leb (a b : Q) : bool := Qle_bool a b.
Definition gtb (a b : Q) : bool := negb (Qle_bool a b).
Definition max (a b : Q) : Q := if ltb a b then b else a.

(** [s.replace(from, to)] for one-character strings: the first occurrence
    is replaced. *)
Fixpoint replaceFirst (from to : ascii) (s : string) : string :=
  match s with
  | EmptyString => EmptyString
  | String c s' =>
      if Ascii.eqb c from then String to s' else String c (replaceFirst from to s')
  end.

(** The regular expressions of [parseVTTTimestamp] are anchored at both ends
    and made of runs of digits ([\d], [\d{2}], [\d{1,2}], [\d{1,3}], [\d+]) and
    of single characters.  Every run is followed by a character that is not a
    digit or by the end, so it can only match all the digits at its place:
    [Digits lo hi] takes them and checks their number. *)
Inductive piece : Type :=
| Digits : nat -> option nat -> piece
| Literal : ascii -> piece.

Fixpoint takeDigits (s : string) : string * string :=
  match s with
  | String c s' =>
      if isDigit c then let (digits, rest) := takeDigits s' in (String c digits, rest)
      else (EmptyString, s)
  | EmptyString => (EmptyString, EmptyString)
  end.

(** The groups of digits of a string that matches the pieces, in order. *)
Fixpoint matchPieces (pieces : list piece) (s : string) : option (list string) :=
  match pieces with
  | [] => match s with
          | EmptyString => Some []
          | _ => None
          end
  | Literal c :: pieces' =>
      match s with
      | String x s' => if Ascii.eqb x c then matchPieces pieces' s' else None
      | EmptyString => None
      end
  | Digits lo hi :: pieces' =>
      let (digits, rest) := takeDigits s in
      if (lo <=? String.length digits)%nat
         && match hi with
            | Some h => (String.length digits <=? h)%nat
            | None => true
            end
      then match matchPieces pieces' rest with
           | Some groups => Some (digits :: groups)
           | None => None
           end
      else None
  end.

Local Open Scope nat_scope.

(** [/^\d:\d{2}:\d{2}\.\d+$/] *)
Definition hoursPattern : list piece :=
  [Digits 1 (Some 1); Literal ":"; Digits 2 (Some 2); Literal ":";
   Digits 2 (Some 2); Literal "."; Digits 1 None].

(** [/^(\d{1,2}):(\d{2})\.(\d{1,3})$/] *)
Definition shortPattern : list piece :=
  [Digits 1 (Some 2); Literal ":"; Digits 2 (Some 2); Literal "."; Digits 1 (Some 3)].

(** [/^(\d{1,2}):(\d{2}):(\d{2})\.(\d{1,3})$/] *)
Definition longPattern : list piece :=
  [Digits 1 (Some 2); Literal ":"; Digits 2 (Some 2); Literal ":";
   Digits 2 (Some 2); Literal "."; Digits 1 (Some 3)].

Local Close Scope nat_scope.

(** [parseVTTTimestamp] *)
Definition parseVTTTimestamp (timestamp : string) : completion number :=
  let normalized := replaceFirst "," "." timestamp in
  match matchPieces hoursPattern normalized with
  | Some _ => vttTimestampToSeconds normalized
  | None =>
      match matchPieces shortPattern normalized with
      | Some [minutes; seconds; milliseconds] =>
          Returned (nadd (nadd (nmul (parseInt minutes) (ofZ 60)) (parseInt seconds))
                         (ndiv (parseInt (padEnd 3 "0" milliseconds)) (ofZ 1000)))
      | _ =>
          match matchPieces longPattern normalized with
          | Some [hours; minutes; seconds; milliseconds] =>
              Returned (nadd (nadd (nadd (nmul (parseInt hours) (ofZ 3600))
                                         (nmul (parseInt minutes) (ofZ 60)))
                                   (parseInt seconds))
                             (ndiv (parseInt (padEnd 3 "0" milliseconds)) (ofZ 1000)))
          | _ => vttTimestampToSeconds normalized
          end
      end
  end.

(** [filterCuesByTimeRange] *)
Definition filterCuesByTimeRange (cues : list VTTCue) (startTime endTime : Q)
  : list VTTCue :=
  filter (fun cue =>
            (geb (start cue) startTime && ltb (start cue) endTime)
            || (gtb (end_ cue) startTime && leb (end_ cue) endTime)
            || (ltb (start cue) startTime && gtb (end_ cue) endTime))
         cues.

(** [[...cues].sort((a, b) => a.start - b.start)]: a stable sort, as for the
    speaker windows. *)
Fixpoint insertCue (cue : VTTCue) (sorted : list VTTCue) : list VTTCue :=
  match sorted with
  | [] => [cue]
  | other :: rest =>
      if ltb (start cue) (start other) then cue :: other :: rest
      else other :: insertCue cue rest
  end.

Definition sortCues (cues : list VTTCue) : list VTTCue :=
  fold_left (fun sorted cue => insertCue cue sorted) cues [].

(** The two assignments that merge [next] into [current]. *)
Definition absorbCue (current next : VTTCue) : VTTCue :=
  {| start := start current;
     end_ := max (end_ current) (end_ next);
     text := text current ++ " " ++ text next |}.

(** One turn of the loop of [mergeCues]: the state is the array [merged] and
    the accumulator [current]. *)
Definition mergeCuesStep (maxGapSeconds : Q) (state : list VTTCue * VTTCue)
    (next : VTTCue) : list VTTCue * VTTCue :=
  let (merged, current) := state in
  if leb (start next) (end_ current + maxGapSeconds)
  then (merged, absorbCue current next)
  else (merged ++ [current], next).

(** [mergeCues(cues, maxGapSeconds)]; the default gap is half a second.  The
    sorted copy of a non-empty array is not empty, so its first element is
    there. *)
Definition mergeCues (cues : list VTTCue) (maxGapSeconds : Q) : list VTTCue :=
  match cues with
  | [] => []
  | _ =>
      match sortCues cues with
      | [] => []
      | first :: others =>
          let (merged, current) :=
            fold_left (mergeCuesStep maxGapSeconds) others ([], first) in
          merged ++ [current]
      end
  end.

Definition defaultMaxGapSeconds : Q := 1 # 2.

(** The loop of [mergeCues] read as a recursion on the cues that remain. *)
Fixpoint mergeCuesFrom (maxGapSeconds : Q) (current : VTTCue) (rest : list VTTCue)
  : list VTTCue :=
  match rest with
  | [] => [current]
  | next :: rest' =>
      if leb (start next) (end_ current + maxGapSeconds)
      then mergeCuesFrom maxGapSeconds (absorbCue current next) rest'
      else current :: mergeCuesFrom maxGapSeconds next rest'
  end.

(** A cue list in which every cue starts more than the gap after the end of
    the cue before it. *)
Fixpoint separated (maxGapSeconds : Q) (cues : list VTTCue) : Prop :=
  match cues with
  | a :: (b :: _) as rest =>
      end_ a + maxGapSeconds < start b /\ separated maxGapSeconds rest
  | _ => True
  end.

End VTTProcessor.

(* ===================================================================== *)
(** ** [builders/JSONTranscriptBuilder.ts]: durations *)
(* ===================================================================== *)

Module Builder.
Import JS TimeUtil Types.

(** [parseDuration]: as [timeToSeconds], but a duration with another number
    of parts is logged and read as zero. *)
Definition parseDuration (duration : string) : number :=
  let parts := map parseInt (split ":" duration) in
  match parts with
  | [hours; minutes; seconds] =>
      nadd (nadd (nmul hours (ofZ 3600)) (nmul minutes (ofZ 60))) seconds
  | [minutes; seconds] => nadd (nmul minutes (ofZ 60)) seconds
  | _ => ofZ 0
  end.

(** [VideoMetadata]; an optional field is [None] when it is left out. *)
Record VideoMetadata : Type := mkVideoMetadata {
  title : string;
  filename : string;
  date : option string;
  duration : option number;
  source : string;
  dataset : string;
  format : string;
  place : option string;
  record_type : string;
  total_words : option Z;
  total_segments : option Z;
  description : option string;
  url : option string
}.

(** [updateVideoMetadataFromSegments]: a copy of the metadata with the two
    totals set. *)
Definition updateVideoMetadataFromSegments (metadata : VideoMetadata)
    (segments : list TranscriptSegment) : VideoMetadata :=
  let totalWords :=
    fold_left (fun sum segment => (sum + word_count segment)%Z) segments 0%Z in
  let totalSegments := Z.of_nat (List.length segments) in
  {| title := title metadata;
     filename := filename metadata;
     date := date metadata;
     duration := duration metadata;
     source := source metadata;
     dataset := dataset metadata;
     format := format metadata;
     place := place metadata;
     record_type := record_type metadata;
     total_words := Some totalWords;
     total_segments := Some totalSegments;
     description := description metadata;
     url := url metadata |}.

End Builder.

(* ===================================================================== *)
(** ** Notions used to state the properties *)
(* ===================================================================== *)

Module Notions.
Import JS TimeUtil Types Aligner.

(** [segments[i].speaker_name], [null] outside the array. *)
Definition nameAt (segments : list TranscriptSegment) (i : nat) : option string :=
  match nth_error segments i with
  | Some s => speaker_name s
  | None => None
  end.

(** The rule of the gap-fill pass for the segment at index [i], read on the
    array as it was given: a segment without a speaker takes the speaker of
    its two neighbours when they carry the same non-empty one. *)
Definition gapFilled (segments : list TranscriptSegment) (i : nat)
    (segment : TranscriptSegment) : TranscriptSegment :=
  if truthyName (speaker_name segment) then segment
  else
    let prevSpeaker := if (0 <? i)%nat then nameAt segments (i - 1) else None in
    let nextSpeaker := nameAt segments (i + 1) in
    if truthyName prevSpeaker && sameName prevSpeaker nextSpeaker
    then withSpeakerName prevSpeaker segment
    else segment.

(** The texts of a segment sequence, joined by single spaces. *)
Definition fullText (segments : list TranscriptSegment) : string :=
  String.concat " " (map transcript_text segments).

(** The texts of a cue list, joined by single spaces. *)
Definition cueText (cues : list VTTCue) : string :=
  String.concat " " (map text cues).

(** The windows of the agenda items in declaration order, each with the id of
    its item. *)
Definition ownedWindows (agendaItems : list AgendaItem) : list OwnedWindow :=
  flat_map (fun item => map (fun speaker => mkOwnedWindow speaker (id item))
                            (speakers item))
           agendaItems.

End Notions.

(* ===================================================================== *)
(** * Properties *)
(* ===================================================================== *)

Import JS TimeUtil Types Aligner.

(* --------------------------------------------------------------------- *)
(** ** Comparisons *)
(* --------------------------------------------------------------------- *)

Lemma geb_le (a b : Q) : geb a b = true <-> b <= a.
Proof. unfold geb. apply Qle_bool_iff. Qed.

Lemma ltb_lt (a b : Q) : ltb a b = true <-> a < b.
Proof.
  unfold ltb. rewrite negb_true_iff. split.
  - intros Hb. apply Qnot_le_lt. intros Hle.
    apply Qle_bool_iff in Hle. congruence.
  - intros Hlt. destruct (Qle_bool b a) eqn:Hb; [|reflexivity].
    apply Qle_bool_iff in Hb. exfalso. exact (Qlt_not_le _ _ Hlt Hb).
Qed.

Lemma ltb_ge (a b : Q) : ltb a b = false <-> b <= a.
Proof.
  unfold ltb. rewrite negb_false_iff. apply Qle_bool_iff.
Qed.

Lemma isTimeInWindow_iff (time start end_ grace : Q) :
  isTimeInWindow time start end_ grace = true
  <-> start - grace <= time /\ time < end_ + grace.
Proof.
  unfold isTimeInWindow. rewrite andb_true_iff, geb_le, ltb_lt. reflexivity.
Qed.

(* --------------------------------------------------------------------- *)
(** ** The best speaker window *)
(* --------------------------------------------------------------------- *)

Section BestWindowProps.
Context {W : Type} `{WindowLike W}.
Variable time : Q.

(** The reduction keeps the first window among those at the least distance:
    every window before it is strictly farther, none after it is closer. *)
Lemma closer_fold_first_least (others : list W) (first : W) :
  exists before best after,
    first :: others = before ++ best :: after
    /\ fold_left (closer time) others first = best
    /\ (forall x, In x before ->
          Qabs (time - startSec best) < Qabs (time - startSec x))
    /\ (forall x, In x after ->
          Qabs (time - startSec best) <= Qabs (time - startSec x)).
Proof.
  induction others as [|current others IH] using rev_ind.
  - exists [], first, []. simpl. repeat split; intros x [].
  - destruct IH as (before & best & after & Hsplit & Hfold & Hbefore & Hafter).
    rewrite fold_left_app. simpl. rewrite Hfold. unfold closer.
    destruct (ltb (Qabs (time - startSec current)) (Qabs (time - startSec best)))
      eqn:Hcmp.
    + apply ltb_lt in Hcmp.
      exists (before ++ best :: after), current, []. repeat split.
      * rewrite <- Hsplit. reflexivity.
      * intros x Hx. apply in_app_or in Hx. destruct Hx as [Hx | [Hx | Hx]].
        -- eapply Qlt_trans; [exact Hcmp | apply Hbefore, Hx].
        -- subst x. exact Hcmp.
        -- eapply Qlt_le_trans; [exact Hcmp | apply Hafter, Hx].
      * intros x [].
    + apply ltb_ge in Hcmp.
      exists before, best, (after ++ [current]). repeat split.
      * change (first :: others ++ [current]) with ((first :: others) ++ [current]).
        rewrite Hsplit, <- app_assoc. reflexivity.
      * exact Hbefore.
      * intros x Hx. apply in_app_or in Hx. destruct Hx as [Hx | [Hx | []]].
        -- apply Hafter, Hx.
        -- subst x. exact Hcmp.
Qed.

(** C1.  [findBestSpeakerWindow] looks at the windows that contain the time
    within the grace ([start - grace <= time < end + grace]), in the order of
    the list: with none it returns [null], with one it returns that window,
    and with several it returns a window whose start is at the least absolute
    distance from the time, the first of these in the list: the candidates
    before it are strictly farther, those after it are not closer. *)
Theorem findBestSpeakerWindow_first_closest (windows : list W) (graceWindow : Q) :
  let candidates :=
    filter (fun w => isTimeInWindow time (startSec w) (endSec w) graceWindow) windows in
  (forall w, In w candidates <->
             In w windows
             /\ startSec w - graceWindow <= time /\ time < endSec w + graceWindow)
  /\ match candidates with
     | [] => findBestSpeakerWindow time windows graceWindow = None
     | [only] => findBestSpeakerWindow time windows graceWindow = Some only
     | _ =>
         exists before best after,
           candidates = before ++ best :: after
           /\ findBestSpeakerWindow time windows graceWindow = Some best
           /\ (forall x, In x before ->
                 Qabs (time - startSec best) < Qabs (time - startSec x))
           /\ (forall x, In x after ->
                 Qabs (time - startSec best) <= Qabs (time - startSec x))
     end.
Proof.
  intros candidates. split.
  - intros w. unfold candidates. rewrite filter_In, isTimeInWindow_iff. reflexivity.
  - unfold findBestSpeakerWindow. fold candidates.
    destruct candidates as [|first [|second others]]; try reflexivity.
    destruct (closer_fold_first_least (second :: others) first)
      as (before & best & after & Hsplit & Hfold & Hbefore & Hafter).
    exists before, best, after. rewrite Hfold. auto.
Qed.

End BestWindowProps.

(** Two candidates at the same distance: the first one of the list wins, in
    either order. *)
Example findBestSpeakerWindow_tie :
  findBestSpeakerWindow 12 [Samples.early; Samples.late] defaultGraceWindow
    = Some Samples.early
  /\ findBestSpeakerWindow 12 [Samples.late; Samples.early] defaultGraceWindow
    = Some Samples.late.
Proof. split; reflexivity. Qed.

(* --------------------------------------------------------------------- *)
(** ** Alignment of cues *)
(* --------------------------------------------------------------------- *)

Section AlignProps.
Variable graceWindow : Q.
Variable agendaItems : list AgendaItem.

Let allSpeakers := collectAllSpeakers agendaItems.
Let step := alignStep graceWindow allSpeakers agendaItems.

(** The loop appends one segment per cue and counts the segments. *)
Lemma align_loop_run (cues : list VTTCue) (segments : list TranscriptSegment)
    (segmentId : Z) :
  exists added,
    fold_left step cues (segments, segmentId)
      = (segments ++ added, (segmentId + Z.of_nat (List.length cues))%Z)
    /\ List.length added = List.length cues
    /\ forall i cue, nth_error cues i = Some cue ->
         nth_error added i
           = Some (segmentOfCue graceWindow allSpeakers agendaItems
                                (segmentId + Z.of_nat i)%Z cue).
Proof.
  revert segments segmentId.
  induction cues as [|cue cues IH]; intros segments segmentId.
  - exists []. simpl. rewrite app_nil_r, Z.add_0_r.
    repeat split. intros [|i] c; discriminate.
  - simpl fold_left.
    replace (step (segments, segmentId) cue)
      with (segments ++ [segmentOfCue graceWindow allSpeakers agendaItems segmentId cue],
            (segmentId + 1)%Z) by reflexivity.
    destruct (IH (segments ++
                  [segmentOfCue graceWindow allSpeakers agendaItems segmentId cue])
                 (segmentId + 1)%Z) as (added & Hrun & Hlen & Hnth).
    exists (segmentOfCue graceWindow allSpeakers agendaItems segmentId cue :: added).
    rewrite Hrun, <- app_assoc. simpl. repeat split.
    + f_equal. lia.
    + f_equal. exact Hlen.
    + intros [|i] c Hc; simpl in *.
      * inversion Hc. subst c. rewrite Z.add_0_r. reflexivity.
      * rewrite (Hnth i c Hc). do 2 f_equal. lia.
Qed.

(** The segment at index [i] is the one built from the cue at index [i],
    numbered [i + 1]. *)
Lemma alignTranscript_nth (cues : list VTTCue) (i : nat) (cue : VTTCue) :
  nth_error cues i = Some cue ->
  nth_error (alignTranscript graceWindow cues agendaItems) i
    = Some (segmentOfCue graceWindow allSpeakers agendaItems (1 + Z.of_nat i)%Z cue).
Proof.
  intros Hcue. unfold alignTranscript. fold allSpeakers. fold step.
  destruct (align_loop_run cues [] 1%Z) as (added & Hrun & _ & Hnth).
  rewrite Hrun. simpl. apply Hnth, Hcue.
Qed.

Lemma alignTranscript_length (cues : list VTTCue) :
  List.length (alignTranscript graceWindow cues agendaItems) = List.length cues.
Proof.
  unfold alignTranscript. fold allSpeakers. fold step.
  destruct (align_loop_run cues [] 1%Z) as (added & Hrun & Hlen & _).
  rewrite Hrun. simpl. exact Hlen.
Qed.

(** C2.  [alignTranscript] emits exactly one segment per cue, in the order of
    the cues: the [video_seconds] of the segments are the floors of the starts
    of the cues, position by position. *)
Theorem alignTranscript_one_segment_per_cue (cues : list VTTCue) :
  List.length (alignTranscript graceWindow cues agendaItems) = List.length cues
  /\ map video_seconds (alignTranscript graceWindow cues agendaItems)
     = map (fun cue => Qfloor (start cue)) cues.
Proof.
  split; [apply alignTranscript_length|].
  apply nth_error_ext. intros i.
  rewrite !nth_error_map.
  destruct (nth_error cues i) as [cue|] eqn:Hcue.
  - rewrite (alignTranscript_nth cues i cue Hcue). reflexivity.
  - apply nth_error_None in Hcue.
    rewrite <- alignTranscript_length in Hcue.
    apply nth_error_None in Hcue. rewrite Hcue. reflexivity.
Qed.

End AlignProps.

(** The README's cue at 83.2 s falls in the window of Jules Bijl; a cue at
    75.5 s is more than the grace before the window and gets no speaker. *)
Example alignTranscript_readme :
  map (fun s => (speaker_name s, video_seconds s, duration_seconds s))
      (alignTranscript defaultGraceWindow
         [mkVTTCue (755 # 10) 76 "Goedenavond"; Samples.damesEnHeren]
         [Samples.opening])
  = [(None, 75%Z, 1%Z); (Some "Jules Bijl", 83%Z, 2%Z)].
Proof. reflexivity. Qed.

Lemma truthy_iff (s : string) : truthy s = true <-> s <> EmptyString.
Proof. destruct s; simpl; split; intros; congruence. Qed.

Lemma truthy_false_iff (s : string) : truthy s = false <-> s = EmptyString.
Proof. destruct s; simpl; split; intros; congruence. Qed.

Section AgendaProps.
Variable graceWindow : Q.

Lemma isCueInAgendaItemTimeRange_iff (cue : VTTCue) (item : AgendaItem) :
  isCueInAgendaItemTimeRange graceWindow cue item = true
  <-> exists w, In w (speakers item)
                /\ startSec w - graceWindow <= start cue
                /\ start cue < endSec w + graceWindow.
Proof.
  unfold isCueInAgendaItemTimeRange.
  assert (Hscan : existsb (fun speaker =>
                    geb (start cue) (startSec speaker - graceWindow)
                    && ltb (start cue) (endSec speaker + graceWindow)) (speakers item)
                  = true
                  <-> exists w, In w (speakers item)
                                /\ startSec w - graceWindow <= start cue
                                /\ start cue < endSec w + graceWindow).
  { rewrite existsb_exists. split; intros (w & Hin & Hw); exists w; split; auto.
    - apply andb_true_iff in Hw. destruct Hw as [Hlo Hhi].
      apply geb_le in Hlo. apply ltb_lt in Hhi. auto.
    - destruct Hw as [Hlo Hhi]. apply andb_true_iff.
      split; [apply geb_le | apply ltb_lt]; assumption. }
  destruct (speakers item) as [|w ws] eqn:Hs; [|exact Hscan].
  split; [discriminate | intros (w & [] & _)].
Qed.

Lemma find_first {A : Type} (f : A -> bool) (before : list A) (x : A) (after : list A) :
  (forall y, In y before -> f y = false) -> f x = true ->
  find f (before ++ x :: after) = Some x.
Proof.
  intros Hbefore Hx. induction before as [|y before IH]; simpl.
  - rewrite Hx. reflexivity.
  - rewrite (Hbefore y (or_introl eq_refl)). apply IH.
    intros z Hz. apply Hbefore. right. exact Hz.
Qed.

Lemma find_none {A : Type} (f : A -> bool) (l : list A) :
  (forall y, In y l -> f y = false) -> find f l = None.
Proof.
  intros Hall. induction l as [|y l IH]; simpl; [reflexivity|].
  rewrite (Hall y (or_introl eq_refl)). apply IH.
  intros z Hz. apply Hall. right. exact Hz.
Qed.

(** C6.  Without a matched speaker window, [findAgendaItemForCue] scans the
    agenda items in their order and returns the first one that has a window
    with [start - grace <= cue.start < end + grace]; when no item has one it
    returns the first item of the list, and it returns [null] only for the
    empty list. *)
Theorem findAgendaItemForCue_unmatched (cue : VTTCue) (agendaItems : list AgendaItem) :
  let inRange item :=
    exists w, In w (speakers item)
              /\ startSec w - graceWindow <= start cue
              /\ start cue < endSec w + graceWindow in
  (forall before item after,
      agendaItems = before ++ item :: after ->
      (forall other, In other before -> ~ inRange other) ->
      inRange item ->
      findAgendaItemForCue graceWindow cue agendaItems None = Some item)
  /\ ((forall item, In item agendaItems -> ~ inRange item) ->
      findAgendaItemForCue graceWindow cue agendaItems None = hd_error agendaItems)
  /\ (findAgendaItemForCue graceWindow cue agendaItems None = None
      <-> agendaItems = []).
Proof.
  intros inRange.
  assert (Hno : forall item, ~ inRange item ->
                  isCueInAgendaItemTimeRange graceWindow cue item = false).
  { intros item Hout.
    destruct (isCueInAgendaItemTimeRange graceWindow cue item) eqn:Hin;
      [|reflexivity].
    apply isCueInAgendaItemTimeRange_iff in Hin. contradiction. }
  unfold findAgendaItemForCue. repeat split.
  - intros before item after -> Hbefore Hitem.
    rewrite (find_first _ before item after); [reflexivity | |].
    + intros other Hother. apply Hno, Hbefore, Hother.
    + apply isCueInAgendaItemTimeRange_iff. exact Hitem.
  - intros Hall. rewrite find_none; [reflexivity|].
    intros item Hitem. apply Hno, Hall, Hitem.
  - destruct (find (isCueInAgendaItemTimeRange graceWindow cue) agendaItems);
      [discriminate|].
    destruct agendaItems; [reflexivity | discriminate].
  - intros ->. reflexivity.
Qed.

End AgendaProps.

(** The scan picks a later item over the first one when only the later one
    has a window around the cue. *)
Example findAgendaItemForCue_scan :
  findAgendaItemForCue defaultGraceWindow Samples.laterCue
    [Samples.sluiting; Samples.opening; Samples.rondvraag] None
  = Some Samples.rondvraag.
Proof. reflexivity. Qed.

(** Inside [alignTranscript] the scan cannot succeed: the windows that
    [findBestSpeakerWindow] is given are those of all agenda items, tested
    with the same bounds, so a cue that matches no window is in the range of no
    item and gets the first item of the list. *)
Lemma insertByStart_In (w x : OwnedWindow) (sorted : list OwnedWindow) :
  In x (insertByStart w sorted) <-> x = w \/ In x sorted.
Proof.
  induction sorted as [|v rest IH]; cbn [insertByStart].
  - simpl. split; (intros [Hx | Hx]; [left; congruence | destruct Hx]).
  - destruct (ltb (startSec w) (startSec v)); simpl.
    + split; [intros [Hx | Hx]; [left; congruence | right; exact Hx]
             | intros [Hx | Hx]; [left; congruence | right; exact Hx]].
    + rewrite IH. split.
      * intros [Hx | [Hx | Hx]]; [right; left; exact Hx | left; exact Hx | right; right; exact Hx].
      * intros [Hx | [Hx | Hx]]; [right; left; exact Hx | left; exact Hx | right; right; exact Hx].
Qed.

Lemma sortByStart_In (x : OwnedWindow) (ws : list OwnedWindow) :
  In x (sortByStart ws) <-> In x ws.
Proof.
  unfold sortByStart.
  assert (Hgen : forall sorted,
             In x (fold_left (fun sorted w => insertByStart w sorted) ws sorted)
             <-> In x ws \/ In x sorted).
  { induction ws as [|w ws IH]; intros sorted; simpl.
    - tauto.
    - rewrite IH, insertByStart_In. split.
      + intros [Hx | [Hx | Hx]]; [left; right; exact Hx | left; left; congruence
                                  | right; exact Hx].
      + intros [[Hx | Hx] | Hx]; [right; left; congruence | left; exact Hx
                                  | right; right; exact Hx]. }
  rewrite Hgen. simpl. tauto.
Qed.

Lemma collectAllSpeakers_In (agendaItems : list AgendaItem) (item : AgendaItem)
    (speaker : SpeakerWindow) :
  In item agendaItems -> In speaker (speakers item) ->
  In (mkOwnedWindow speaker (id item)) (collectAllSpeakers agendaItems).
Proof.
  intros Hitem Hspeaker. unfold collectAllSpeakers.
  apply sortByStart_In, in_flat_map. exists item. split; [exact Hitem|].
  apply (in_map (fun speaker => mkOwnedWindow speaker (id item))). exact Hspeaker.
Qed.

Lemma unmatched_cue_gets_first_item (graceWindow : Q) (cue : VTTCue)
    (agendaItems : list AgendaItem) :
  findBestSpeakerWindow (start cue) (collectAllSpeakers agendaItems) graceWindow = None ->
  findAgendaItemForCue graceWindow cue agendaItems None = hd_error agendaItems.
Proof.
  intros Hnone. unfold findAgendaItemForCue.
  rewrite find_none; [reflexivity|].
  intros item Hitem.
  destruct (isCueInAgendaItemTimeRange graceWindow cue item) eqn:Hin; [|reflexivity].
  apply isCueInAgendaItemTimeRange_iff in Hin.
  destruct Hin as (speaker & Hspeaker & Hlo & Hhi).
  pose proof (collectAllSpeakers_In agendaItems item speaker Hitem Hspeaker) as Hall.
  unfold findBestSpeakerWindow in Hnone.
  assert (Hcand : In (mkOwnedWindow speaker (id item))
                     (filter (fun w => isTimeInWindow (start cue) (startSec w) (endSec w)
                                                      graceWindow)
                             (collectAllSpeakers agendaItems))).
  { apply filter_In. split; [exact Hall|].
    apply isTimeInWindow_iff. split; assumption. }
  destruct (filter (fun w => isTimeInWindow (start cue) (startSec w) (endSec w)
                                            graceWindow)
                   (collectAllSpeakers agendaItems)) as [|w1 [|w2 ws]];
    [destruct Hcand | discriminate | discriminate].
Qed.

(* --------------------------------------------------------------------- *)
(** ** Speaker name and agenda title of a segment *)
(* --------------------------------------------------------------------- *)

Lemma speakerNameOrNull_some (matched : option OwnedWindow) (name : string) :
  speakerNameOrNull matched = Some name
  <-> name <> EmptyString /\ exists w, matched = Some w /\ speakerName w = name.
Proof.
  unfold speakerNameOrNull. destruct matched as [w|].
  - destruct (truthy (speakerName w)) eqn:Ht.
    + apply truthy_iff in Ht. split.
      * intros Heq. inversion Heq. subst name. split; [exact Ht|].
        exists w. auto.
      * intros (_ & w' & Hw' & Hname). inversion Hw'. subst w'.
        rewrite Hname. reflexivity.
    + apply truthy_false_iff in Ht. split; [discriminate|].
      intros (Hne & w' & Hw' & Hname). inversion Hw'. subst w'. congruence.
  - split; [discriminate|]. intros (_ & w' & Hw' & _). discriminate.
Qed.

Lemma speakerNameOrNull_none (matched : option OwnedWindow) :
  speakerNameOrNull matched = None
  <-> matched = None \/ exists w, matched = Some w /\ speakerName w = EmptyString.
Proof.
  unfold speakerNameOrNull. destruct matched as [w|].
  - destruct (truthy (speakerName w)) eqn:Ht.
    + apply truthy_iff in Ht. split; [discriminate|].
      intros [Hnone | (w' & Hw' & Hname)]; [discriminate|].
      inversion Hw'. subst w'. contradiction.
    + apply truthy_false_iff in Ht. split; [|reflexivity].
      intros _. right. exists w. auto.
  - split; auto.
Qed.

Lemma titleOrNull_value (resolved : option AgendaItem) (t : string) :
  titleOrNull resolved = Value t
  <-> t <> EmptyString /\ exists item, resolved = Some item /\ title item = t.
Proof.
  unfold titleOrNull. destruct resolved as [item|].
  - destruct (truthy (title item)) eqn:Ht.
    + apply truthy_iff in Ht. split.
      * intros Heq. inversion Heq. subst t. split; [exact Ht|].
        exists item. auto.
      * intros (_ & item' & Hitem & Htitle). inversion Hitem. subst item'.
        rewrite Htitle. reflexivity.
    + apply truthy_false_iff in Ht. split; [discriminate|].
      intros (Hne & item' & Hitem & Htitle). inversion Hitem. subst item'.
      congruence.
  - split; [discriminate|]. intros (_ & item' & Hitem & _). discriminate.
Qed.

Lemma titleOrNull_null (resolved : option AgendaItem) :
  titleOrNull resolved = Null
  <-> resolved = None \/ exists item, resolved = Some item /\ title item = EmptyString.
Proof.
  unfold titleOrNull. destruct resolved as [item|].
  - destruct (truthy (title item)) eqn:Ht.
    + apply truthy_iff in Ht. split; [discriminate|].
      intros [Hnone | (item' & Hitem & Htitle)]; [discriminate|].
      inversion Hitem. subst item'. contradiction.
    + apply truthy_false_iff in Ht. split; [|reflexivity].
      intros _. right. exists item. auto.
  - split; auto.
Qed.

(** C7, as the code has it.  The segment emitted for a cue takes its
    [speaker_name] from the matched window and its [agenda_item] from the
    resolved agenda item with [||]: it carries the window's [speakerName]
    exactly when a window matched and that name is not empty, and [null] when
    no window matched or the matched name is the empty string; likewise it
    carries the item's [title] exactly when an item resolved and the title is
    not empty, and [null] when no item resolved or the title is empty. *)
Theorem segment_speaker_and_agenda (graceWindow : Q) (cues : list VTTCue)
    (agendaItems : list AgendaItem) (i : nat) (cue : VTTCue) :
  nth_error cues i = Some cue ->
  exists segment,
    nth_error (alignTranscript graceWindow cues agendaItems) i = Some segment
    /\ let matched :=
         findBestSpeakerWindow (start cue) (collectAllSpeakers agendaItems)
                               graceWindow in
       let resolved := findAgendaItemForCue graceWindow cue agendaItems matched in
       (forall name, speaker_name segment = Some name
                     <-> name <> EmptyString /\ exists w, matched = Some w /\ speakerName w = name)
       /\ (speaker_name segment = None
           <-> matched = None \/ exists w, matched = Some w /\ speakerName w = EmptyString)
       /\ (forall t, agenda_item segment = Value t
                     <-> t <> EmptyString /\ exists item, resolved = Some item /\ title item = t)
       /\ (agenda_item segment = Null
           <-> resolved = None \/ exists item, resolved = Some item /\ title item = EmptyString).
Proof.
  intros Hcue. eexists. split; [apply alignTranscript_nth, Hcue|].
  simpl. split; [|split; [|split]].
  - intros name. apply speakerNameOrNull_some.
  - apply speakerNameOrNull_none.
  - intros t. apply titleOrNull_value.
  - apply titleOrNull_null.
Qed.

(** The README's cue is attributed to Jules Bijl under the item Opening. *)
Lemma segment_speaker_and_agenda_witness :
  exists segment,
    nth_error (alignTranscript defaultGraceWindow [Samples.damesEnHeren]
                               [Samples.opening]) 0 = Some segment
    /\ speaker_name segment = Some "Jules Bijl"
    /\ agenda_item segment = Value "Opening".
Proof.
  destruct (segment_speaker_and_agenda defaultGraceWindow [Samples.damesEnHeren]
              [Samples.opening] 0 Samples.damesEnHeren eq_refl)
    as (segment & Hnth & Hname & _ & Htitle & _).
  exists segment. split; [exact Hnth|]. split.
  - apply Hname. split; [discriminate|].
    eexists. split; reflexivity.
  - apply Htitle. split; [discriminate|].
    eexists. split; reflexivity.
Defined.

(** C7, as stated, fails.  A matched window whose [speakerName] is the empty
    string gives [speaker_name = null], not the empty string, and a resolved
    item whose [title] is empty gives [agenda_item = null]. *)
Lemma empty_name_or_title_becomes_null :
  let matched :=
    findBestSpeakerWindow (start Samples.laterCue)
      (collectAllSpeakers [Samples.rondvraag]) defaultGraceWindow in
  let resolved :=
    findAgendaItemForCue defaultGraceWindow Samples.damesEnHeren
      [Samples.untitled]
      (findBestSpeakerWindow (start Samples.damesEnHeren)
         (collectAllSpeakers [Samples.untitled]) defaultGraceWindow) in
  (exists w, matched = Some w
     /\ speakerName w = EmptyString
     /\ map speaker_name
          (alignTranscript defaultGraceWindow [Samples.laterCue] [Samples.rondvraag])
        = [None]
     /\ map speaker_name
          (alignTranscript defaultGraceWindow [Samples.laterCue] [Samples.rondvraag])
        <> [Some (speakerName w)])
  /\ (exists item, resolved = Some item
        /\ title item = EmptyString
        /\ map agenda_item
             (alignTranscript defaultGraceWindow [Samples.damesEnHeren]
                              [Samples.untitled])
           = [Null]
        /\ map agenda_item
             (alignTranscript defaultGraceWindow [Samples.damesEnHeren]
                              [Samples.untitled])
           <> [Value (title item)]).
Proof.
  split.
  - exists (mkOwnedWindow Samples.unnamed "item-2").
    repeat split; try reflexivity. discriminate.
  - exists Samples.untitled.
    repeat split; try reflexivity. discriminate.
Qed.

(* --------------------------------------------------------------------- *)
(** ** Short-segment merge *)
(* --------------------------------------------------------------------- *)

Lemma sameName_iff (a b : option string) : sameName a b = true <-> a = b.
Proof.
  destruct a as [x|], b as [y|]; simpl; try (split; congruence).
  rewrite String.eqb_eq. split; congruence.
Qed.

Lemma sameOptional_iff (a b : optional) : sameOptional a b = true <-> a = b.
Proof.
  destruct a as [| |x], b as [| |y]; simpl; try (split; congruence).
  rewrite String.eqb_eq. split; congruence.
Qed.

Lemma shouldMerge_iff (minDuration : Z) (current next : TranscriptSegment) :
  shouldMerge minDuration current next = true
  <-> speaker_name current = speaker_name next
      /\ agenda_item current = agenda_item next
      /\ (duration_seconds current < minDuration)%Z
      /\ (video_seconds next - (video_seconds current + duration_seconds current) < 5)%Z.
Proof.
  unfold shouldMerge.
  rewrite !andb_true_iff, sameName_iff, sameOptional_iff, !Z.ltb_lt. tauto.
Qed.

(** The loop with its array [result] and the recursion on the remaining
    segments produce the same output. *)
Lemma merge_loop_mergeFrom (minDuration : Z) (rest result : list TranscriptSegment)
    (current : TranscriptSegment) :
  (let (result', current') :=
     fold_left (mergeStep minDuration) rest (result, current) in
   result' ++ [current'])
  = result ++ mergeFrom minDuration current rest.
Proof.
  revert result current.
  induction rest as [|next rest IH]; intros result current; simpl.
  - reflexivity.
  - destruct (shouldMerge minDuration current next).
    + apply IH.
    + rewrite IH, <- app_assoc. reflexivity.
Qed.

Lemma mergeShortSegmentsWith_cons (minDuration : Z) (first : TranscriptSegment)
    (others : list TranscriptSegment) :
  mergeShortSegmentsWith minDuration (first :: others)
  = mergeFrom minDuration first others.
Proof.
  unfold mergeShortSegmentsWith.
  exact (merge_loop_mergeFrom minDuration others [] first).
Qed.

(** C4.  Let the pass, run on a non-empty sequence, end with the accumulator
    [current] after the output [result].  Run on the sequence extended by a
    segment [next], it folds [next] into the accumulator exactly when the two
    have equal [speaker_name], equal [agenda_item], the accumulator's
    [duration_seconds] is below 2 and the gap from the accumulator's end to
    the start of [next] is below 5.  The merged accumulator has the texts
    joined by one space, the [timestamp_end] of [next], the duration
    [next.video_seconds + next.duration_seconds - current.video_seconds] and the
    sums of the word and character counts; otherwise the accumulator is
    emitted as it is and [next] becomes the accumulator. *)
Theorem mergeShortSegments_next (first : TranscriptSegment)
    (others : list TranscriptSegment) (next : TranscriptSegment) :
  exists result current,
    mergeShortSegments (first :: others) = result ++ [current]
    /\ let mergeable :=
         speaker_name current = speaker_name next
         /\ agenda_item current = agenda_item next
         /\ (duration_seconds current < 2)%Z
         /\ (video_seconds next - (video_seconds current + duration_seconds current)
             < 5)%Z in
       (mergeable
        /\ mergeShortSegments (first :: others ++ [next])
           = result ++
             [{| segment_id := segment_id current;
                 speaker_name := speaker_name current;
                 transcript_text :=
                   transcript_text current ++ " " ++ transcript_text next;
                 video_seconds := video_seconds current;
                 timestamp_start := timestamp_start current;
                 timestamp_end := timestamp_end next;
                 duration_seconds :=
                   (video_seconds next + duration_seconds next
                    - video_seconds current)%Z;
                 word_count := (word_count current + word_count next)%Z;
                 char_count := (char_count current + char_count next)%Z;
                 segment_type := segment_type current;
                 agenda_item := agenda_item current |}])
       \/ (~ mergeable
           /\ mergeShortSegments (first :: others ++ [next])
              = result ++ [current; next]).
Proof.
  unfold mergeShortSegments, mergeShortSegmentsWith.
  rewrite fold_left_app.
  destruct (fold_left (mergeStep 2) others ([], first)) as [result current].
  exists result, current. split; [reflexivity|].
  simpl. destruct (shouldMerge 2 current next) eqn:Hm.
  - left. split; [apply shouldMerge_iff; exact Hm | reflexivity].
  - right. split.
    + intros Hyes. apply shouldMerge_iff in Hyes. congruence.
    + rewrite <- app_assoc. reflexivity.
Qed.

(** The spec's scenario: two one-second segments of the same speaker and
    agenda item, three seconds apart, become one segment that spans both. *)
Example mergeShortSegments_scenario :
  mergeShortSegments [Samples.byA 0; Samples.byA 4]
  = [{| segment_id := "001";
        speaker_name := Some "A";
        transcript_text := "ja ja";
        video_seconds := 0;
        timestamp_start := "00:00:00";
        timestamp_end := "00:00:01";
        duration_seconds := 5;
        word_count := 2;
        char_count := 4;
        segment_type := "spoken";
        agenda_item := Value "X" |}].
Proof. reflexivity. Qed.

(** Whether a segment absorbs its successor depends on the successor only
    through its speaker, its agenda item and its start. *)
Lemma shouldMerge_same_keys (minDuration : Z) (a b b' : TranscriptSegment) :
  speaker_name b' = speaker_name b ->
  agenda_item b' = agenda_item b ->
  video_seconds b' = video_seconds b ->
  shouldMerge minDuration a b' = shouldMerge minDuration a b.
Proof.
  intros Hs Ha Hv. unfold shouldMerge. rewrite Hs, Ha, Hv. reflexivity.
Qed.

(** The first segment of the output carries the speaker, the agenda item and
    the start of the accumulator. *)
Lemma mergeFrom_head (minDuration : Z) (rest : list TranscriptSegment)
    (current : TranscriptSegment) :
  exists head tail,
    mergeFrom minDuration current rest = head :: tail
    /\ speaker_name head = speaker_name current
    /\ agenda_item head = agenda_item current
    /\ video_seconds head = video_seconds current.
Proof.
  revert current. induction rest as [|next rest IH]; intros current; simpl.
  - exists current, []. auto.
  - destruct (shouldMerge minDuration current next).
    + destruct (IH (mergeInto current next)) as (head & tail & Heq & Hs & Ha & Hv).
      exists head, tail. auto.
    + exists current, (mergeFrom minDuration next rest). auto.
Qed.

Lemma mergeFrom_settled (minDuration : Z) (rest : list TranscriptSegment)
    (current : TranscriptSegment) :
  settled minDuration (mergeFrom minDuration current rest).
Proof.
  revert current. induction rest as [|next rest IH]; intros current; simpl.
  - exact I.
  - destruct (shouldMerge minDuration current next) eqn:Hm.
    + apply IH.
    + destruct (mergeFrom_head minDuration rest next)
        as (head & tail & Heq & Hs & Ha & Hv).
      specialize (IH next). rewrite Heq in *. simpl. split; [|exact IH].
      rewrite (shouldMerge_same_keys minDuration current next head Hs Ha Hv).
      exact Hm.
Qed.

Lemma mergeFrom_of_settled (minDuration : Z) (rest : list TranscriptSegment)
    (current : TranscriptSegment) :
  settled minDuration (current :: rest) ->
  mergeFrom minDuration current rest = current :: rest.
Proof.
  revert current. induction rest as [|next rest IH]; intros current Hsettled.
  - reflexivity.
  - destruct Hsettled as [Hm Hrest]. simpl. rewrite Hm. f_equal.
    apply IH. exact Hrest.
Qed.

Lemma mergeShortSegmentsWith_idempotent (minDuration : Z)
    (segments : list TranscriptSegment) :
  mergeShortSegmentsWith minDuration (mergeShortSegmentsWith minDuration segments)
  = mergeShortSegmentsWith minDuration segments.
Proof.
  destruct segments as [|first others]; [reflexivity|].
  rewrite mergeShortSegmentsWith_cons.
  pose proof (mergeFrom_settled minDuration others first) as Hsettled.
  destruct (mergeFrom minDuration first others) as [|head tail] eqn:Hout;
    [reflexivity|].
  rewrite mergeShortSegmentsWith_cons.
  apply mergeFrom_of_settled. exact Hsettled.
Qed.

(** C5.  The short-segment merge pass is idempotent: a second run on the
    output of the first returns it unchanged. *)
Theorem mergeShortSegments_idempotent (segments : list TranscriptSegment) :
  mergeShortSegments (mergeShortSegments segments) = mergeShortSegments segments.
Proof. apply mergeShortSegmentsWith_idempotent. Qed.

Lemma mergeFrom_totals (minDuration : Z) (rest : list TranscriptSegment)
    (current : TranscriptSegment) :
  totalWords (mergeFrom minDuration current rest)
    = (word_count current + totalWords rest)%Z
  /\ totalChars (mergeFrom minDuration current rest)
     = (char_count current + totalChars rest)%Z
  /\ (1 <= List.length (mergeFrom minDuration current rest) <= S (List.length rest))%nat.
Proof.
  revert current. induction rest as [|next rest IH]; intros current; simpl.
  - repeat split; lia.
  - destruct (shouldMerge minDuration current next).
    + destruct (IH (mergeInto current next)) as (Hw & Hc & Hlen).
      rewrite Hw, Hc. simpl. repeat split; lia.
    + destruct (IH next) as (Hw & Hc & Hlen).
      simpl. rewrite Hw, Hc. repeat split; lia.
Qed.

(** C10.  The short-segment merge pass conserves the totals of [word_count]
    and of [char_count]; its output is never longer than its input, and it
    is not empty when the input is not. *)
Theorem mergeShortSegments_conserves_totals (segments : list TranscriptSegment) :
  totalWords (mergeShortSegments segments) = totalWords segments
  /\ totalChars (mergeShortSegments segments) = totalChars segments
  /\ (List.length (mergeShortSegments segments) <= List.length segments)%nat
  /\ (segments <> [] -> (1 <= List.length (mergeShortSegments segments))%nat).
Proof.
  destruct segments as [|first others].
  - simpl. repeat split; try lia. intros Hne. congruence.
  - unfold mergeShortSegments. rewrite mergeShortSegmentsWith_cons.
    destruct (mergeFrom_totals 2 others first) as (Hw & Hc & Hlen).
    simpl. repeat split; try assumption; lia.
Qed.

(* --------------------------------------------------------------------- *)
(** ** Gap fill *)
(* --------------------------------------------------------------------- *)

(** C3, as the code has it.  In a sequence of four segments whose first and
    last carry the same speaker and whose two middle segments have no
    speaker, [fillSpeakerGaps] changes nothing: each middle segment has a
    neighbour without a speaker, and a fill needs the same speaker on both
    sides. *)
Theorem fillSpeakerGaps_double_gap (s1 s2 s3 s4 : TranscriptSegment) (name : string) :
  speaker_name s1 = Some name ->
  speaker_name s4 = Some name ->
  speaker_name s2 = None ->
  speaker_name s3 = None ->
  fillSpeakerGaps [s1; s2; s3; s4] = [s1; s2; s3; s4].
Proof.
  intros H1 H4 H2 H3.
  unfold fillSpeakerGaps, fillSpeakerGapsM, bind, getLength, forEach, fillGapAt,
    speakerNameAt, bind, getSegment, getSegments, setSpeakerName, ret.
  destruct (truthy name) eqn:Hname;
    repeat (progress (simpl; rewrite ?H1, ?H2, ?H3, ?H4, ?Hname));
    reflexivity.
Qed.

Lemma fillSpeakerGaps_double_gap_witness :
  fillSpeakerGaps [Samples.byA 0; Samples.byNobody 1; Samples.byNobody 2; Samples.byA 3]
  = [Samples.byA 0; Samples.byNobody 1; Samples.byNobody 2; Samples.byA 3].
Proof.
  apply (fillSpeakerGaps_double_gap _ _ _ _ "A"); reflexivity.
Defined.

(** C3, as stated, fails: the two middle segments keep [speaker_name = null]. *)
Lemma double_gap_is_not_filled :
  map speaker_name
    (fillSpeakerGaps
       [Samples.byA 0; Samples.byNobody 1; Samples.byNobody 2; Samples.byA 3])
  = [Some "A"; None; None; Some "A"]
  /\ map speaker_name
       (fillSpeakerGaps
          [Samples.byA 0; Samples.byNobody 1; Samples.byNobody 2; Samples.byA 3])
     <> [Some "A"; Some "A"; Some "A"; Some "A"].
Proof. split; [reflexivity | discriminate]. Qed.

(** A single segment without a speaker between two segments of the same,
    non-empty speaker is given that speaker. *)
Lemma fillSpeakerGaps_single_gap (s1 s2 s3 : TranscriptSegment) (name : string) :
  name <> EmptyString ->
  speaker_name s1 = Some name ->
  speaker_name s3 = Some name ->
  speaker_name s2 = None ->
  fillSpeakerGaps [s1; s2; s3] = [s1; withSpeakerName (Some name) s2; s3].
Proof.
  intros Hname H1 H3 H2. apply truthy_iff in Hname.
  unfold fillSpeakerGaps, fillSpeakerGapsM, bind, getLength, forEach, fillGapAt,
    speakerNameAt, bind, getSegment, getSegments, setSpeakerName, ret.
  repeat (progress (simpl; rewrite ?H1, ?H2, ?H3, ?Hname, ?String.eqb_refl)).
  reflexivity.
Qed.

(* --------------------------------------------------------------------- *)
(** ** Validation *)
(* --------------------------------------------------------------------- *)

Lemma readOnly_ret {A : Type} (a : A) : readOnly (ret a).
Proof. intros st. reflexivity. Qed.

Lemma readOnly_bind {A B : Type} (m : M A) (k : A -> M B) :
  readOnly m -> (forall a, readOnly (k a)) -> readOnly (bind m k).
Proof.
  intros Hm Hk st. unfold bind. specialize (Hm st).
  destruct (m st) as [a st']. simpl in Hm. subst st'. apply Hk.
Qed.

Lemma readOnly_getLength : readOnly getLength.
Proof. intros st. reflexivity. Qed.

Lemma readOnly_getSegment (i : nat) : readOnly (getSegment i).
Proof. intros st. reflexivity. Qed.

Lemma readOnly_getSegments : readOnly getSegments.
Proof. intros st. reflexivity. Qed.

Lemma readOnly_foldLoop {A : Type} (body : A -> nat -> M A) (indices : list nat) :
  (forall a i, readOnly (body a i)) -> forall a, readOnly (foldLoop indices body a).
Proof.
  intros Hbody. induction indices as [|i indices IH]; intros a; simpl.
  - apply readOnly_ret.
  - apply readOnly_bind; [apply Hbody | exact IH].
Qed.

(** A loop whose body only reads is a fold over the values that the body
    returns on the unchanged store. *)
Lemma foldLoop_readOnly_value {A : Type} (body : A -> nat -> M A) (st : Store) :
  (forall a i, readOnly (body a i)) ->
  forall indices a,
    fst (foldLoop indices body a st)
    = fold_left (fun a' i => fst (body a' i st)) indices a.
Proof.
  intros Hbody. induction indices as [|i indices IH]; intros a; simpl.
  - reflexivity.
  - unfold bind. specialize (Hbody a i st).
    destruct (body a i st) as [a' st']. simpl in *. subst st'. apply IH.
Qed.

Lemma readOnly_checkTimingAt (errors : list string) (i : nat) :
  readOnly (checkTimingAt errors i).
Proof.
  unfold checkTimingAt.
  apply readOnly_bind; [apply readOnly_getSegment|]. intros c.
  apply readOnly_bind; [apply readOnly_getSegment|]. intros n.
  destruct c as [current|], n as [next|]; try apply readOnly_ret.
  destruct (video_seconds current >? video_seconds next)%Z; apply readOnly_ret.
Qed.

Lemma readOnly_validateAlignmentM : readOnly validateAlignmentM.
Proof.
  unfold validateAlignmentM.
  apply readOnly_bind; [apply readOnly_getLength|]. intros total.
  destruct (total =? 0)%nat; [apply readOnly_ret|].
  apply readOnly_bind; [apply readOnly_getSegments|]. intros segments.
  apply readOnly_bind.
  - apply readOnly_foldLoop. apply readOnly_checkTimingAt.
  - intros errors. apply readOnly_ret.
Qed.

(** One turn of the timing loop leaves the errors empty exactly when they
    were empty and the segment at the index does not start after the next. *)
Lemma checkTimingAt_nil (st : Store) (errors : list string) (i : nat) :
  fst (checkTimingAt errors i st) = []
  <-> errors = []
      /\ forall a b, nth_error st i = Some a -> nth_error st (i + 1) = Some b ->
           (video_seconds a <= video_seconds b)%Z.
Proof.
  unfold checkTimingAt, bind, getSegment, ret. simpl.
  destruct (nth_error st i) as [current|];
    destruct (nth_error st (i + 1)) as [next|]; simpl;
    try (split; [intros ->; split; [reflexivity | intros a b Ha Hb; discriminate]
                | intros [-> _]; reflexivity]).
  destruct (video_seconds current >? video_seconds next)%Z eqn:Hgt; simpl.
  - split.
    + intros Hnil. destruct errors; discriminate.
    + intros [_ Hall]. specialize (Hall current next eq_refl eq_refl).
      apply Z.gtb_lt in Hgt. lia.
  - split.
    + intros ->. split; [reflexivity|].
      intros a b Ha Hb. inversion Ha. inversion Hb. subst a b.
      rewrite Z.gtb_ltb in Hgt. apply Z.ltb_ge in Hgt. exact Hgt.
    + intros [-> _]. reflexivity.
Qed.

(** The timing loop ends with no error exactly when it started with none and
    no visited index has a segment that starts after its successor. *)
Lemma timing_errors_nil (st : Store) (indices : list nat) (errors : list string) :
  fold_left (fun errs i => fst (checkTimingAt errs i st)) indices errors = []
  <-> errors = []
      /\ forall i a b, In i indices ->
           nth_error st i = Some a -> nth_error st (i + 1) = Some b ->
           (video_seconds a <= video_seconds b)%Z.
Proof.
  revert errors. induction indices as [|i indices IH]; intros errors; simpl.
  - split; [intros ->; split; [reflexivity | intros i a b Hi; destruct Hi]
           | intros [-> _]; reflexivity].
  - rewrite IH, checkTimingAt_nil. split.
    + intros [[-> Hi] Hall]. split; [reflexivity|].
      intros j a b [<- | Hj]; [apply Hi | apply Hall; exact Hj].
    + intros [-> Hall]. repeat split.
      * intros a b. apply Hall. left. reflexivity.
      * intros j a b Hj. apply Hall. right. exact Hj.
Qed.

Lemma validateAlignment_nonempty_valid (first : TranscriptSegment)
    (others : list TranscriptSegment) :
  valid (validateAlignment (first :: others))
  = Nat.eqb
      (List.length
         (fold_left (fun errs i => fst (checkTimingAt errs i (first :: others)))
                    (seq 0 (List.length others)) []))
      0.
Proof.
  unfold validateAlignment, validateAlignmentM, bind, getLength, getSegments.
  cbn [List.length Nat.eqb Nat.sub].
  rewrite Nat.sub_0_r.
  pose proof (readOnly_foldLoop checkTimingAt (seq 0 (List.length others))
                readOnly_checkTimingAt [] (first :: others)) as Hstore.
  pose proof (foldLoop_readOnly_value checkTimingAt (first :: others)
                readOnly_checkTimingAt (seq 0 (List.length others)) []) as Hvalue.
  destruct (foldLoop (seq 0 (List.length others)) checkTimingAt [] (first :: others))
    as [errs st'].
  simpl in *. subst. reflexivity.
Qed.

(** C9.  [validateAlignment] answers [valid: true] exactly when the sequence
    is not empty and no segment is followed by one with a smaller
    [video_seconds]; on the empty sequence it answers [valid: false] with the
    single error ["No segments generated"] and no warning; and it leaves the
    segment objects as they were. *)
Theorem validateAlignment_valid_iff (segments : list TranscriptSegment) :
  (valid (validateAlignment segments) = true
   <-> segments <> []
       /\ forall i earlier later,
            nth_error segments i = Some earlier ->
            nth_error segments (S i) = Some later ->
            ~ (video_seconds later < video_seconds earlier)%Z)
  /\ validateAlignment [] = mkValidation false [] ["No segments generated"]
  /\ snd (validateAlignmentM segments) = segments.
Proof.
  split; [|split; [reflexivity | apply readOnly_validateAlignmentM]].
  destruct segments as [|first others].
  - simpl. split; [discriminate | intros [Hne _]; congruence].
  - rewrite validateAlignment_nonempty_valid, Nat.eqb_eq, length_zero_iff_nil,
      timing_errors_nil.
    split.
    + intros [_ Hall]. split; [discriminate|].
      intros i earlier later He Hl.
      assert (Hi : (S i < List.length (first :: others))%nat)
        by (apply nth_error_Some; congruence).
      rewrite <- Nat.add_1_r in Hl.
      assert (Hin : In i (seq 0 (List.length others)))
        by (apply in_seq; simpl in Hi; lia).
      specialize (Hall i earlier later Hin He Hl). lia.
    + intros [_ Hall]. split; [reflexivity|].
      intros i a b _ Ha Hb. rewrite Nat.add_1_r in Hb.
      specialize (Hall i a b Ha Hb). lia.
Qed.

(* --------------------------------------------------------------------- *)
(** ** Time literals *)
(* --------------------------------------------------------------------- *)

(** The replacement in [vttTimestampToSeconds] writes back what it matched. *)
Lemma cleanTimestamp_same (timestamp : string) : cleanTimestamp timestamp = timestamp.
Proof.
  unfold cleanTimestamp, matchShortHours.
  pose proof (string_of_list_ascii_of_string timestamp) as Hs.
  destruct (list_ascii_of_string timestamp)
    as [|h [|c1 [|m1 [|m2 [|c2 [|s1 [|s2 [|dot [|f1 [|f2 [|f3 [|x l]]]]]]]]]]]];
    try reflexivity.
  destruct (isDigit h && Ascii.eqb c1 ":" && isDigit m1 && isDigit m2
            && Ascii.eqb c2 ":" && isDigit s1 && isDigit s2
            && Ascii.eqb dot "." && isDigit f1 && isDigit f2 && isDigit f3)
    eqn:Hshape; [|reflexivity].
  repeat (apply andb_true_iff in Hshape; destruct Hshape as [Hshape ?]).
  repeat match goal with
         | E : Ascii.eqb ?c _ = true |- _ => apply Ascii.eqb_eq in E; subst c
         end.
  rewrite <- Hs. reflexivity.
Qed.

Lemma timeToSeconds_throws_iff (timeStr : string) :
  (exists message, timeToSeconds timeStr = Threw message)
  <-> List.length (split ":" timeStr) <> 2%nat
      /\ List.length (split ":" timeStr) <> 3%nat.
Proof.
  unfold timeToSeconds.
  destruct (split ":" timeStr) as [|a [|b [|c [|d l]]]]; simpl; split;
    try (intros [message Hthrow]; discriminate);
    try (intros [H2 H3]; congruence);
    try (intros _; eexists; reflexivity);
    intros _; split; discriminate.
Qed.

Lemma vttTimestampToSeconds_throws_iff (timestamp : string) :
  (exists message, vttTimestampToSeconds timestamp = Threw message)
  <-> List.length (split ":" timestamp) <> 3%nat.
Proof.
  unfold vttTimestampToSeconds. rewrite cleanTimestamp_same.
  destruct (split ":" timestamp) as [|a [|b [|c [|d l]]]]; simpl; split;
    try (intros [message Hthrow]; discriminate);
    try (intros H3; congruence);
    try (intros _; eexists; reflexivity);
    intros _; discriminate.
Qed.

Lemma digit_not_space (c : ascii) : isDigit c = true -> isSpace c = false.
Proof.
  destruct c as [[] [] [] [] [] [] [] []]; intros Hd;
    solve [reflexivity | discriminate Hd].
Qed.

Lemma split_digits (sep : ascii) (s : string) :
  isDigit sep = false -> allDigits s = true -> split sep s = [s].
Proof.
  intros Hsep. induction s as [|c s IH]; simpl; intros Hd; [reflexivity|].
  apply andb_true_iff in Hd. destruct Hd as [Hc Hs].
  destruct (Ascii.eqb c sep) eqn:Heq.
  - apply Ascii.eqb_eq in Heq. congruence.
  - rewrite (IH Hs). reflexivity.
Qed.

Lemma split_digits_then (sep : ascii) (s rest : string) :
  isDigit sep = false -> allDigits s = true ->
  split sep (s ++ String sep rest) = s :: split sep rest.
Proof.
  intros Hsep. induction s as [|c s IH]; simpl; intros Hd.
  - rewrite Ascii.eqb_refl. reflexivity.
  - apply andb_true_iff in Hd. destruct Hd as [Hc Hs].
    destruct (Ascii.eqb c sep) eqn:Heq.
    + apply Ascii.eqb_eq in Heq. congruence.
    + rewrite (IH Hs). reflexivity.
Qed.

Lemma readDigits_digits (s : string) (acc : Z) :
  allDigits s = true ->
  readDigits s true acc
  = Some (fold_left (fun a c => (10 * a + digitValue c)%Z) (list_ascii_of_string s) acc).
Proof.
  revert acc. induction s as [|c s IH]; simpl; intros acc Hd; [reflexivity|].
  apply andb_true_iff in Hd. destruct Hd as [Hc Hs].
  rewrite Hc. apply IH, Hs.
Qed.

(** [parseInt] reads a run of digits as the integer it denotes. *)
Lemma parseInt_digits (s : string) :
  digitField s = true -> parseInt s = ofZ (numeral s).
Proof.
  unfold digitField. intros Hs. apply andb_true_iff in Hs.
  destruct Hs as [Hne Hd]. destruct s as [|c s]; [discriminate|].
  simpl in Hd. apply andb_true_iff in Hd. destruct Hd as [Hc Hd].
  unfold parseInt, numeral. simpl dropSpaces.
  rewrite (digit_not_space c Hc).
  assert (Hbody : (let (negative, digits) :=
                     match String c s with
                     | String "-" rest => (true, rest)
                     | String "+" rest => (false, rest)
                     | _ => (false, String c s)
                     end in
                   match readDigits digits false 0 with
                   | Some v => ofZ (if negative then (- v)%Z else v)
                   | None => NaN
                   end)
                  = match readDigits (String c s) false 0 with
                    | Some v => ofZ v
                    | None => NaN
                    end).
  { destruct c as [[] [] [] [] [] [] [] []];
      solve [reflexivity | discriminate Hc]. }
  rewrite Hbody. simpl readDigits. rewrite Hc.
  rewrite (readDigits_digits s _ Hd). reflexivity.
Qed.

Lemma digitField_parts (s : string) :
  digitField s = true -> truthy s = true /\ allDigits s = true.
Proof. unfold digitField. intros Hs. apply andb_true_iff in Hs. exact Hs. Qed.

Lemma allDigits_zeros (k : nat) : allDigits (repeatChar "0" k) = true.
Proof. induction k as [|k IH]; simpl; [reflexivity | exact IH]. Qed.

Lemma allDigits_append (a b : string) :
  allDigits a = true -> allDigits b = true -> allDigits (a ++ b) = true.
Proof.
  intros Ha Hb. induction a as [|c a IH]; simpl in *; [exact Hb|].
  apply andb_true_iff in Ha. destruct Ha as [Hc Ha].
  rewrite Hc. apply IH, Ha.
Qed.

Lemma allDigits_padEnd (n : nat) (s : string) :
  digitField s = true -> digitField (padEnd n "0" s) = true.
Proof.
  intros Hs. apply digitField_parts in Hs. destruct Hs as [Hne Hd].
  unfold digitField, padEnd. apply andb_true_iff. split.
  - destruct s; [discriminate | reflexivity].
  - apply allDigits_append; [exact Hd | apply allDigits_zeros].
Qed.

(** A seconds field with a fraction contains no colon. *)
Lemma split_colon_fraction (whole fraction : string) :
  allDigits whole = true -> allDigits fraction = true ->
  split ":" (whole ++ String "." fraction) = [(whole ++ String "." fraction)%string].
Proof.
  intros Hw Hf. induction whole as [|c whole IH]; simpl.
  - rewrite (split_digits ":" fraction eq_refl Hf). reflexivity.
  - simpl in Hw. apply andb_true_iff in Hw. destruct Hw as [Hc Hw].
    destruct (Ascii.eqb c ":") eqn:Heq.
    + apply Ascii.eqb_eq in Heq. subst c. discriminate.
    + rewrite (IH Hw). reflexivity.
Qed.

Lemma timeToSeconds_two_fields (mm ss : string) :
  digitField mm = true -> digitField ss = true ->
  timeToSeconds (mm ++ ":" ++ ss)
  = Returned (nadd (nmul (ofZ (numeral mm)) (ofZ 60)) (ofZ (numeral ss))).
Proof.
  intros Hm Hs.
  destruct (digitField_parts mm Hm) as [_ Hmd].
  destruct (digitField_parts ss Hs) as [_ Hsd].
  unfold timeToSeconds. simpl append.
  rewrite (split_digits_then ":" mm ss eq_refl Hmd), (split_digits ":" ss eq_refl Hsd).
  simpl map. rewrite (parseInt_digits mm Hm), (parseInt_digits ss Hs). reflexivity.
Qed.

Lemma timeToSeconds_three_fields (hh mm ss : string) :
  digitField hh = true -> digitField mm = true -> digitField ss = true ->
  timeToSeconds (hh ++ ":" ++ mm ++ ":" ++ ss)
  = Returned (nadd (nadd (nmul (ofZ (numeral hh)) (ofZ 3600))
                         (nmul (ofZ (numeral mm)) (ofZ 60)))
                   (ofZ (numeral ss))).
Proof.
  intros Hh Hm Hs.
  destruct (digitField_parts hh Hh) as [_ Hhd].
  destruct (digitField_parts mm Hm) as [_ Hmd].
  destruct (digitField_parts ss Hs) as [_ Hsd].
  unfold timeToSeconds.
  change (hh ++ ":" ++ mm ++ ":" ++ ss)%string
    with (hh ++ String ":" (mm ++ String ":" ss))%string.
  rewrite (split_digits_then ":" hh _ eq_refl Hhd),
    (split_digits_then ":" mm ss eq_refl Hmd), (split_digits ":" ss eq_refl Hsd).
  simpl map.
  rewrite (parseInt_digits hh Hh), (parseInt_digits mm Hm), (parseInt_digits ss Hs).
  reflexivity.
Qed.

Lemma vttTimestampToSeconds_fields (h mm ss fff : string) :
  digitField h = true -> digitField mm = true ->
  digitField ss = true -> digitField fff = true ->
  vttTimestampToSeconds (h ++ ":" ++ mm ++ ":" ++ ss ++ "." ++ fff)
  = Returned (nadd (nadd (nadd (nmul (ofZ (numeral h)) (ofZ 3600))
                               (nmul (ofZ (numeral mm)) (ofZ 60)))
                         (ofZ (numeral ss)))
                   (ndiv (ofZ (numeral (padEnd 3 "0" fff))) (ofZ 1000))).
Proof.
  intros Hh Hm Hs Hf.
  destruct (digitField_parts h Hh) as [_ Hhd].
  destruct (digitField_parts mm Hm) as [_ Hmd].
  destruct (digitField_parts ss Hs) as [_ Hsd].
  destruct (digitField_parts fff Hf) as [Hfne Hfd].
  unfold vttTimestampToSeconds. rewrite cleanTimestamp_same.
  change (h ++ ":" ++ mm ++ ":" ++ ss ++ "." ++ fff)%string
    with (h ++ String ":" (mm ++ String ":" (ss ++ String "." fff)))%string.
  rewrite (split_digits_then ":" h _ eq_refl Hhd),
    (split_digits_then ":" mm _ eq_refl Hmd), (split_colon_fraction ss fff Hsd Hfd).
  cbv beta iota zeta.
  rewrite (split_digits_then "." ss fff eq_refl Hsd), (split_digits "." fff eq_refl Hfd).
  simpl hd. simpl nth_error. cbv beta iota. rewrite Hfne.
  rewrite (parseInt_digits h Hh), (parseInt_digits mm Hm), (parseInt_digits ss Hs),
    (parseInt_digits _ (allDigits_padEnd 3 fff Hf)).
  reflexivity.
Qed.

(** C8, as the code has it.  [timeToSeconds] throws exactly when the literal
    does not have two or three parts between colons.  [vttTimestampToSeconds]
    returns a number for every literal of three parts and throws for every
    literal of fewer than two or more than three parts; what it does with two
    parts, the caption form without hours that its comment names, is not part
    of the statement.  Neither looks at what the parts are made of.  On
    digits, [timeToSeconds] reads [MM:SS] as [60 MM + SS] and [HH:MM:SS] as
    [3600 HH + 60 MM + SS], and [vttTimestampToSeconds] reads [H:MM:SS.mmm] as
    [3600 H + 60 MM + SS + mmm / 1000], the fraction padded to three digits. *)
Theorem time_literals_parsed_by_part_count :
  (forall timeStr,
      (exists message, timeToSeconds timeStr = Threw message)
      <-> List.length (split ":" timeStr) <> 2%nat
          /\ List.length (split ":" timeStr) <> 3%nat)
  /\ (forall timestamp,
        (List.length (split ":" timestamp) = 3%nat ->
         exists seconds, vttTimestampToSeconds timestamp = Returned seconds)
        /\ (List.length (split ":" timestamp) <> 2%nat ->
            List.length (split ":" timestamp) <> 3%nat ->
            exists message, vttTimestampToSeconds timestamp = Threw message))
  /\ (forall mm ss,
        digitField mm = true -> digitField ss = true ->
        exists q, timeToSeconds (mm ++ ":" ++ ss) = Returned (Fin q)
                  /\ q == inject_Z (numeral mm * 60 + numeral ss))
  /\ (forall hh mm ss,
        digitField hh = true -> digitField mm = true -> digitField ss = true ->
        exists q, timeToSeconds (hh ++ ":" ++ mm ++ ":" ++ ss) = Returned (Fin q)
                  /\ q == inject_Z (numeral hh * 3600 + numeral mm * 60 + numeral ss))
  /\ (forall h mm ss fff,
        digitField h = true -> digitField mm = true ->
        digitField ss = true -> digitField fff = true ->
        exists q,
          vttTimestampToSeconds (h ++ ":" ++ mm ++ ":" ++ ss ++ "." ++ fff)
          = Returned (Fin q)
          /\ q == inject_Z (numeral h * 3600 + numeral mm * 60 + numeral ss)
                  + inject_Z (numeral (padEnd 3 "0" fff)) / 1000).
Proof.
  split; [exact timeToSeconds_throws_iff|].
  split.
  { intros timestamp. split.
    - intros Hthree.
      destruct (vttTimestampToSeconds timestamp) as [seconds|message] eqn:Hrun.
      + exists seconds. reflexivity.
      + exfalso. apply (proj1 (vttTimestampToSeconds_throws_iff timestamp)).
        * exists message. exact Hrun.
        * exact Hthree.
    - intros _ Hthree. apply vttTimestampToSeconds_throws_iff. exact Hthree. }
  split; [|split].
  - intros mm ss Hm Hs. eexists. split.
    + rewrite (timeToSeconds_two_fields mm ss Hm Hs). reflexivity.
    + rewrite inject_Z_plus, inject_Z_mult. reflexivity.
  - intros hh mm ss Hh Hm Hs. eexists. split.
    + rewrite (timeToSeconds_three_fields hh mm ss Hh Hm Hs). reflexivity.
    + rewrite !inject_Z_plus, !inject_Z_mult. reflexivity.
  - intros h mm ss fff Hh Hm Hs Hf. eexists. split.
    + rewrite (vttTimestampToSeconds_fields h mm ss fff Hh Hm Hs Hf). reflexivity.
    + rewrite !inject_Z_plus, !inject_Z_mult. reflexivity.
Qed.

(** A caption time without hours has two parts.  The comment in
    [vttTimestampToSeconds] names this form as handled, but the replacement
    above the test writes back what it matched ([cleanTimestamp_same]), so the
    function throws on it; [timeToSeconds] drops its fraction. *)
Example short_caption_time :
  vttTimestampToSeconds "01:23.850" = Threw "Invalid VTT timestamp format: 01:23.850"
  /\ timeToSeconds "01:23.850" = Returned (Fin 83).
Proof. split; reflexivity. Qed.

(** The shapes that the spec names are well-formed literals. *)
Example timeLiteralForm_shapes :
  map timeLiteralForm ["03:51"; "00:03:51"; "0:01:23.850"; "01:23,850"]
  = [true; true; true; true].
Proof. reflexivity. Qed.

(** C8, as stated, fails.  ["1x:2y"] and ["1:2:3x"] are in none of the forms,
    yet the parsers return a number for them: [parseInt] stops at the first
    character that is not a digit.  For ["a:b"] the number is [NaN]. *)
Lemma malformed_literal_returns_number :
  timeLiteralForm "1x:2y" = false
  /\ timeToSeconds "1x:2y" = Returned (Fin 62)
  /\ timeLiteralForm "1:2:3x" = false
  /\ (exists q, vttTimestampToSeconds "1:2:3x" = Returned (Fin q) /\ q == 3723)
  /\ timeLiteralForm "a:b" = false
  /\ timeToSeconds "a:b" = Returned NaN.
Proof.
  repeat split; try reflexivity.
  eexists. split; reflexivity.
Qed.

(* ===================================================================== *)
(** * Further properties of the code *)
(* ===================================================================== *)

Import VTTProcessor Notions.

(* --------------------------------------------------------------------- *)
(** ** Windows and grace *)
(* --------------------------------------------------------------------- *)

(** A time that a window contains within some grace, it contains within any
    larger grace. *)
Theorem isTimeInWindow_grace_monotone (time start end_ grace grace' : Q) :
  grace <= grace' ->
  isTimeInWindow time start end_ grace = true ->
  isTimeInWindow time start end_ grace' = true.
Proof.
  intros Hg Hin. apply isTimeInWindow_iff in Hin. destruct Hin as [Hlo Hhi].
  apply isTimeInWindow_iff. split.
  - eapply Qle_trans; [|exact Hlo].
    apply Qplus_le_r. apply Qopp_le_compat. exact Hg.
  - eapply Qlt_le_trans; [exact Hhi|].
    apply Qplus_le_r. exact Hg.
Qed.

Lemma isTimeInWindow_grace_monotone_witness :
  isTimeInWindow (757 # 10) 76 454 1 = true.
Proof.
  apply (isTimeInWindow_grace_monotone (757 # 10) 76 454 defaultGraceWindow 1);
    [discriminate | reflexivity].
Defined.

(* --------------------------------------------------------------------- *)
(** ** Printing and reading whole seconds *)
(* --------------------------------------------------------------------- *)

Lemma numeral_uint_acc (u : Decimal.uint) (acc : positive) :
  fold_left (fun a c => (10 * a + digitValue c)%Z)
            (list_ascii_of_string (NilEmpty.string_of_uint u)) (Z.pos acc)
  = Z.pos (Pos.of_uint_acc u acc).
Proof.
  revert acc.
  induction u; intros acc;
    cbn [NilEmpty.string_of_uint list_ascii_of_string fold_left Pos.of_uint_acc];
    try reflexivity;
    rewrite <- IHu; f_equal;
    match goal with
    | |- context [digitValue ?c] =>
        let v := eval vm_compute in (digitValue c) in
        change (digitValue c) with v
    end; lia.
Qed.

Lemma numeral_uint (u : Decimal.uint) :
  numeral (NilEmpty.string_of_uint u) = Z.of_N (Pos.of_uint u).
Proof.
  unfold numeral.
  induction u;
    cbn [NilEmpty.string_of_uint list_ascii_of_string fold_left Pos.of_uint];
    try reflexivity; try exact IHu;
    match goal with
    | |- context [digitValue ?c] =>
        let v := eval vm_compute in (digitValue c) in
        change (10 * 0 + digitValue c)%Z with v
    end; cbn [Z.of_N]; apply (numeral_uint_acc u).
Qed.

Lemma allDigits_uint (u : Decimal.uint) :
  allDigits (NilEmpty.string_of_uint u) = true.
Proof. induction u; simpl; try reflexivity; exact IHu. Qed.

(** [toString] of a natural number is a run of digits that denotes it. *)
Lemma toString_digits (z : Z) :
  (0 <= z)%Z -> digitField (toString z) = true /\ numeral (toString z) = z.
Proof.
  intros Hz. unfold toString. destruct z as [|p|p]; [split; reflexivity | | lia].
  simpl Z.to_int. simpl NilZero.string_of_int. unfold NilZero.string_of_uint.
  pose proof (Unsigned.to_uint_nonnil p) as Hnonnil.
  pose proof (DecimalPos.Unsigned.of_to p) as Hback.
  destruct (Pos.to_uint p) as [|u|u|u|u|u|u|u|u|u|u] eqn:Hp; [congruence | ..];
    (split;
     [unfold digitField; rewrite allDigits_uint; reflexivity
     | rewrite numeral_uint, Hback; reflexivity]).
Qed.

(** Padding with zeros on the left keeps a run of digits and its value. *)
Lemma padStart_digits (n : nat) (s : string) :
  digitField s = true ->
  digitField (padStart n "0" s) = true /\ numeral (padStart n "0" s) = numeral s.
Proof.
  intros Hs. unfold padStart.
  generalize (n - String.length s)%nat as k. intros k.
  induction k as [|k [IHd IHn]]; simpl; [split; [exact Hs | reflexivity]|].
  split.
  - apply digitField_parts in IHd. destruct IHd as [_ IHd].
    unfold digitField. simpl. exact IHd.
  - unfold numeral in *. simpl. exact IHn.
Qed.

Lemma floor_div_pos (x : Q) (k : positive) :
  floor (x / inject_Z (Z.pos k)) = (floor x / Z.pos k)%Z.
Proof.
  destruct x as [n d]. unfold floor, Qfloor, Qdiv, Qmult, Qinv, inject_Z.
  cbn [Qnum Qden]. rewrite Z.mul_1_r, Pos2Z.inj_mul.
  symmetry. apply Z.div_div; lia.
Qed.

Lemma trunc_nonneg (x : Q) : 0 <= x -> trunc x = floor x.
Proof.
  destruct x as [n d]. unfold Qle, trunc, floor, Qfloor. cbn [Qnum Qden].
  intros Hn. apply Z.quot_div_nonneg; lia.
Qed.

Lemma floor_minus_Z (x : Q) (z : Z) : floor (x - inject_Z z) = (floor x - z)%Z.
Proof.
  destruct x as [n d].
  unfold floor, Qfloor, Qminus, Qplus, Qopp, inject_Z. cbn [Qnum Qden].
  rewrite Pos.mul_1_r, Z.mul_1_r.
  replace (n + - z * Z.pos d)%Z with (n + (- z) * Z.pos d)%Z by lia.
  rewrite Z.div_add by lia. lia.
Qed.

(** The remainder of a non-negative time by a positive number of seconds has
    the remainder of the whole seconds as its whole part. *)
Lemma floor_rem (x : Q) (k : positive) :
  0 <= x -> floor (rem x (inject_Z (Z.pos k))) = (floor x mod Z.pos k)%Z.
Proof.
  intros Hx. unfold rem.
  rewrite trunc_nonneg.
  - rewrite floor_div_pos.
    assert (Heq : x - inject_Z (floor x / Z.pos k) * inject_Z (Z.pos k)
                  == x - inject_Z (floor x / Z.pos k * Z.pos k)).
    { rewrite inject_Z_mult. reflexivity. }
    unfold floor at 1. rewrite (Qfloor_comp _ _ Heq).
    fold (floor (x - inject_Z (floor x / Z.pos k * Z.pos k))).
    rewrite floor_minus_Z.
    pose proof (Z.div_mod (floor x) (Z.pos k)). lia.
  - apply Qle_shift_div_l; [reflexivity|].
    rewrite Qmult_0_l. exact Hx.
Qed.

Lemma rem_nonneg (x : Q) (k : positive) :
  0 <= x -> 0 <= rem x (inject_Z (Z.pos k)).
Proof.
  intros Hx. unfold rem. rewrite trunc_nonneg.
  - rewrite floor_div_pos.
    assert (Hfloor : inject_Z (floor x) <= x) by apply Qfloor_le.
    assert (Hz : (floor x / Z.pos k * Z.pos k <= floor x)%Z).
    { pose proof (Z.div_mod (floor x) (Z.pos k)).
      pose proof (Z.mod_pos_bound (floor x) (Z.pos k)). lia. }
    rewrite <- inject_Z_mult.
    apply (Qplus_le_l _ _ (inject_Z (floor x / Z.pos k * Z.pos k))).
    rewrite Qplus_0_l.
    setoid_replace (x - inject_Z (floor x / Z.pos k * Z.pos k)
                    + inject_Z (floor x / Z.pos k * Z.pos k)) with x by ring.
    eapply Qle_trans; [|exact Hfloor].
    rewrite <- Zle_Qle. exact Hz.
  - apply Qle_shift_div_l; [reflexivity|].
    rewrite Qmult_0_l. exact Hx.
Qed.

Lemma floor_nonneg (x : Q) : 0 <= x -> (0 <= floor x)%Z.
Proof.
  intros Hx. change 0%Z with (Qfloor 0). apply Qfloor_resp_le. exact Hx.
Qed.

(** The three fields that [secondsToTimestamp] prints for a non-negative
    time: whole hours, minutes below 60 and seconds below 60 of its whole
    seconds. *)
Lemma timestamp_fields (x : Q) :
  0 <= x ->
  floor (x / 3600) = (floor x / 3600)%Z
  /\ floor (rem x 3600 / 60) = (floor x mod 3600 / 60)%Z
  /\ floor (rem x 60) = (floor x mod 60)%Z.
Proof.
  intros Hx. repeat split.
  - exact (floor_div_pos x 3600).
  - change (rem x 3600 / 60) with (rem x (inject_Z 3600) / inject_Z 60).
    rewrite (floor_div_pos _ 60), (floor_rem x 3600 Hx). reflexivity.
  - exact (floor_rem x 60 Hx).
Qed.

Lemma printed_time_read_back (x : Q) :
  0 <= x ->
  exists q,
    timeToSeconds (secondsToTimestamp x) = Returned (Fin q)
    /\ q == inject_Z (Qfloor x).
Proof.
  intros Hx.
  destruct (timestamp_fields x Hx) as (Hh & Hm & Hs).
  pose proof (floor_nonneg x Hx) as Hfloor.
  assert (Hh0 : (0 <= floor (x / 3600))%Z)
    by (rewrite Hh; apply Z.div_pos; lia).
  assert (Hm0 : (0 <= floor (rem x 3600 / 60))%Z).
  { rewrite Hm. apply Z.div_pos; [|lia].
    apply Z.mod_pos_bound. lia. }
  assert (Hs0 : (0 <= floor (rem x 60))%Z)
    by (rewrite Hs; apply Z.mod_pos_bound; lia).
  destruct (toString_digits _ Hh0) as [Dh Nh].
  destruct (toString_digits _ Hm0) as [Dm Nm].
  destruct (toString_digits _ Hs0) as [Ds Ns].
  destruct (padStart_digits 2 _ Dh) as [Ph Vh].
  destruct (padStart_digits 2 _ Dm) as [Pm Vm].
  destruct (padStart_digits 2 _ Ds) as [Ps Vs].
  unfold secondsToTimestamp.
  rewrite (timeToSeconds_three_fields _ _ _ Ph Pm Ps).
  rewrite Vh, Vm, Vs, Nh, Nm, Ns.
  eexists. split; [reflexivity|].
  rewrite Hh, Hm, Hs.
  rewrite <- !inject_Z_mult, <- !inject_Z_plus.
  apply inject_Z_injective.
  fold (floor x).
  pose proof (Z.div_mod (floor x) 3600).
  pose proof (Z.div_mod (floor x mod 3600) 60).
  assert (Hmm : ((floor x mod 3600) mod 60 = floor x mod 60)%Z).
  { apply Z.mod_mod_divide. exists 60%Z. reflexivity. }
  lia.
Qed.

(** Reading back what [secondsToTimestamp] prints gives the whole seconds of
    a non-negative time: [timeToSeconds (secondsToTimestamp x)] returns
    [floor x]. *)
Theorem secondsToTimestamp_read_back (x : Q) :
  0 <= x ->
  exists q,
    timeToSeconds (secondsToTimestamp x) = Returned (Fin q)
    /\ q == inject_Z (Qfloor x).
Proof. apply printed_time_read_back. Qed.

Lemma secondsToTimestamp_read_back_witness :
  exists q,
    timeToSeconds (secondsToTimestamp (832 # 10)) = Returned (Fin q)
    /\ q == 83.
Proof.
  apply (secondsToTimestamp_read_back (832 # 10)). discriminate.
Defined.

(** [parseDuration] reads a duration as [timeToSeconds] does wherever that
    returns, and reads as zero exactly the strings on which it throws. *)
Theorem parseDuration_timeToSeconds (duration : string) :
  (forall v, timeToSeconds duration = Returned v -> Builder.parseDuration duration = v)
  /\ forall message,
       timeToSeconds duration = Threw message ->
       Builder.parseDuration duration = ofZ 0.
Proof.
  unfold timeToSeconds, Builder.parseDuration.
  destruct (split ":" duration) as [|a [|b [|c [|d l]]]]; simpl; split;
    intros v Hv; solve [reflexivity | congruence].
Qed.

(* --------------------------------------------------------------------- *)
(** ** The index of speaker windows *)
(* --------------------------------------------------------------------- *)

Lemma insertByStart_sorted (w : OwnedWindow) (sorted : list OwnedWindow) :
  StronglySorted (fun a b => startSec a <= startSec b) sorted ->
  StronglySorted (fun a b => startSec a <= startSec b) (insertByStart w sorted).
Proof.
  induction sorted as [|v rest IH]; intros Hsorted; cbn [insertByStart].
  - constructor; constructor.
  - inversion Hsorted as [|v' rest' Hrest Hv]. subst.
    destruct (ltb (startSec w) (startSec v)) eqn:Hcmp.
    + apply ltb_lt in Hcmp. constructor; [exact Hsorted|].
      constructor; [apply Qlt_le_weak; exact Hcmp|].
      eapply Forall_impl; [|exact Hv]. intros x Hx.
      eapply Qle_trans; [apply Qlt_le_weak; exact Hcmp | exact Hx].
    + apply ltb_ge in Hcmp. constructor; [apply IH; exact Hrest|].
      apply Forall_forall. intros x Hx. apply insertByStart_In in Hx.
      destruct Hx as [-> | Hx]; [exact Hcmp|].
      rewrite Forall_forall in Hv. apply Hv, Hx.
Qed.

Lemma insertByStart_permutation (w : OwnedWindow) (sorted : list OwnedWindow) :
  Permutation (w :: sorted) (insertByStart w sorted).
Proof.
  induction sorted as [|v rest IH]; cbn [insertByStart].
  - apply Permutation_refl.
  - destruct (ltb (startSec w) (startSec v)).
    + apply Permutation_refl.
    + eapply Permutation_trans; [apply perm_swap|].
      apply perm_skip. exact IH.
Qed.

Lemma sortByStart_spec (ws : list OwnedWindow) :
  StronglySorted (fun a b => startSec a <= startSec b) (sortByStart ws)
  /\ Permutation ws (sortByStart ws).
Proof.
  unfold sortByStart.
  assert (Hgen : forall sorted,
             StronglySorted (fun a b => startSec a <= startSec b) sorted ->
             StronglySorted (fun a b => startSec a <= startSec b)
               (fold_left (fun sorted w => insertByStart w sorted) ws sorted)
             /\ Permutation (ws ++ sorted)
                  (fold_left (fun sorted w => insertByStart w sorted) ws sorted)).
  { induction ws as [|w ws IH]; intros sorted Hsorted; simpl.
    - split; [exact Hsorted | apply Permutation_refl].
    - destruct (IH (insertByStart w sorted) (insertByStart_sorted w sorted Hsorted))
        as [Hs Hp].
      split; [exact Hs|].
      eapply Permutation_trans; [|exact Hp].
      eapply Permutation_trans; [apply Permutation_middle|].
      apply Permutation_app_head. apply insertByStart_permutation. }
  destruct (Hgen [] (SSorted_nil _)) as [Hs Hp].
  split; [exact Hs|]. rewrite app_nil_r in Hp. exact Hp.
Qed.

(** [collectAllSpeakers] returns the windows of all agenda items, each once
    and with the id of its item, in ascending order of [startSec]. *)
Theorem collectAllSpeakers_sorted_permutation (agendaItems : list AgendaItem) :
  StronglySorted (fun a b => startSec a <= startSec b)
                 (collectAllSpeakers agendaItems)
  /\ Permutation (ownedWindows agendaItems) (collectAllSpeakers agendaItems).
Proof. apply sortByStart_spec. Qed.

Lemma filter_none {A : Type} (f : A -> bool) (l : list A) :
  (forall x, In x l -> f x = false) -> filter f l = [].
Proof.
  intros Hall. induction l as [|x l IH]; simpl; [reflexivity|].
  rewrite (Hall x (or_introl eq_refl)). apply IH.
  intros y Hy. apply Hall. right. exact Hy.
Qed.

Lemma insertByStart_same_start (s : Q) (w : OwnedWindow) (sorted : list OwnedWindow) :
  StronglySorted (fun a b => startSec a <= startSec b) sorted ->
  filter (fun x => Qeq_bool (startSec x) s) (insertByStart w sorted)
  = filter (fun x => Qeq_bool (startSec x) s) sorted
    ++ (if Qeq_bool (startSec w) s then [w] else []).
Proof.
  induction sorted as [|v rest IH]; intros Hsorted; cbn [insertByStart].
  - simpl. destruct (Qeq_bool (startSec w) s); reflexivity.
  - inversion Hsorted as [|v' rest' Hrest Hv]. subst.
    destruct (ltb (startSec w) (startSec v)) eqn:Hcmp.
    + apply ltb_lt in Hcmp.
      cbn [filter]. destruct (Qeq_bool (startSec w) s) eqn:Hw;
        [|rewrite app_nil_r; reflexivity].
      apply Qeq_bool_iff in Hw.
      assert (Hnone : filter (fun x => Qeq_bool (startSec x) s) (v :: rest) = []).
      { apply filter_none. intros x Hx.
        destruct (Qeq_bool (startSec x) s) eqn:Hxs; [|reflexivity].
        apply Qeq_bool_iff in Hxs. exfalso.
        assert (Hvx : startSec v <= startSec x).
        { destruct Hx as [<- | Hx]; [apply Qle_refl|].
          rewrite Forall_forall in Hv. apply Hv, Hx. }
        apply (Qlt_irrefl (startSec w)).
        eapply Qlt_le_trans; [exact Hcmp|].
        eapply Qle_trans; [exact Hvx|].
        rewrite Hxs, <- Hw. apply Qle_refl. }
      cbn [filter] in Hnone. rewrite Hnone. reflexivity.
    + cbn [filter]. rewrite (IH Hrest).
      destruct (Qeq_bool (startSec v) s); reflexivity.
Qed.

(** The sort of [collectAllSpeakers] is stable: the windows that start at
    the same time stay in the order in which the agenda declares them. *)
Theorem collectAllSpeakers_stable (agendaItems : list AgendaItem) (s : Q) :
  filter (fun w => Qeq_bool (startSec w) s) (collectAllSpeakers agendaItems)
  = filter (fun w => Qeq_bool (startSec w) s) (ownedWindows agendaItems).
Proof.
  unfold collectAllSpeakers. fold (ownedWindows agendaItems).
  generalize (ownedWindows agendaItems) as ws. intros ws. unfold sortByStart.
  assert (Hgen : forall sorted,
             StronglySorted (fun a b => startSec a <= startSec b) sorted ->
             filter (fun w => Qeq_bool (startSec w) s)
                    (fold_left (fun sorted w => insertByStart w sorted) ws sorted)
             = filter (fun w => Qeq_bool (startSec w) s) sorted
               ++ filter (fun w => Qeq_bool (startSec w) s) ws).
  { induction ws as [|w ws IH]; intros sorted Hsorted; cbn [fold_left filter].
    - rewrite app_nil_r. reflexivity.
    - rewrite (IH _ (insertByStart_sorted w sorted Hsorted)).
      rewrite (insertByStart_same_start s w sorted Hsorted), <- app_assoc.
      destruct (Qeq_bool (startSec w) s); reflexivity. }
  exact (Hgen [] (SSorted_nil _)).
Qed.

(* --------------------------------------------------------------------- *)
(** ** What the segments of [alignTranscript] carry *)
(* --------------------------------------------------------------------- *)

Lemma findBestSpeakerWindow_In {W : Type} `{WindowLike W}
    (time : Q) (windows : list W) (graceWindow : Q) (w : W) :
  findBestSpeakerWindow time windows graceWindow = Some w ->
  In w windows
  /\ startSec w - graceWindow <= time /\ time < endSec w + graceWindow.
Proof.
  unfold findBestSpeakerWindow. intros Hbest.
  assert (Hcand : In w (filter (fun x => isTimeInWindow time (startSec x) (endSec x)
                                                        graceWindow) windows)).
  { destruct (filter (fun x => isTimeInWindow time (startSec x) (endSec x)
                                              graceWindow) windows)
      as [|first [|second others]].
    - discriminate.
    - inversion Hbest. left. reflexivity.
    - destruct (closer_fold_first_least time (second :: others) first)
        as (before & best & after & Hsplit & Hfold & _).
      rewrite Hfold in Hbest. injection Hbest as <-.
      rewrite Hsplit. apply in_or_app. right. left. reflexivity. }
  apply filter_In in Hcand. destruct Hcand as [Hin Hwin].
  apply isTimeInWindow_iff in Hwin. auto.
Qed.

Lemma collectAllSpeakers_owner (agendaItems : list AgendaItem) (w : OwnedWindow) :
  In w (collectAllSpeakers agendaItems) ->
  exists item,
    In item agendaItems /\ In (window w) (speakers item) /\ agendaItemId w = id item.
Proof.
  unfold collectAllSpeakers. intros Hw.
  apply sortByStart_In, in_flat_map in Hw. destruct Hw as (item & Hitem & Hw).
  apply in_map_iff in Hw. destruct Hw as (speaker & <- & Hspeaker).
  exists item. auto.
Qed.

Lemma findAgendaItemForCue_In (graceWindow : Q) (cue : VTTCue)
    (agendaItems : list AgendaItem) (matched : option OwnedWindow) (item : AgendaItem) :
  findAgendaItemForCue graceWindow cue agendaItems matched = Some item ->
  In item agendaItems.
Proof.
  unfold findAgendaItemForCue.
  assert (Hscan : match find (isCueInAgendaItemTimeRange graceWindow cue) agendaItems with
                  | Some item' => Some item'
                  | None => hd_error agendaItems
                  end = Some item -> In item agendaItems).
  { destruct (find (isCueInAgendaItemTimeRange graceWindow cue) agendaItems)
      as [item'|] eqn:Hfind.
    - intros Heq. inversion Heq. subst item'. apply find_some in Hfind. tauto.
    - destruct agendaItems; [discriminate|].
      intros Heq. inversion Heq. left. reflexivity. }
  destruct matched as [w|]; [|exact Hscan].
  destruct (truthy (agendaItemId w)); [|exact Hscan].
  destruct (find (fun item' => String.eqb (id item') (agendaItemId w)) agendaItems)
    as [item'|] eqn:Hfind; [|exact Hscan].
  intros Heq. inversion Heq. subst item'. apply find_some in Hfind. tauto.
Qed.

Lemma alignTranscript_In (graceWindow : Q) (cues : list VTTCue)
    (agendaItems : list AgendaItem) (segment : TranscriptSegment) :
  In segment (alignTranscript graceWindow cues agendaItems) ->
  exists i cue,
    nth_error cues i = Some cue
    /\ segment = segmentOfCue graceWindow (collectAllSpeakers agendaItems) agendaItems
                              (1 + Z.of_nat i)%Z cue.
Proof.
  intros Hin. apply In_nth_error in Hin. destruct Hin as [i Hi].
  assert (Hlt : (i < List.length cues)%nat).
  { rewrite <- (alignTranscript_length graceWindow agendaItems).
    apply nth_error_Some. congruence. }
  destruct (nth_error cues i) as [cue|] eqn:Hcue;
    [|apply nth_error_None in Hcue; lia].
  exists i, cue. split; [exact Hcue|].
  rewrite (alignTranscript_nth graceWindow agendaItems cues i cue Hcue) in Hi.
  congruence.
Qed.

(** Every agenda title that a segment carries is the title of an agenda item
    of the input, and the field is never left out. *)
Theorem segment_agenda_item_exists (graceWindow : Q) (cues : list VTTCue)
    (agendaItems : list AgendaItem) (segment : TranscriptSegment) :
  In segment (alignTranscript graceWindow cues agendaItems) ->
  agenda_item segment <> Undefined
  /\ forall t, agenda_item segment = Value t ->
               exists item, In item agendaItems /\ title item = t.
Proof.
  intros Hin. apply alignTranscript_In in Hin.
  destruct Hin as (i & cue & _ & ->). cbn [agenda_item segmentOfCue].
  split.
  - unfold titleOrNull.
    destruct (findAgendaItemForCue _ _ _ _) as [item|]; [|discriminate].
    destruct (truthy (title item)); discriminate.
  - intros t Ht. apply titleOrNull_value in Ht.
    destruct Ht as (_ & item & Hitem & Htitle).
    exists item. split; [|exact Htitle].
    eapply findAgendaItemForCue_In. exact Hitem.
Qed.

Lemma segment_agenda_item_exists_witness :
  exists item, In item [Samples.opening] /\ title item = "Opening".
Proof.
  destruct (segment_agenda_item_exists defaultGraceWindow [Samples.damesEnHeren]
              [Samples.opening]
              (segmentOfCue defaultGraceWindow (collectAllSpeakers [Samples.opening])
                            [Samples.opening] 1 Samples.damesEnHeren)
              (or_introl eq_refl)) as [_ Htitle].
  apply Htitle. reflexivity.
Defined.

(** Every speaker that a segment carries is the speaker of a window of some
    agenda item, and the cue starts inside that window, within the grace. *)
Theorem segment_speaker_has_window (graceWindow : Q) (cues : list VTTCue)
    (agendaItems : list AgendaItem) (i : nat) (cue : VTTCue)
    (segment : TranscriptSegment) (name : string) :
  nth_error cues i = Some cue ->
  nth_error (alignTranscript graceWindow cues agendaItems) i = Some segment ->
  speaker_name segment = Some name ->
  exists item w,
    In item agendaItems /\ In w (speakers item) /\ speakerName w = name
    /\ startSec w - graceWindow <= start cue
    /\ start cue < endSec w + graceWindow.
Proof.
  intros Hcue Hseg Hname.
  rewrite (alignTranscript_nth graceWindow agendaItems cues i cue Hcue) in Hseg.
  inversion Hseg. subst segment. cbn [speaker_name segmentOfCue] in Hname.
  apply speakerNameOrNull_some in Hname.
  destruct Hname as (_ & w & Hbest & Hw).
  apply findBestSpeakerWindow_In in Hbest. destruct Hbest as (Hin & Hlo & Hhi).
  apply collectAllSpeakers_owner in Hin. destruct Hin as (item & Hitem & Hspeaker & _).
  exists item, (window w). auto.
Qed.

Lemma segment_speaker_has_window_witness :
  exists item w,
    In item [Samples.opening] /\ In w (speakers item)
    /\ speakerName w = "Jules Bijl"
    /\ startSec w - defaultGraceWindow <= start Samples.damesEnHeren
    /\ start Samples.damesEnHeren < endSec w + defaultGraceWindow.
Proof.
  apply (segment_speaker_has_window defaultGraceWindow [Samples.damesEnHeren]
           [Samples.opening] 0 Samples.damesEnHeren
           (segmentOfCue defaultGraceWindow (collectAllSpeakers [Samples.opening])
                         [Samples.opening] 1 Samples.damesEnHeren));
    reflexivity.
Defined.

Lemma find_by_id (agendaItems : list AgendaItem) (item : AgendaItem) :
  NoDup (map id agendaItems) -> In item agendaItems ->
  find (fun other => String.eqb (id other) (id item)) agendaItems = Some item.
Proof.
  induction agendaItems as [|first rest IH]; intros Hnodup Hin; [destruct Hin|].
  cbn [map] in Hnodup. inversion Hnodup as [|x l Hfresh Hrest]. subst.
  cbn [find]. destruct Hin as [-> | Hin].
  - rewrite String.eqb_refl. reflexivity.
  - destruct (String.eqb (id first) (id item)) eqn:Heq.
    + apply String.eqb_eq in Heq. exfalso. apply Hfresh. rewrite Heq.
      apply in_map. exact Hin.
    + apply IH; assumption.
Qed.

(** When the agenda items have distinct, non-empty ids, a cue that matched a
    speaker window is placed under the agenda item that declares the window,
    whatever other windows lie around the cue. *)
Theorem matched_cue_gets_owning_item (graceWindow : Q) (cue : VTTCue)
    (agendaItems : list AgendaItem) (w : OwnedWindow) :
  NoDup (map id agendaItems) ->
  (forall item, In item agendaItems -> id item <> EmptyString) ->
  findBestSpeakerWindow (start cue) (collectAllSpeakers agendaItems) graceWindow
    = Some w ->
  exists item,
    In item agendaItems /\ In (window w) (speakers item)
    /\ findAgendaItemForCue graceWindow cue agendaItems (Some w) = Some item.
Proof.
  intros Hnodup Hids Hbest.
  apply findBestSpeakerWindow_In in Hbest. destruct Hbest as (Hin & _).
  apply collectAllSpeakers_owner in Hin.
  destruct Hin as (item & Hitem & Hspeaker & Howner).
  exists item. repeat split; try assumption.
  unfold findAgendaItemForCue. rewrite Howner.
  rewrite (proj2 (truthy_iff (id item)) (Hids item Hitem)).
  rewrite (find_by_id agendaItems item Hnodup Hitem). reflexivity.
Qed.

Lemma matched_cue_gets_owning_item_witness :
  exists item,
    In item [Samples.opening; Samples.rondvraag]
    /\ In Samples.unnamed (speakers item)
    /\ findAgendaItemForCue defaultGraceWindow Samples.laterCue
         [Samples.opening; Samples.rondvraag]
         (Some (mkOwnedWindow Samples.unnamed "item-2"))
       = Some item.
Proof.
  apply (matched_cue_gets_owning_item defaultGraceWindow Samples.laterCue
           [Samples.opening; Samples.rondvraag]
           (mkOwnedWindow Samples.unnamed "item-2")).
  - repeat constructor; simpl; intuition discriminate.
  - intros item [<- | [<- | []]]; discriminate.
  - reflexivity.
Defined.

(** Without agenda items no cue gets a speaker or an agenda item. *)
Theorem alignTranscript_no_agenda (graceWindow : Q) (cues : list VTTCue) :
  map (fun s => (speaker_name s, agenda_item s))
      (alignTranscript graceWindow cues [])
  = map (fun _ => (None, Null)) cues.
Proof.
  apply nth_error_ext. intros i. rewrite !nth_error_map.
  destruct (nth_error cues i) as [cue|] eqn:Hcue.
  - rewrite (alignTranscript_nth graceWindow [] cues i cue Hcue). reflexivity.
  - apply nth_error_None in Hcue.
    rewrite <- (alignTranscript_length graceWindow []) in Hcue.
    apply nth_error_None in Hcue. rewrite Hcue. reflexivity.
Qed.

(** Every segment id is a non-empty run of decimal digits, the id of the
    [i]-th segment denotes [i + 1], and no two segments share an id. *)
Theorem segment_ids_count_from_one (graceWindow : Q) (cues : list VTTCue)
    (agendaItems : list AgendaItem) :
  Forall (fun s => digitField (segment_id s) = true)
         (alignTranscript graceWindow cues agendaItems)
  /\ map (fun s => numeral (segment_id s)) (alignTranscript graceWindow cues agendaItems)
     = map (fun i => (Z.of_nat i + 1)%Z) (seq 0 (List.length cues))
  /\ NoDup (map segment_id (alignTranscript graceWindow cues agendaItems)).
Proof.
  assert (Hid : forall i : nat,
             digitField (padStart 3 "0" (toString (1 + Z.of_nat i))) = true
             /\ numeral (padStart 3 "0" (toString (1 + Z.of_nat i)))
                = (Z.of_nat i + 1)%Z).
  { intros i.
    assert (Hpos : (0 <= 1 + Z.of_nat i)%Z) by lia.
    destruct (toString_digits _ Hpos) as [Hd Hn].
    destruct (padStart_digits 3 _ Hd) as [Hp Hv].
    split; [exact Hp|]. rewrite Hv, Hn. lia. }
  assert (Hnum : map (fun s => numeral (segment_id s))
                     (alignTranscript graceWindow cues agendaItems)
                 = map (fun i => (Z.of_nat i + 1)%Z) (seq 0 (List.length cues))).
  { apply nth_error_ext. intros i. rewrite !nth_error_map, nth_error_seq.
    destruct (nth_error cues i) as [cue|] eqn:Hcue.
    - rewrite (alignTranscript_nth graceWindow agendaItems cues i cue Hcue).
      assert (Hlt : (i < List.length cues)%nat)
        by (apply nth_error_Some; congruence).
      apply Nat.ltb_lt in Hlt. rewrite Hlt.
      cbn [option_map segment_id segmentOfCue Nat.add]. f_equal.
      apply Hid.
    - apply nth_error_None in Hcue.
      assert (Hge : (i <? List.length cues)%nat = false)
        by (apply Nat.ltb_ge; exact Hcue).
      rewrite Hge.
      rewrite <- (alignTranscript_length graceWindow agendaItems) in Hcue.
      apply nth_error_None in Hcue. rewrite Hcue. reflexivity. }
  split; [|split; [exact Hnum|]].
  - apply Forall_forall. intros segment Hin.
    destruct (alignTranscript_In graceWindow cues agendaItems segment Hin)
      as (i & cue & _ & ->).
    cbn [segment_id segmentOfCue]. apply Hid.
  - apply (NoDup_map_inv numeral). rewrite map_map, Hnum.
    apply NoDup_map_NoDup_ForallPairs; [|apply seq_NoDup].
    intros a b _ _ Hab. lia.
Qed.

(** The printed start of a segment reads back as its [video_seconds], for a
    cue that does not start before zero. *)
Theorem segment_timestamp_start_reads_back (graceWindow : Q) (cues : list VTTCue)
    (agendaItems : list AgendaItem) (i : nat) (cue : VTTCue) :
  nth_error cues i = Some cue ->
  0 <= start cue ->
  exists segment q,
    nth_error (alignTranscript graceWindow cues agendaItems) i = Some segment
    /\ timeToSeconds (timestamp_start segment) = Returned (Fin q)
    /\ q == inject_Z (video_seconds segment).
Proof.
  intros Hcue Hstart.
  destruct (printed_time_read_back (start cue) Hstart) as (q & Hread & Hq).
  eexists. exists q. split; [apply alignTranscript_nth, Hcue|].
  split; [exact Hread | exact Hq].
Qed.

Lemma segment_timestamp_start_reads_back_witness :
  exists segment q,
    nth_error (alignTranscript defaultGraceWindow [Samples.damesEnHeren]
                               [Samples.opening]) 0 = Some segment
    /\ timeToSeconds (timestamp_start segment) = Returned (Fin q)
    /\ q == inject_Z (video_seconds segment).
Proof.
  apply (segment_timestamp_start_reads_back defaultGraceWindow
           [Samples.damesEnHeren] [Samples.opening] 0 Samples.damesEnHeren);
    [reflexivity | discriminate].
Defined.

(* --------------------------------------------------------------------- *)
(** ** The gap-fill pass as a whole *)
(* --------------------------------------------------------------------- *)

Lemma nth_error_updateAt (f : TranscriptSegment -> TranscriptSegment)
    (st : Store) (i j : nat) :
  nth_error (updateAt i f st) j
  = if (j =? i)%nat then option_map f (nth_error st j) else nth_error st j.
Proof.
  revert i j. induction st as [|s st IH]; intros i j.
  - destruct i, j; cbn [updateAt nth_error option_map];
      try reflexivity; destruct (_ =? _)%nat; reflexivity.
  - destruct i as [|i], j as [|j]; cbn [updateAt nth_error Nat.eqb option_map];
      try reflexivity.
    apply IH.
Qed.

Lemma length_updateAt (f : TranscriptSegment -> TranscriptSegment)
    (st : Store) (i : nat) :
  List.length (updateAt i f st) = List.length st.
Proof.
  revert i. induction st as [|s st IH]; intros i; [destruct i; reflexivity|].
  destruct i; cbn [updateAt List.length]; [reflexivity | rewrite IH; reflexivity].
Qed.

Lemma forEach_app (body : nat -> M unit) (l1 l2 : list nat) (st : Store) :
  snd (forEach (l1 ++ l2) body st) = snd (forEach l2 body (snd (forEach l1 body st))).
Proof.
  revert st. induction l1 as [|i l1 IH]; intros st; [reflexivity|].
  cbn [app forEach]. unfold bind.
  destruct (body i st) as [u st']. apply IH.
Qed.

(** The store after the body of the loop at index [k]. *)
Lemma fillGapAt_store (n k : nat) (st : Store) :
  snd (fillGapAt n k st)
  = match nth_error st k with
    | None => st
    | Some segment =>
        if truthyName (speaker_name segment) then st
        else
          let prevSpeaker := if (0 <? k)%nat then nameAt st (k - 1) else None in
          let nextSpeaker := if (k <? n - 1)%nat then nameAt st (k + 1) else None in
          if truthyName prevSpeaker && sameName prevSpeaker nextSpeaker
          then updateAt k (withSpeakerName prevSpeaker) st
          else st
    end.
Proof.
  unfold fillGapAt, bind, getSegment, speakerNameAt, bind, getSegment,
    setSpeakerName, ret, nameAt.
  destruct (nth_error st k) as [segment|]; [|reflexivity].
  destruct (truthyName (speaker_name segment)); cbn [negb]; [reflexivity|].
  destruct (0 <? k)%nat; destruct (k <? n - 1)%nat; cbn [fst snd];
    match goal with
    | |- context [if ?c then _ else _] => destruct c; reflexivity
    end.
Qed.

Lemma gapFilled_keep_next (segments : list TranscriptSegment) (i : nat)
    (s : TranscriptSegment) :
  truthyName (nameAt segments (i + 1)) = false -> gapFilled segments i s = s.
Proof.
  intros Hnext. unfold gapFilled.
  destruct (truthyName (speaker_name s)); [reflexivity|].
  cbv zeta.
  destruct (truthyName (if (0 <? i)%nat then nameAt segments (i - 1) else None)
            && sameName (if (0 <? i)%nat then nameAt segments (i - 1) else None)
                        (nameAt segments (i + 1))) eqn:Hfill; [|reflexivity].
  apply andb_true_iff in Hfill. destruct Hfill as [Hprev Hsame].
  apply sameName_iff in Hsame. rewrite Hsame in Hprev. congruence.
Qed.

Lemma gapFilled_keep_prev (segments : list TranscriptSegment) (i : nat)
    (s : TranscriptSegment) :
  truthyName (nameAt segments i) = false -> gapFilled segments (S i) s = s.
Proof.
  intros Hprev. unfold gapFilled.
  destruct (truthyName (speaker_name s)); [reflexivity|].
  cbn [Nat.ltb Nat.leb Nat.sub]. rewrite Nat.sub_0_r, Hprev. reflexivity.
Qed.

Lemma gapFilled_truthy (segments : list TranscriptSegment) (i : nat)
    (s : TranscriptSegment) :
  truthyName (speaker_name s) = true -> gapFilled segments i s = s.
Proof. intros Hs. unfold gapFilled. rewrite Hs. reflexivity. Qed.

Lemma nameAt_ext (st segments : list TranscriptSegment) (i : nat) :
  nth_error st i = nth_error segments i -> nameAt st i = nameAt segments i.
Proof. unfold nameAt. intros ->. reflexivity. Qed.

(** After the turns for the indices below [k] the store holds the given
    segments, those below [k] rewritten by the rule read on the given array. *)
Lemma fill_sweep (segments : list TranscriptSegment) (k : nat) :
  (k <= List.length segments)%nat ->
  List.length (snd (forEach (seq 0 k) (fillGapAt (List.length segments)) segments))
  = List.length segments
  /\ forall i,
       nth_error (snd (forEach (seq 0 k) (fillGapAt (List.length segments)) segments)) i
       = if (i <? k)%nat
         then option_map (gapFilled segments i) (nth_error segments i)
         else nth_error segments i.
Proof.
  induction k as [|k IH]; intros Hk.
  - split; reflexivity.
  - destruct IH as [Hlen Hnth]; [lia|].
    rewrite seq_S, forEach_app. cbn [Nat.add].
    set (st := snd (forEach (seq 0 k) (fillGapAt (List.length segments)) segments)) in *.
    replace (snd (forEach [k] (fillGapAt (List.length segments)) st))
      with (snd (fillGapAt (List.length segments) k st))
      by (cbn [forEach]; unfold bind, ret;
          destruct (fillGapAt (List.length segments) k st); reflexivity).
    rewrite fillGapAt_store.
    assert (Hk_st : nth_error st k = nth_error segments k)
      by (rewrite Hnth, Nat.ltb_irrefl; reflexivity).
    destruct (nth_error segments k) as [segment|] eqn:Hseg;
      [|apply nth_error_None in Hseg; lia].
    rewrite Hk_st.
    (* what the turn reads is what the given array holds *)
    assert (Hprev : truthyName (speaker_name segment) = false ->
                    (if (0 <? k)%nat then nameAt st (k - 1) else None)
                    = (if (0 <? k)%nat then nameAt segments (k - 1) else None)).
    { intros Hfalsy. destruct k as [|j]; [reflexivity|].
      cbn [Nat.ltb Nat.leb Nat.sub]. rewrite Nat.sub_0_r.
      unfold nameAt at 1. rewrite Hnth.
      replace (j <? S j)%nat with true by (symmetry; apply Nat.ltb_lt; lia).
      unfold nameAt. destruct (nth_error segments j) as [before|]; [|reflexivity].
      cbn [option_map]. rewrite gapFilled_keep_next; [reflexivity|].
      unfold nameAt. rewrite Nat.add_1_r, Hseg. exact Hfalsy. }
    assert (Hnext : (if (k <? List.length segments - 1)%nat
                     then nameAt st (k + 1) else None)
                    = nameAt segments (k + 1)).
    { destruct (k <? List.length segments - 1)%nat eqn:Hlast.
      - apply nameAt_ext. rewrite Hnth.
        replace (k + 1 <? k)%nat with false by (symmetry; apply Nat.ltb_ge; lia).
        reflexivity.
      - apply Nat.ltb_ge in Hlast. unfold nameAt.
        replace (nth_error segments (k + 1)) with (@None TranscriptSegment);
          [reflexivity|].
        symmetry. apply nth_error_None. lia. }
    assert (Hrule : forall st', 
               (forall i, nth_error st' i
                          = if (i =? k)%nat
                            then Some (gapFilled segments k segment)
                            else nth_error st i) ->
               forall i, nth_error st' i
                         = if (i <? S k)%nat
                           then option_map (gapFilled segments i) (nth_error segments i)
                           else nth_error segments i).
    { intros st' Hst' i. rewrite Hst'.
      destruct (i =? k)%nat eqn:Hik.
      - apply Nat.eqb_eq in Hik. subst i.
        replace (k <? S k)%nat with true by (symmetry; apply Nat.ltb_lt; lia).
        rewrite Hseg. reflexivity.
      - apply Nat.eqb_neq in Hik. rewrite Hnth.
        destruct (i <? k)%nat eqn:Hlt.
        + apply Nat.ltb_lt in Hlt.
          replace (i <? S k)%nat with true by (symmetry; apply Nat.ltb_lt; lia).
          reflexivity.
        + apply Nat.ltb_ge in Hlt.
          replace (i <? S k)%nat with false by (symmetry; apply Nat.ltb_ge; lia).
          reflexivity. }
    assert (Hsame : forall i, nth_error st i
                              = if (i =? k)%nat then Some segment else nth_error st i).
    { intros i. destruct (i =? k)%nat eqn:Hik; [|reflexivity].
      apply Nat.eqb_eq in Hik. subst i. exact Hk_st. }
    unfold gapFilled in Hrule.
    destruct (truthyName (speaker_name segment)) eqn:Hfalsy.
    + split; [exact Hlen | apply Hrule; exact Hsame].
    + cbv zeta in *. rewrite (Hprev eq_refl), Hnext.
      destruct (truthyName (if (0 <? k)%nat then nameAt segments (k - 1) else None)
                && sameName (if (0 <? k)%nat then nameAt segments (k - 1) else None)
                            (nameAt segments (k + 1))).
      * split; [rewrite length_updateAt; exact Hlen|].
        apply Hrule. intros i. rewrite nth_error_updateAt.
        destruct (i =? k)%nat eqn:Hik; [|reflexivity].
        apply Nat.eqb_eq in Hik. subst i. rewrite Hk_st. reflexivity.
      * split; [exact Hlen | apply Hrule; exact Hsame].
Qed.

Lemma fillSpeakerGaps_store (segments : list TranscriptSegment) :
  fillSpeakerGaps segments
  = snd (forEach (seq 0 (List.length segments))
                 (fillGapAt (List.length segments)) segments).
Proof.
  unfold fillSpeakerGaps, fillSpeakerGapsM, bind, getLength, getSegments.
  destruct (forEach (seq 0 (List.length segments))
                    (fillGapAt (List.length segments)) segments).
  reflexivity.
Qed.

Lemma fillSpeakerGaps_nth (segments : list TranscriptSegment) (i : nat) :
  nth_error (fillSpeakerGaps segments) i
  = option_map (gapFilled segments i) (nth_error segments i).
Proof.
  rewrite fillSpeakerGaps_store.
  destruct (fill_sweep segments (List.length segments) (le_n _)) as [_ Hnth].
  rewrite Hnth. destruct (i <? List.length segments)%nat eqn:Hi; [reflexivity|].
  apply Nat.ltb_ge, nth_error_None in Hi. rewrite Hi. reflexivity.
Qed.

Lemma fillSpeakerGaps_length (segments : list TranscriptSegment) :
  List.length (fillSpeakerGaps segments) = List.length segments.
Proof.
  rewrite fillSpeakerGaps_store.
  exact (proj1 (fill_sweep segments (List.length segments) (le_n _))).
Qed.

(** The in-place sweep of [fillSpeakerGaps] gives what the rule gives on the
    array as it was passed in: the segment at every index is the given one,
    with the speaker of its two neighbours when it had none and the
    neighbours, as given, carry the same non-empty speaker.  Earlier fills of
    the same sweep never feed a later one. *)
Theorem fillSpeakerGaps_by_rule (segments : list TranscriptSegment) :
  List.length (fillSpeakerGaps segments) = List.length segments
  /\ forall i,
       nth_error (fillSpeakerGaps segments) i
       = option_map (gapFilled segments i) (nth_error segments i).
Proof.
  split; [apply fillSpeakerGaps_length | apply fillSpeakerGaps_nth].
Qed.

Lemma gapFilled_other_fields (segments : list TranscriptSegment) (i : nat)
    (s : TranscriptSegment) :
  withSpeakerName None (gapFilled segments i s) = withSpeakerName None s.
Proof.
  unfold gapFilled. destruct (truthyName (speaker_name s)); [reflexivity|].
  cbv zeta. destruct (_ && _); reflexivity.
Qed.

Lemma fillSpeakerGaps_blank (segments : list TranscriptSegment) :
  map (withSpeakerName None) (fillSpeakerGaps segments)
  = map (withSpeakerName None) segments.
Proof.
  apply nth_error_ext. intros i.
  rewrite !nth_error_map, fillSpeakerGaps_nth.
  destruct (nth_error segments i) as [s|]; [|reflexivity].
  cbn [option_map]. rewrite gapFilled_other_fields. reflexivity.
Qed.

(** [fillSpeakerGaps] assigns nothing but [speaker_name]: with the speakers
    blanked, its output is its input; and a segment that has a non-empty
    speaker keeps it. *)
Theorem fillSpeakerGaps_only_speakers (segments : list TranscriptSegment) :
  map (withSpeakerName None) (fillSpeakerGaps segments)
  = map (withSpeakerName None) segments
  /\ forall i s name,
       nth_error segments i = Some s ->
       speaker_name s = Some name -> name <> EmptyString ->
       nth_error (fillSpeakerGaps segments) i = Some s.
Proof.
  split.
  - apply fillSpeakerGaps_blank.
  - intros i s name Hs Hname Hne.
    rewrite fillSpeakerGaps_nth, Hs. cbn [option_map].
    rewrite gapFilled_truthy; [reflexivity|].
    rewrite Hname. apply truthy_iff. exact Hne.
Qed.

(** A second gap-fill pass finds nothing left to fill. *)
Theorem fillSpeakerGaps_idempotent (segments : list TranscriptSegment) :
  fillSpeakerGaps (fillSpeakerGaps segments) = fillSpeakerGaps segments.
Proof.
  apply nth_error_ext. intros i.
  rewrite (fillSpeakerGaps_nth (fillSpeakerGaps segments)).
  rewrite fillSpeakerGaps_nth.
  destruct (nth_error segments i) as [s|] eqn:Hs; [|reflexivity].
  cbn [option_map]. f_equal.
  destruct (truthyName (speaker_name s)) eqn:Hfalsy.
  - rewrite (gapFilled_truthy segments i s Hfalsy).
    apply gapFilled_truthy. exact Hfalsy.
  - (* the neighbours of a segment without a speaker are not filled *)
    assert (Hi : truthyName (nameAt segments i) = false)
      by (unfold nameAt; rewrite Hs; exact Hfalsy).
    assert (Hnext : nameAt (fillSpeakerGaps segments) (i + 1)
                    = nameAt segments (i + 1)).
    { unfold nameAt. rewrite fillSpeakerGaps_nth.
      destruct (nth_error segments (i + 1)) as [after|]; [|reflexivity].
      cbn [option_map]. rewrite Nat.add_1_r.
      rewrite gapFilled_keep_prev; [reflexivity | exact Hi]. }
    assert (Hprev : (if (0 <? i)%nat
                     then nameAt (fillSpeakerGaps segments) (i - 1) else None)
                    = (if (0 <? i)%nat then nameAt segments (i - 1) else None)).
    { destruct i as [|j]; [reflexivity|].
      cbn [Nat.ltb Nat.leb Nat.sub]. rewrite Nat.sub_0_r.
      unfold nameAt at 1. rewrite fillSpeakerGaps_nth. unfold nameAt.
      destruct (nth_error segments j) as [before|]; [|reflexivity].
      cbn [option_map]. rewrite gapFilled_keep_next; [reflexivity|].
      rewrite Nat.add_1_r. exact Hi. }
    assert (Hrule : gapFilled segments i s
                    = if truthyName (if (0 <? i)%nat
                                     then nameAt segments (i - 1) else None)
                         && sameName (if (0 <? i)%nat
                                      then nameAt segments (i - 1) else None)
                                     (nameAt segments (i + 1))
                      then withSpeakerName
                             (if (0 <? i)%nat then nameAt segments (i - 1) else None) s
                      else s)
      by (unfold gapFilled; rewrite Hfalsy; reflexivity).
    rewrite Hrule.
    destruct (truthyName (if (0 <? i)%nat then nameAt segments (i - 1) else None)
              && sameName (if (0 <? i)%nat then nameAt segments (i - 1) else None)
                          (nameAt segments (i + 1))) eqn:Hfill.
    + apply gapFilled_truthy. cbn [speaker_name withSpeakerName].
      apply andb_true_iff in Hfill. tauto.
    + unfold gapFilled. rewrite Hfalsy. cbv zeta. rewrite Hprev, Hnext, Hfill.
      reflexivity.
Qed.

(* --------------------------------------------------------------------- *)
(** ** The merge pass and the post-processing as a whole *)
(* --------------------------------------------------------------------- *)

Lemma concat_space_cons (a : string) (rest : list string) :
  String.concat " " (a :: rest)
  = match rest with
    | [] => a
    | _ => (a ++ " " ++ String.concat " " rest)%string
    end.
Proof. destruct rest; reflexivity. Qed.

Lemma string_app_assoc (a b c : string) : ((a ++ b) ++ c = a ++ (b ++ c))%string.
Proof. induction a as [|x a IH]; simpl; [reflexivity | rewrite IH; reflexivity]. Qed.

Lemma mergeFrom_fullText (minDuration : Z) (rest : list TranscriptSegment)
    (current : TranscriptSegment) :
  fullText (mergeFrom minDuration current rest) = fullText (current :: rest).
Proof.
  unfold fullText. revert current.
  induction rest as [|next rest IH]; intros current; [reflexivity|].
  cbn [mergeFrom]. destruct (shouldMerge minDuration current next).
  - rewrite IH. cbn [map transcript_text mergeInto].
    rewrite !concat_space_cons. destruct (map transcript_text rest) as [|t ts].
    + reflexivity.
    + rewrite !string_app_assoc. reflexivity.
  - specialize (IH next).
    destruct (mergeFrom_head minDuration rest next) as (head & tail & Heq & _).
    rewrite Heq in *.
    change (String.concat " " (map transcript_text (current :: head :: tail)))
      with (transcript_text current ++ " "
            ++ String.concat " " (map transcript_text (head :: tail)))%string.
    rewrite IH. reflexivity.
Qed.

(** The merge pass loses and reorders no text: the texts of its output,
    joined by single spaces, are the texts of its input joined the same way. *)
Theorem mergeShortSegments_keeps_text (segments : list TranscriptSegment) :
  fullText (mergeShortSegments segments) = fullText segments.
Proof.
  destruct segments as [|first others]; [reflexivity|].
  unfold mergeShortSegments. rewrite mergeShortSegmentsWith_cons.
  apply mergeFrom_fullText.
Qed.

(** Segments that all last two seconds or more are left as they are. *)
Theorem mergeShortSegments_long_segments (segments : list TranscriptSegment) :
  (forall s, In s segments -> (2 <= duration_seconds s)%Z) ->
  mergeShortSegments segments = segments.
Proof.
  intros Hlong. destruct segments as [|first others]; [reflexivity|].
  unfold mergeShortSegments. rewrite mergeShortSegmentsWith_cons.
  apply mergeFrom_of_settled.
  revert first Hlong. induction others as [|next others IH]; intros first Hlong.
  - exact I.
  - split.
    + unfold shouldMerge.
      assert (Hd : (duration_seconds first <? 2)%Z = false).
      { apply Z.ltb_ge. apply Hlong. left. reflexivity. }
      rewrite Hd, andb_false_r. reflexivity.
    + apply IH. intros s Hs. apply Hlong. right. exact Hs.
Qed.

Lemma mergeShortSegments_long_segments_witness :
  mergeShortSegments [Samples.segment (Some "A") Null 0 2 "een";
                      Samples.segment (Some "A") Null 2 3 "twee"]
  = [Samples.segment (Some "A") Null 0 2 "een";
     Samples.segment (Some "A") Null 2 3 "twee"].
Proof.
  apply mergeShortSegments_long_segments.
  intros s [<- | [<- | []]]; simpl; lia.
Defined.

(** Adjacent pairs in order, read by index, make a sorted list. *)
Lemma adjacent_sorted (l : list Z) :
  (forall i a b, nth_error l i = Some a -> nth_error l (S i) = Some b -> (a <= b)%Z)
  <-> StronglySorted Z.le l.
Proof.
  split.
  - intros Hadj. apply Sorted_StronglySorted; [intros x y z; apply Z.le_trans|].
    induction l as [|x l IH]; [constructor|].
    constructor.
    + apply IH. intros i a b Ha Hb. apply (Hadj (S i) a b); assumption.
    + destruct l as [|y l]; constructor.
      apply (Hadj 0%nat x y); reflexivity.
  - intros Hsorted. apply StronglySorted_Sorted in Hsorted.
    induction Hsorted as [|x l Hl IH Hhd]; intros i a b Ha Hb.
    + destruct i; discriminate.
    + destruct i as [|i].
      * cbn in Ha, Hb. inversion Ha. subst a.
        destruct l as [|y l]; [discriminate|].
        cbn in Hb. inversion Hb. subst b. inversion Hhd. assumption.
      * apply (IH i a b); assumption.
Qed.

(** The result is valid exactly for a non-empty sequence whose
    [video_seconds] are in non-decreasing order. *)
Lemma valid_sorted (segments : list TranscriptSegment) :
  valid (validateAlignment segments) = true
  <-> segments <> [] /\ StronglySorted Z.le (map video_seconds segments).
Proof.
  destruct segments as [|first others].
  - simpl. split; [discriminate | intros [Hne _]; congruence].
  - rewrite validateAlignment_nonempty_valid, Nat.eqb_eq, length_zero_iff_nil,
      timing_errors_nil, <- adjacent_sorted.
    split.
    + intros [_ Hall]. split; [discriminate|].
      intros i a b Ha Hb. rewrite nth_error_map in Ha, Hb.
      destruct (nth_error (first :: others) i) as [sa|] eqn:Hsa; [|discriminate].
      destruct (nth_error (first :: others) (S i)) as [sb|] eqn:Hsb; [|discriminate].
      cbn [option_map] in Ha, Hb. inversion Ha. inversion Hb. subst a b.
      assert (Hi : (S i < List.length (first :: others))%nat)
        by (apply nth_error_Some; congruence).
      apply (Hall i sa sb); [apply in_seq; simpl in Hi; lia | exact Hsa|].
      rewrite Nat.add_1_r. exact Hsb.
    + intros [_ Hadj]. split; [reflexivity|].
      intros i a b _ Ha Hb. rewrite Nat.add_1_r in Hb.
      apply (Hadj i); rewrite nth_error_map; [rewrite Ha | rewrite Hb]; reflexivity.
Qed.

Lemma mergeFrom_starts (minDuration : Z) (P : Z -> Prop)
    (rest : list TranscriptSegment) (current : TranscriptSegment) :
  Forall P (map video_seconds (current :: rest)) ->
  Forall P (map video_seconds (mergeFrom minDuration current rest)).
Proof.
  revert current. induction rest as [|next rest IH]; intros current Hall;
    [exact Hall|].
  cbn [mergeFrom]. cbn [map] in Hall.
  inversion Hall as [|x l Hc Hrest]. subst. inversion Hrest as [|y l' Hn Hrest']. subst.
  destruct (shouldMerge minDuration current next).
  - apply IH. cbn [map video_seconds mergeInto]. constructor; assumption.
  - cbn [map]. constructor; [exact Hc|]. apply IH. exact Hrest.
Qed.

Lemma mergeFrom_sorted (minDuration : Z) (rest : list TranscriptSegment)
    (current : TranscriptSegment) :
  StronglySorted Z.le (map video_seconds (current :: rest)) ->
  StronglySorted Z.le (map video_seconds (mergeFrom minDuration current rest)).
Proof.
  revert current. induction rest as [|next rest IH]; intros current Hsorted;
    [exact Hsorted|].
  cbn [mergeFrom]. cbn [map] in Hsorted.
  inversion Hsorted as [|x l Hrest Hc]. subst.
  inversion Hrest as [|y l' Hrest' Hn]. subst.
  inversion Hc as [|y l' Hcn Hcrest]. subst.
  destruct (shouldMerge minDuration current next).
  - apply IH. cbn [map video_seconds mergeInto]. constructor; assumption.
  - cbn [map]. constructor; [apply IH; exact Hrest|].
    apply mergeFrom_starts. exact Hc.
Qed.

Lemma video_seconds_blank (segments : list TranscriptSegment) :
  map video_seconds (map (withSpeakerName None) segments) = map video_seconds segments.
Proof. rewrite map_map. reflexivity. Qed.

(** Post-processing keeps a valid alignment valid: neither pass empties the
    sequence or puts a segment before one that starts earlier. *)
Theorem postProcessSegments_keeps_valid (segments : list TranscriptSegment) :
  valid (validateAlignment segments) = true ->
  valid (validateAlignment (postProcessSegments segments)) = true.
Proof.
  rewrite !valid_sorted. intros [Hne Hsorted].
  unfold postProcessSegments, mergeShortSegments.
  assert (Hfill : map video_seconds (fillSpeakerGaps segments)
                  = map video_seconds segments).
  { rewrite <- (video_seconds_blank (fillSpeakerGaps segments)),
      fillSpeakerGaps_blank.
    apply video_seconds_blank. }
  destruct (fillSpeakerGaps segments) as [|first others] eqn:Hfilled.
  - destruct segments; [congruence | discriminate Hfill].
  - rewrite mergeShortSegmentsWith_cons. split.
    + destruct (mergeFrom_head 2 others first) as (head & tail & Heq & _).
      rewrite Heq. discriminate.
    + apply mergeFrom_sorted. rewrite Hfill. exact Hsorted.
Qed.

Lemma postProcessSegments_keeps_valid_witness :
  valid (validateAlignment
           (postProcessSegments
              [Samples.byA 0; Samples.byNobody 1; Samples.byA 2; Samples.byA 9]))
  = true.
Proof.
  apply postProcessSegments_keeps_valid. reflexivity.
Defined.

Lemma word_count_sum (segments : list TranscriptSegment) :
  fold_left (fun sum segment => (sum + word_count segment)%Z) segments 0%Z
  = totalWords segments.
Proof.
  assert (Hgen : forall acc,
             fold_left (fun sum segment => (sum + word_count segment)%Z) segments acc
             = (acc + totalWords segments)%Z).
  { induction segments as [|s segments IH]; intros acc; simpl; [lia|].
    rewrite IH. lia. }
  rewrite Hgen. lia.
Qed.

Lemma totalWords_blank (segments : list TranscriptSegment) :
  totalWords (map (withSpeakerName None) segments) = totalWords segments.
Proof.
  induction segments as [|s segments IH]; [reflexivity|].
  cbn [map totalWords fold_right word_count withSpeakerName].
  unfold totalWords in IH. rewrite IH. reflexivity.
Qed.

Lemma postProcessSegments_totals (segments : list TranscriptSegment) :
  totalWords (postProcessSegments segments) = totalWords segments
  /\ (List.length (postProcessSegments segments) <= List.length segments)%nat.
Proof.
  assert (Hwords : totalWords (fillSpeakerGaps segments) = totalWords segments).
  { rewrite <- (totalWords_blank (fillSpeakerGaps segments)), fillSpeakerGaps_blank.
    apply totalWords_blank. }
  pose proof (fillSpeakerGaps_length segments) as Hlen.
  unfold postProcessSegments, mergeShortSegments.
  destruct (fillSpeakerGaps segments) as [|first others].
  - simpl in *. split; [exact Hwords | lia].
  - rewrite mergeShortSegmentsWith_cons.
    destruct (mergeFrom_totals 2 others first) as (Hw & _ & Hl).
    rewrite Hw. split; [exact Hwords|]. cbn [List.length] in Hlen. lia.
Qed.

(** Whether [updateVideoMetadataFromSegments] is given the aligned segments
    or the post-processed ones, it writes the same [total_words]; only
    [total_segments] differs, and post-processing never raises it. *)
Theorem postProcessSegments_keeps_total_words (metadata : Builder.VideoMetadata)
    (segments : list TranscriptSegment) :
  exists words before after,
    Builder.updateVideoMetadataFromSegments metadata segments
    = Builder.mkVideoMetadata
        (Builder.title metadata) (Builder.filename metadata) (Builder.date metadata)
        (Builder.duration metadata) (Builder.source metadata)
        (Builder.dataset metadata) (Builder.format metadata) (Builder.place metadata)
        (Builder.record_type metadata) (Some words) (Some before)
        (Builder.description metadata) (Builder.url metadata)
    /\ Builder.updateVideoMetadataFromSegments metadata (postProcessSegments segments)
       = Builder.mkVideoMetadata
           (Builder.title metadata) (Builder.filename metadata) (Builder.date metadata)
           (Builder.duration metadata) (Builder.source metadata)
           (Builder.dataset metadata) (Builder.format metadata) (Builder.place metadata)
           (Builder.record_type metadata) (Some words) (Some after)
           (Builder.description metadata) (Builder.url metadata)
    /\ (after <= before)%Z.
Proof.
  unfold Builder.updateVideoMetadataFromSegments. cbv zeta.
  rewrite !word_count_sum.
  destruct (postProcessSegments_totals segments) as [Hwords Hlen].
  rewrite Hwords.
  exists (totalWords segments), (Z.of_nat (List.length segments)),
    (Z.of_nat (List.length (postProcessSegments segments))).
  repeat split. lia.
Qed.

(* --------------------------------------------------------------------- *)
(** ** Cue lists: filtering by a time range *)
(* --------------------------------------------------------------------- *)

Lemma leb_le (a b : Q) : leb a b = true <-> a <= b.
Proof. unfold leb. apply Qle_bool_iff. Qed.

Lemma gtb_gt (a b : Q) : gtb a b = true <-> b < a.
Proof. exact (ltb_lt b a). Qed.

Lemma leb_gt (a b : Q) : leb a b = false <-> b < a.
Proof.
  unfold leb. rewrite <- (gtb_gt a b). unfold gtb.
  destruct (Qle_bool a b); simpl; split; congruence.
Qed.

(** For a range that does not end before it starts and a cue that ends after
    it starts, [filterCuesByTimeRange] keeps the cue exactly when it overlaps
    the range: it starts before the end of the range and ends after its
    start. *)
Theorem filterCuesByTimeRange_overlap (cues : list VTTCue) (startTime endTime : Q)
    (cue : VTTCue) :
  startTime <= endTime ->
  start cue < end_ cue ->
  In cue (filterCuesByTimeRange cues startTime endTime)
  <-> In cue cues /\ start cue < endTime /\ startTime < end_ cue.
Proof.
  intros Hrange Hcue. unfold filterCuesByTimeRange.
  rewrite filter_In, !orb_true_iff, !andb_true_iff, !geb_le, !ltb_lt, !gtb_gt, leb_le.
  split.
  - intros [Hin [[[Hs He] | [Hs He]] | [Hs He]]]; (split; [exact Hin|]); split.
    + exact He.
    + eapply Qle_lt_trans; [exact Hs | exact Hcue].
    + eapply Qlt_le_trans; [exact Hcue | exact He].
    + exact Hs.
    + eapply Qlt_le_trans; [exact Hs | exact Hrange].
    + eapply Qle_lt_trans; [exact Hrange | exact He].
  - intros (Hin & Hlo & Hhi). split; [exact Hin|].
    destruct (Qlt_le_dec (start cue) startTime) as [Hbefore | Hafter].
    + destruct (Qlt_le_dec endTime (end_ cue)) as [Hlong | Hshort].
      * right. split; assumption.
      * left. right. split; assumption.
    + left. left. split; assumption.
Qed.

Lemma filterCuesByTimeRange_overlap_witness :
  In Samples.damesEnHeren
     (filterCuesByTimeRange [Samples.damesEnHeren; Samples.laterCue] 84 90).
Proof.
  apply (filterCuesByTimeRange_overlap [Samples.damesEnHeren; Samples.laterCue]
           84 90 Samples.damesEnHeren); [discriminate | reflexivity |].
  split; [left; reflexivity | split; reflexivity].
Defined.

(** With a range that ends before it starts the filter still returns the
    cues that reach over both bounds. *)
Example filterCuesByTimeRange_inverted_range :
  filterCuesByTimeRange [mkVTTCue 7 8 "tekst"] 10 5 = [mkVTTCue 7 8 "tekst"].
Proof. reflexivity. Qed.

(* --------------------------------------------------------------------- *)
(** ** Cue lists: merging *)
(* --------------------------------------------------------------------- *)

Lemma insertCue_permutation (cue : VTTCue) (sorted : list VTTCue) :
  Permutation (cue :: sorted) (insertCue cue sorted).
Proof.
  induction sorted as [|other rest IH]; cbn [insertCue].
  - apply Permutation_refl.
  - destruct (ltb (start cue) (start other)).
    + apply Permutation_refl.
    + eapply Permutation_trans; [apply perm_swap|].
      apply perm_skip. exact IH.
Qed.

Lemma insertCue_sorted (cue : VTTCue) (sorted : list VTTCue) :
  StronglySorted (fun a b => start a <= start b) sorted ->
  StronglySorted (fun a b => start a <= start b) (insertCue cue sorted).
Proof.
  induction sorted as [|other rest IH]; intros Hsorted; cbn [insertCue].
  - constructor; constructor.
  - inversion Hsorted as [|o r Hrest Hother]. subst.
    destruct (ltb (start cue) (start other)) eqn:Hcmp.
    + apply ltb_lt in Hcmp. constructor; [exact Hsorted|].
      constructor; [apply Qlt_le_weak; exact Hcmp|].
      eapply Forall_impl; [|exact Hother]. intros x Hx.
      eapply Qle_trans; [apply Qlt_le_weak; exact Hcmp | exact Hx].
    + apply ltb_ge in Hcmp. constructor; [apply IH; exact Hrest|].
      eapply Permutation_Forall; [apply insertCue_permutation|].
      constructor; assumption.
Qed.

Lemma sortCues_sorted (cues : list VTTCue) :
  StronglySorted (fun a b => start a <= start b) (sortCues cues).
Proof.
  unfold sortCues.
  assert (Hgen : forall sorted,
             StronglySorted (fun a b => start a <= start b) sorted ->
             StronglySorted (fun a b => start a <= start b)
               (fold_left (fun sorted cue => insertCue cue sorted) cues sorted)).
  { induction cues as [|cue cues IH]; intros sorted Hsorted; [exact Hsorted|].
    apply IH, insertCue_sorted, Hsorted. }
  apply Hgen. constructor.
Qed.

(** A cue that starts no earlier than the cues of a list is put after them. *)
Lemma insertCue_last (cue : VTTCue) (sorted : list VTTCue) :
  Forall (fun other => start other <= start cue) sorted ->
  insertCue cue sorted = sorted ++ [cue].
Proof.
  induction sorted as [|other rest IH]; intros Hall; [reflexivity|].
  inversion Hall as [|o r Hother Hrest]. subst. cbn [insertCue].
  rewrite (proj2 (ltb_ge (start cue) (start other)) Hother).
  rewrite (IH Hrest). reflexivity.
Qed.

Lemma sortCues_of_sorted (cues : list VTTCue) :
  StronglySorted (fun a b => start a <= start b) cues -> sortCues cues = cues.
Proof.
  unfold sortCues.
  assert (Hgen : forall sorted,
             Forall (fun a => Forall (fun b => start a <= start b) cues) sorted ->
             StronglySorted (fun a b => start a <= start b) cues ->
             fold_left (fun sorted cue => insertCue cue sorted) cues sorted
             = sorted ++ cues).
  { induction cues as [|cue cues IH]; intros sorted Hbefore Hsorted.
    - rewrite app_nil_r. reflexivity.
    - inversion Hsorted as [|c r Hrest Hcue]. subst. cbn [fold_left].
      rewrite insertCue_last.
      + rewrite IH; [rewrite <- app_assoc; reflexivity | | exact Hrest].
        apply Forall_app. split.
        * eapply Forall_impl; [|exact Hbefore].
          intros a Ha. inversion Ha. assumption.
        * constructor; [exact Hcue | constructor].
      + eapply Forall_impl; [|exact Hbefore].
        intros a Ha. inversion Ha. assumption. }
  intros Hsorted. rewrite (Hgen [] (Forall_nil _) Hsorted). reflexivity.
Qed.

Lemma mergeCues_loop (maxGap : Q) (rest merged : list VTTCue) (current : VTTCue) :
  (let (merged', current') :=
     fold_left (mergeCuesStep maxGap) rest (merged, current) in
   merged' ++ [current'])
  = merged ++ mergeCuesFrom maxGap current rest.
Proof.
  revert merged current.
  induction rest as [|next rest IH]; intros merged current; [reflexivity|].
  cbn [fold_left mergeCuesStep mergeCuesFrom].
  destruct (leb (start next) (end_ current + maxGap)).
  - apply IH.
  - rewrite IH, <- app_assoc. reflexivity.
Qed.

Lemma mergeCuesFrom_head (maxGap : Q) (rest : list VTTCue) (current : VTTCue) :
  exists head tail,
    mergeCuesFrom maxGap current rest = head :: tail /\ start head = start current.
Proof.
  revert current. induction rest as [|next rest IH]; intros current; cbn [mergeCuesFrom].
  - exists current, []. auto.
  - destruct (leb (start next) (end_ current + maxGap)).
    + destruct (IH (absorbCue current next)) as (head & tail & Heq & Hs).
      exists head, tail. auto.
    + exists current, (mergeCuesFrom maxGap next rest). auto.
Qed.

Lemma mergeCuesFrom_separated (maxGap : Q) (rest : list VTTCue) (current : VTTCue) :
  separated maxGap (mergeCuesFrom maxGap current rest).
Proof.
  revert current. induction rest as [|next rest IH]; intros current; cbn [mergeCuesFrom].
  - exact I.
  - destruct (leb (start next) (end_ current + maxGap)) eqn:Hgap.
    + apply IH.
    + destruct (mergeCuesFrom_head maxGap rest next) as (head & tail & Heq & Hs).
      specialize (IH next). rewrite Heq in *. split; [|exact IH].
      rewrite Hs. apply leb_gt. exact Hgap.
Qed.

Lemma mergeCuesFrom_of_separated (maxGap : Q) (rest : list VTTCue) (current : VTTCue) :
  separated maxGap (current :: rest) ->
  mergeCuesFrom maxGap current rest = current :: rest.
Proof.
  revert current. induction rest as [|next rest IH]; intros current Hsep;
    [reflexivity|].
  destruct Hsep as [Hgap Hrest]. cbn [mergeCuesFrom].
  rewrite (proj2 (leb_gt _ _) Hgap). f_equal. apply IH. exact Hrest.
Qed.

Lemma mergeCuesFrom_starts (maxGap : Q) (P : Q -> Prop) (rest : list VTTCue)
    (current : VTTCue) :
  Forall (fun cue => P (start cue)) (current :: rest) ->
  Forall (fun cue => P (start cue)) (mergeCuesFrom maxGap current rest).
Proof.
  revert current. induction rest as [|next rest IH]; intros current Hall;
    [exact Hall|].
  inversion Hall as [|x l Hc Hrest]. subst. inversion Hrest as [|y l' Hn Hrest']. subst.
  cbn [mergeCuesFrom]. destruct (leb (start next) (end_ current + maxGap)).
  - apply IH. constructor; assumption.
  - constructor; [exact Hc|]. apply IH. exact Hrest.
Qed.

Lemma mergeCuesFrom_sorted (maxGap : Q) (rest : list VTTCue) (current : VTTCue) :
  StronglySorted (fun a b => start a <= start b) (current :: rest) ->
  StronglySorted (fun a b => start a <= start b) (mergeCuesFrom maxGap current rest).
Proof.
  revert current. induction rest as [|next rest IH]; intros current Hsorted;
    [exact Hsorted|].
  inversion Hsorted as [|x l Hrest Hc]. subst.
  inversion Hrest as [|y l' Hrest' Hn]. subst.
  inversion Hc as [|y l' Hcn Hcrest]. subst.
  cbn [mergeCuesFrom]. destruct (leb (start next) (end_ current + maxGap)).
  - apply IH. constructor; assumption.
  - constructor; [apply IH; exact Hrest|].
    apply (mergeCuesFrom_starts maxGap (fun s => start current <= s)). exact Hc.
Qed.

Lemma mergeCues_sorted_input (maxGap : Q) (first : VTTCue) (others : list VTTCue) :
  sortCues (first :: others) <> []
  /\ forall head tail,
       sortCues (first :: others) = head :: tail ->
       mergeCues (first :: others) maxGap = mergeCuesFrom maxGap head tail.
Proof.
  split.
  - intros Hnil.
    assert (Hperm : Permutation (first :: others) (sortCues (first :: others))).
    { unfold sortCues.
      assert (Hgen : forall cues sorted,
                 Permutation (cues ++ sorted)
                   (fold_left (fun sorted cue => insertCue cue sorted) cues sorted)).
      { induction cues as [|cue cues IH]; intros sorted; [apply Permutation_refl|].
        cbn [fold_left app].
        eapply Permutation_trans; [|apply IH].
        eapply Permutation_trans; [apply Permutation_middle|].
        apply Permutation_app_head. apply insertCue_permutation. }
      specialize (Hgen (first :: others) []). rewrite app_nil_r in Hgen. exact Hgen. }
    rewrite Hnil in Hperm. apply Permutation_sym, Permutation_nil in Hperm.
    discriminate.
  - intros head tail Heq. unfold mergeCues. rewrite Heq.
    exact (mergeCues_loop maxGap tail [] head).
Qed.

(** The cues that [mergeCues] returns are in ascending order of start, and
    each starts more than the gap after the end of the one before it; the
    result is empty only for an empty list. *)
Theorem mergeCues_separated_sorted (cues : list VTTCue) (maxGapSeconds : Q) :
  separated maxGapSeconds (mergeCues cues maxGapSeconds)
  /\ StronglySorted (fun a b => start a <= start b) (mergeCues cues maxGapSeconds)
  /\ (mergeCues cues maxGapSeconds = [] <-> cues = []).
Proof.
  destruct cues as [|first others].
  - repeat split; constructor.
  - destruct (mergeCues_sorted_input maxGapSeconds first others) as [Hne Hmerge].
    pose proof (sortCues_sorted (first :: others)) as Hsorted.
    destruct (sortCues (first :: others)) as [|head tail]; [congruence|].
    rewrite (Hmerge head tail eq_refl).
    split; [apply mergeCuesFrom_separated|].
    split; [apply mergeCuesFrom_sorted; exact Hsorted|].
    destruct (mergeCuesFrom_head maxGapSeconds tail head) as (h & t & Heq & _).
    rewrite Heq. split; discriminate.
Qed.

(** Merging the merged cues again changes nothing. *)
Theorem mergeCues_idempotent (cues : list VTTCue) (maxGapSeconds : Q) :
  mergeCues (mergeCues cues maxGapSeconds) maxGapSeconds
  = mergeCues cues maxGapSeconds.
Proof.
  destruct cues as [|first others]; [reflexivity|].
  destruct (mergeCues_sorted_input maxGapSeconds first others) as [Hne Hmerge].
  pose proof (sortCues_sorted (first :: others)) as Hsorted.
  destruct (sortCues (first :: others)) as [|head tail]; [congruence|].
  rewrite (Hmerge head tail eq_refl).
  pose proof (mergeCuesFrom_separated maxGapSeconds tail head) as Hsep.
  pose proof (mergeCuesFrom_sorted maxGapSeconds tail head Hsorted) as Hout.
  destruct (mergeCuesFrom maxGapSeconds head tail) as [|h t]; [reflexivity|].
  destruct (mergeCues_sorted_input maxGapSeconds h t) as [_ Hagain].
  rewrite (Hagain h t (sortCues_of_sorted (h :: t) Hout)).
  apply mergeCuesFrom_of_separated. exact Hsep.
Qed.

(** Two cues a quarter of a second apart become one cue that ends where the
    later of the two ends. *)
Example mergeCues_scenario :
  mergeCues [mkVTTCue 3 4 "heren"; mkVTTCue 0 (275 # 100) "Dames en"]
            defaultMaxGapSeconds
  = [mkVTTCue 0 4 "Dames en heren"].
Proof. reflexivity. Qed.

(* --------------------------------------------------------------------- *)
(** ** The warnings of the validation *)
(* --------------------------------------------------------------------- *)

(** A rate read as a comparison of counts. *)
Lemma alignmentRate_below (total unaligned : nat) (num : Z) (den : positive) :
  (0 < total)%nat -> (unaligned <= total)%nat ->
  ltb (alignmentRate total unaligned) (num # den) = true
  <-> (Z.pos den * (Z.of_nat total - Z.of_nat unaligned) < num * Z.of_nat total)%Z.
Proof.
  intros Htotal Hun. rewrite ltb_lt. unfold alignmentRate.
  destruct total as [|n]; [lia|].
  unfold Qlt, Qdiv, Qmult, Qinv, inject_Z. cbn [Qnum Qden Z.of_nat].
  cbn [Qnum Qden]. rewrite Pos.mul_1_l, Z.mul_1_r. cbn [Z.of_nat] in *.
  rewrite (Z.mul_comm (Z.pos den)). reflexivity.
Qed.

Lemma validateAlignment_nonempty_warnings (first : TranscriptSegment)
    (others : list TranscriptSegment) :
  let segments := first :: others in
  let total := List.length segments in
  let speakerRate :=
    alignmentRate total
      (List.length (filter (fun s => isNullName (speaker_name s)) segments)) in
  let agendaRate :=
    alignmentRate total
      (List.length (filter (fun s => isNullOptional (agenda_item s)) segments)) in
  warnings (validateAlignment segments)
  = (if ltb speakerRate (1 # 2)
     then [("Low speaker alignment rate: " ++ percent speakerRate)%string] else [])
    ++ (if ltb agendaRate (3 # 10)
        then [("Low agenda item alignment rate: " ++ percent agendaRate)%string]
        else []).
Proof.
  intros segments total speakerRate agendaRate.
  unfold validateAlignment, validateAlignmentM, bind, getLength, getSegments.
  fold segments. fold total.
  replace (total =? 0)%nat with false by reflexivity.
  fold speakerRate. fold agendaRate.
  destruct (foldLoop (seq 0 (total - 1)) checkTimingAt [] segments) as [errs st'].
  cbn [ret fst warnings].
  destruct (ltb speakerRate (1 # 2)); destruct (ltb agendaRate (3 # 10)); reflexivity.
Qed.

(** The percentage printed in a warning is an integer nearest to a hundred
    times the rate. *)
Lemma percent_nearest (total unaligned : nat) :
  (0 < total)%nat ->
  (2 * Z.abs (round (alignmentRate total unaligned * 100) * Z.of_nat total
              - 100 * (Z.of_nat total - Z.of_nat unaligned))
   <= Z.of_nat total)%Z.
Proof.
  intros Htotal. unfold alignmentRate, round.
  set (k := (Z.of_nat total - Z.of_nat unaligned)%Z).
  destruct (Z.of_nat total) as [|n|n] eqn:Hn; try lia.
  assert (Hy : inject_Z k / inject_Z (Z.pos n) * 100 + (1 # 2)
               == (200 * k + Z.pos n) # (2 * n)).
  { unfold Qeq, Qplus, Qdiv, Qinv, inject_Z. cbn [Qnum Qden Qmult].
    rewrite !Pos2Z.inj_mul. ring. }
  rewrite (Qfloor_comp _ _ Hy). cbn [Qfloor].
  rewrite Pos2Z.inj_mul.
  pose proof (Z.div_mod (200 * k + Z.pos n) (2 * Z.pos n) ltac:(lia)) as Hdm.
  pose proof (Z.mod_pos_bound (200 * k + Z.pos n) (2 * Z.pos n) ltac:(lia)) as Hb.
  set (q := ((200 * k + Z.pos n) / (2 * Z.pos n))%Z) in *.
  set (r := ((200 * k + Z.pos n) mod (2 * Z.pos n))%Z) in *.
  lia.
Qed.

(** On a non-empty sequence the warnings are the speaker warning, given
    exactly when fewer than half of the segments have a speaker that is not
    [null], followed by the agenda warning, given exactly when fewer than
    three in ten have an agenda item that is not [null]; there is no other
    warning.  Each warning is its own message, and the percentage it prints is
    an integer nearest to a hundred times the share of such segments. *)
Theorem validateAlignment_warning_thresholds (first : TranscriptSegment)
    (others : list TranscriptSegment) :
  let segments := first :: others in
  let total := Z.of_nat (List.length segments) in
  let withSpeaker :=
    Z.of_nat (List.length
                (filter (fun s => negb (isNullName (speaker_name s))) segments)) in
  let withAgenda :=
    Z.of_nat (List.length
                (filter (fun s => negb (isNullOptional (agenda_item s))) segments)) in
  exists speakerPercent agendaPercent : Z,
    (2 * Z.abs (speakerPercent * total - 100 * withSpeaker) <= total)%Z
    /\ (2 * Z.abs (agendaPercent * total - 100 * withAgenda) <= total)%Z
    /\ warnings (validateAlignment segments)
       = (if (2 * withSpeaker <? total)%Z
          then [("Low speaker alignment rate: "
                 ++ toString speakerPercent ++ "%")%string]
          else [])
         ++ (if (10 * withAgenda <? 3 * total)%Z
             then [("Low agenda item alignment rate: "
                    ++ toString agendaPercent ++ "%")%string]
             else []).
Proof.
  intros segments total withSpeaker withAgenda.
  pose proof (validateAlignment_nonempty_warnings first others) as Hw.
  cbv zeta in Hw. fold segments in Hw.
  pose proof (filter_length (fun s => isNullName (speaker_name s)) segments) as Hs.
  pose proof (filter_length (fun s => isNullOptional (agenda_item s)) segments) as Ha.
  assert (Hpos : (0 < List.length segments)%nat) by (simpl; lia).
  set (noSpeaker :=
         List.length (filter (fun s => isNullName (speaker_name s)) segments)) in *.
  set (noAgenda :=
         List.length (filter (fun s => isNullOptional (agenda_item s)) segments)) in *.
  pose proof (alignmentRate_below (List.length segments) noSpeaker
                1 2 Hpos (filter_length_le _ _)) as Hsr.
  pose proof (alignmentRate_below (List.length segments) noAgenda
                3 10 Hpos (filter_length_le _ _)) as Har.
  pose proof (percent_nearest (List.length segments) noSpeaker Hpos) as Hsp.
  pose proof (percent_nearest (List.length segments) noAgenda Hpos) as Hap.
  assert (HwithS : withSpeaker
                   = (Z.of_nat (List.length segments) - Z.of_nat noSpeaker)%Z)
    by (unfold withSpeaker; lia).
  assert (HwithA : withAgenda
                   = (Z.of_nat (List.length segments) - Z.of_nat noAgenda)%Z)
    by (unfold withAgenda; lia).
  exists (round (alignmentRate (List.length segments) noSpeaker * 100)).
  exists (round (alignmentRate (List.length segments) noAgenda * 100)).
  fold total in Hsr, Har, Hsp, Hap, HwithS, HwithA.
  rewrite <- HwithS in Hsr, Hsp. rewrite <- HwithA in Har, Hap.
  split; [exact Hsp|]. split; [exact Hap|].
  rewrite Hw. unfold percent. f_equal.
  - destruct (ltb (alignmentRate (List.length segments) noSpeaker) (1 # 2)) eqn:Hlt.
    + replace (2 * withSpeaker <? total)%Z with true; [reflexivity|].
      symmetry. apply Z.ltb_lt.
      pose proof (proj1 Hsr eq_refl) as Hbelow. lia.
    + replace (2 * withSpeaker <? total)%Z with false; [reflexivity|].
      symmetry. apply Z.ltb_ge.
      destruct (Z.lt_ge_cases (2 * withSpeaker) (total)) as [Hl|Hg]; [|exact Hg].
      assert (Htrue : false = true) by (apply Hsr; lia).
      discriminate Htrue.
  - destruct (ltb (alignmentRate (List.length segments) noAgenda) (3 # 10)) eqn:Hlt.
    + replace (10 * withAgenda <? 3 * total)%Z with true; [reflexivity|].
      symmetry. apply Z.ltb_lt.
      pose proof (proj1 Har eq_refl) as Hbelow. lia.
    + replace (10 * withAgenda <? 3 * total)%Z with false; [reflexivity|].
      symmetry. apply Z.ltb_ge.
      destruct (Z.lt_ge_cases (10 * withAgenda) (3 * total)) as [Hl|Hg]; [|exact Hg].
      assert (Htrue : false = true) by (apply Har; lia).
      discriminate Htrue.
Qed.

(* --------------------------------------------------------------------- *)
(** ** Caption timestamps *)
(* --------------------------------------------------------------------- *)

Lemma takeDigits_inv (s digits rest : string) :
  takeDigits s = (digits, rest) ->
  s = (digits ++ rest)%string /\ allDigits digits = true.
Proof.
  revert digits rest. induction s as [|c s IH]; intros digits rest Htake.
  - inversion Htake. split; reflexivity.
  - cbn [takeDigits] in Htake. destruct (isDigit c) eqn:Hc.
    + destruct (takeDigits s) as [ds r]. inversion Htake. subst.
      destruct (IH ds rest eq_refl) as [-> Hd].
      split; [reflexivity|]. simpl. rewrite Hc. exact Hd.
    + inversion Htake. split; reflexivity.
Qed.

Lemma matchPieces_digits_inv (lo : nat) (hi : option nat) (pieces : list piece)
    (s : string) (groups : list string) :
  matchPieces (Digits lo hi :: pieces) s = Some groups ->
  exists digits rest groups',
    s = (digits ++ rest)%string /\ allDigits digits = true
    /\ (lo <= String.length digits)%nat
    /\ groups = digits :: groups'
    /\ matchPieces pieces rest = Some groups'.
Proof.
  cbn [matchPieces]. destruct (takeDigits s) as [digits rest] eqn:Htake.
  destruct ((lo <=? String.length digits)%nat && _) eqn:Hbounds; [|discriminate].
  destruct (matchPieces pieces rest) as [groups'|] eqn:Hrest; [|discriminate].
  intros Heq. inversion Heq. subst groups.
  apply takeDigits_inv in Htake. destruct Htake as [Hs Hd].
  apply andb_true_iff in Hbounds. destruct Hbounds as [Hlo _].
  apply Nat.leb_le in Hlo.
  exists digits, rest, groups'. auto.
Qed.

Lemma matchPieces_literal_inv (c : ascii) (pieces : list piece) (s : string)
    (groups : list string) :
  matchPieces (Literal c :: pieces) s = Some groups ->
  exists rest, s = String c rest /\ matchPieces pieces rest = Some groups.
Proof.
  cbn [matchPieces]. destruct s as [|x rest]; [discriminate|].
  destruct (Ascii.eqb x c) eqn:Hx; [|discriminate].
  apply Ascii.eqb_eq in Hx. subst x. intros Hrest. exists rest. auto.
Qed.

Lemma matchPieces_end_inv (s : string) (groups : list string) :
  matchPieces [] s = Some groups -> s = EmptyString /\ groups = [].
Proof.
  cbn [matchPieces]. destruct s; [|discriminate].
  intros Heq. inversion Heq. auto.
Qed.

Lemma digits_digitField (digits : string) (lo : nat) :
  allDigits digits = true -> (S lo <= String.length digits)%nat ->
  digitField digits = true.
Proof.
  intros Hd Hlen. unfold digitField. rewrite Hd.
  destruct digits; [simpl in Hlen; lia | reflexivity].
Qed.

(** A string that matches the short pattern is minutes, seconds and a
    fraction, each a run of digits. *)
Lemma shortPattern_inv (s : string) (groups : list string) :
  matchPieces shortPattern s = Some groups ->
  exists minutes seconds fraction,
    groups = [minutes; seconds; fraction]
    /\ s = (minutes ++ ":" ++ seconds ++ "." ++ fraction)%string
    /\ digitField minutes = true /\ digitField seconds = true
    /\ digitField fraction = true.
Proof.
  unfold shortPattern. intros H.
  apply matchPieces_digits_inv in H.
  destruct H as (minutes & r1 & g1 & -> & Hm & Lm & -> & H).
  apply matchPieces_literal_inv in H. destruct H as (r2 & -> & H).
  apply matchPieces_digits_inv in H.
  destruct H as (seconds & r3 & g2 & -> & Hs & Ls & -> & H).
  apply matchPieces_literal_inv in H. destruct H as (r4 & -> & H).
  apply matchPieces_digits_inv in H.
  destruct H as (fraction & r5 & g3 & -> & Hf & Lf & -> & H).
  apply matchPieces_end_inv in H. destruct H as [-> ->].
  exists minutes, seconds, fraction.
  repeat split; try (eapply digits_digitField; eassumption).
  assert (Hnil : forall x : string, (x ++ EmptyString)%string = x)
    by (induction x as [|c x IH]; simpl; [|rewrite IH]; reflexivity).
  rewrite Hnil. reflexivity.
Qed.

Lemma longPattern_inv (s : string) (groups : list string) :
  matchPieces longPattern s = Some groups ->
  exists hours minutes seconds fraction,
    groups = [hours; minutes; seconds; fraction]
    /\ s = (hours ++ ":" ++ minutes ++ ":" ++ seconds ++ "." ++ fraction)%string
    /\ digitField hours = true /\ digitField minutes = true
    /\ digitField seconds = true /\ digitField fraction = true.
Proof.
  unfold longPattern. intros H.
  apply matchPieces_digits_inv in H.
  destruct H as (hours & r0 & g0 & -> & Hh & Lh & -> & H).
  apply matchPieces_literal_inv in H. destruct H as (r1 & -> & H).
  apply matchPieces_digits_inv in H.
  destruct H as (minutes & r2 & g1 & -> & Hm & Lm & -> & H).
  apply matchPieces_literal_inv in H. destruct H as (r3 & -> & H).
  apply matchPieces_digits_inv in H.
  destruct H as (seconds & r4 & g2 & -> & Hs & Ls & -> & H).
  apply matchPieces_literal_inv in H. destruct H as (r5 & -> & H).
  apply matchPieces_digits_inv in H.
  destruct H as (fraction & r6 & g3 & -> & Hf & Lf & -> & H).
  apply matchPieces_end_inv in H. destruct H as [-> ->].
  exists hours, minutes, seconds, fraction.
  repeat split; try (eapply digits_digitField; eassumption).
  assert (Hnil : forall x : string, (x ++ EmptyString)%string = x)
    by (induction x as [|c x IH]; simpl; [|rewrite IH]; reflexivity).
  rewrite Hnil. reflexivity.
Qed.

(** [parseVTTTimestamp] extends [vttTimestampToSeconds]: once the first comma
    is made a period, it returns what [vttTimestampToSeconds] returns
    wherever that returns a value. *)
Theorem parseVTTTimestamp_extends (timestamp : string) (v : number) :
  vttTimestampToSeconds (replaceFirst "," "." timestamp) = Returned v ->
  parseVTTTimestamp timestamp = Returned v.
Proof.
  intros Hv. unfold parseVTTTimestamp. cbv zeta.
  destruct (matchPieces hoursPattern (replaceFirst "," "." timestamp));
    [exact Hv|].
  destruct (matchPieces shortPattern (replaceFirst "," "." timestamp))
    as [groups|] eqn:Hshort.
  - exfalso. apply shortPattern_inv in Hshort.
    destruct Hshort as (minutes & seconds & fraction & _ & Hs & Hm & Hsec & Hf).
    destruct (digitField_parts _ Hm) as [_ Hmd].
    destruct (digitField_parts _ Hsec) as [_ Hsd].
    destruct (digitField_parts _ Hf) as [_ Hfd].
    assert (Hthrow : exists message,
               vttTimestampToSeconds (replaceFirst "," "." timestamp) = Threw message).
    { apply vttTimestampToSeconds_throws_iff. rewrite Hs.
      change (minutes ++ ":" ++ seconds ++ "." ++ fraction)%string
        with (minutes ++ String ":" (seconds ++ String "." fraction))%string.
      rewrite (split_digits_then ":" minutes _ eq_refl Hmd),
        (split_colon_fraction seconds fraction Hsd Hfd).
      discriminate. }
    destruct Hthrow as [message Hthrow]. congruence.
  - destruct (matchPieces longPattern (replaceFirst "," "." timestamp))
      as [groups|] eqn:Hlong; [|exact Hv].
    apply longPattern_inv in Hlong.
    destruct Hlong as (hours & minutes & seconds & fraction
                       & -> & Hs & Hh & Hm & Hsec & Hf).
    rewrite Hs, (vttTimestampToSeconds_fields _ _ _ _ Hh Hm Hsec Hf) in Hv.
    rewrite (parseInt_digits _ Hh), (parseInt_digits _ Hm), (parseInt_digits _ Hsec),
      (parseInt_digits _ (allDigits_padEnd 3 fraction Hf)).
    exact Hv.
Qed.

Lemma parseVTTTimestamp_extends_witness :
  exists q, parseVTTTimestamp "0:01:23,850" = Returned (Fin q) /\ q == 83850 # 1000.
Proof.
  eexists. split; [|reflexivity].
  apply (parseVTTTimestamp_extends "0:01:23,850"). reflexivity.
Defined.

Lemma takeDigits_run (digits : string) (c : ascii) (rest : string) :
  allDigits digits = true -> isDigit c = false ->
  takeDigits (digits ++ String c rest) = (digits, String c rest).
Proof.
  intros Hd Hc. induction digits as [|d digits IH]; cbn [append takeDigits].
  - rewrite Hc. reflexivity.
  - simpl in Hd. apply andb_true_iff in Hd. destruct Hd as [Hd Hds].
    rewrite Hd, (IH Hds). reflexivity.
Qed.

Lemma takeDigits_all (digits : string) :
  allDigits digits = true -> takeDigits digits = (digits, EmptyString).
Proof.
  intros Hd. induction digits as [|d digits IH]; cbn [takeDigits]; [reflexivity|].
  simpl in Hd. apply andb_true_iff in Hd. destruct Hd as [Hd Hds].
  rewrite Hd, (IH Hds). reflexivity.
Qed.

Lemma replaceFirst_digits (digits rest : string) :
  allDigits digits = true ->
  replaceFirst "," "." (digits ++ rest) = (digits ++ replaceFirst "," "." rest)%string.
Proof.
  intros Hd. induction digits as [|d digits IH]; cbn [append replaceFirst];
    [reflexivity|].
  simpl in Hd. apply andb_true_iff in Hd. destruct Hd as [Hd Hds].
  destruct (Ascii.eqb d ",") eqn:Hcomma.
  - apply Ascii.eqb_eq in Hcomma. subst d. discriminate.
  - rewrite (IH Hds). reflexivity.
Qed.

Lemma replaceFirst_only_digits (digits : string) :
  allDigits digits = true -> replaceFirst "," "." digits = digits.
Proof.
  intros Hd. induction digits as [|d digits IH]; cbn [replaceFirst]; [reflexivity|].
  simpl in Hd. apply andb_true_iff in Hd. destruct Hd as [Hd Hds].
  destruct (Ascii.eqb d ",") eqn:Hcomma.
  - apply Ascii.eqb_eq in Hcomma. subst d. discriminate.
  - rewrite (IH Hds). reflexivity.
Qed.

(** The time of a caption without hours: minutes of one or two digits, two
    digits of seconds and a fraction of one to three digits after a period or
    a comma are read as [60 MM + SS + mmm / 1000], the fraction padded to
    three digits. *)
Theorem parseVTTTimestamp_short_form (mm ss fraction : string) (separator : ascii) :
  digitField mm = true -> (String.length mm <= 2)%nat ->
  digitField ss = true -> String.length ss = 2%nat ->
  digitField fraction = true -> (String.length fraction <= 3)%nat ->
  separator = "."%char \/ separator = ","%char ->
  exists q,
    parseVTTTimestamp (mm ++ ":" ++ ss ++ String separator fraction)
    = Returned (Fin q)
    /\ q == inject_Z (numeral mm * 60 + numeral ss)
            + inject_Z (numeral (padEnd 3 "0" fraction)) / 1000.
Proof.
  intros Hm Lm Hs Ls Hf Lf Hsep.
  destruct (digitField_parts mm Hm) as [Hmne Hmd].
  destruct (digitField_parts ss Hs) as [Hsne Hsd].
  destruct (digitField_parts fraction Hf) as [Hfne Hfd].
  assert (Hnorm : replaceFirst "," "." (mm ++ ":" ++ ss ++ String separator fraction)
                  = (mm ++ String ":" (ss ++ String "." fraction))%string).
  { change (mm ++ ":" ++ ss ++ String separator fraction)%string
      with (mm ++ String ":" (ss ++ String separator fraction))%string.
    rewrite (replaceFirst_digits mm _ Hmd). cbn [replaceFirst Ascii.eqb Bool.eqb].
    rewrite (replaceFirst_digits ss _ Hsd).
    destruct Hsep as [-> | ->]; cbn [replaceFirst Ascii.eqb Bool.eqb];
      [rewrite (replaceFirst_only_digits fraction Hfd)|]; reflexivity. }
  assert (Hlm : (1 <=? String.length mm)%nat = true).
  { apply Nat.leb_le. destruct mm; [discriminate | simpl; lia]. }
  assert (Hlf : (1 <=? String.length fraction)%nat = true).
  { apply Nat.leb_le. destruct fraction; [discriminate | simpl; lia]. }
  unfold parseVTTTimestamp. cbv zeta. rewrite Hnorm.
  assert (Hhours : matchPieces hoursPattern
                     (mm ++ String ":" (ss ++ String "." fraction)) = None).
  { unfold hoursPattern. cbn [matchPieces].
    rewrite (takeDigits_run mm ":" _ Hmd eq_refl).
    destruct ((1 <=? String.length mm)%nat && (String.length mm <=? 1)%nat);
      [|reflexivity].
    cbn [Ascii.eqb Bool.eqb]. rewrite (takeDigits_run ss "." _ Hsd eq_refl).
    rewrite Ls. reflexivity. }
  assert (Hshort : matchPieces shortPattern
                     (mm ++ String ":" (ss ++ String "." fraction))
                   = Some [mm; ss; fraction]).
  { unfold shortPattern. cbn [matchPieces].
    rewrite (takeDigits_run mm ":" _ Hmd eq_refl), Hlm.
    rewrite (proj2 (Nat.leb_le _ _) Lm). cbn [andb Ascii.eqb Bool.eqb].
    rewrite (takeDigits_run ss "." _ Hsd eq_refl), Ls.
    change (2 <=? 2)%nat with true. cbn [andb Ascii.eqb Bool.eqb].
    rewrite (takeDigits_all fraction Hfd), Hlf.
    rewrite (proj2 (Nat.leb_le _ _) Lf). reflexivity. }
  rewrite Hhours, Hshort.
  rewrite (parseInt_digits mm Hm), (parseInt_digits ss Hs),
    (parseInt_digits _ (allDigits_padEnd 3 fraction Hf)).
  eexists. split; [reflexivity|].
  rewrite inject_Z_plus, inject_Z_mult. reflexivity.
Qed.

Lemma parseVTTTimestamp_short_form_witness :
  exists q, parseVTTTimestamp "01:23,85" = Returned (Fin q) /\ q == 8385 # 100.
Proof.
  destruct (parseVTTTimestamp_short_form "01" "23" "85" ","
              eq_refl ltac:(simpl; lia) eq_refl eq_refl eq_refl ltac:(simpl; lia)
              (or_intror eq_refl)) as (q & Hq & Hv).
  exists q. split; [exact Hq|]. rewrite Hv. reflexivity.
Defined.

(** A fraction of more than three digits is read as that many milliseconds:
    [0:01:23.8505] is read as 91.505 seconds. *)
Example parseVTTTimestamp_long_fraction :
  exists q, parseVTTTimestamp "0:01:23.8505" = Returned (Fin q) /\ q == 91505 # 1000.
Proof. eexists. split; reflexivity. Qed.

(* --------------------------------------------------------------------- *)
(** ** Speaker lines *)
(* --------------------------------------------------------------------- *)

Lemma digitValue_nonneg (c : ascii) : isDigit c = true -> (0 <= digitValue c)%Z.
Proof.
  unfold isDigit, digitValue. intros Hc. apply andb_true_iff in Hc.
  destruct Hc as [Hlo _]. apply Nat.leb_le in Hlo. lia.
Qed.

Lemma numeral_nonneg (s : string) : allDigits s = true -> (0 <= numeral s)%Z.
Proof.
  unfold numeral.
  assert (Hgen : forall acc, (0 <= acc)%Z -> allDigits s = true ->
                 (0 <= fold_left (fun a c => (10 * a + digitValue c)%Z)
                                 (list_ascii_of_string s) acc)%Z).
  { induction s as [|c s IH]; intros acc Hacc Hd; [exact Hacc|].
    simpl in Hd. apply andb_true_iff in Hd. destruct Hd as [Hc Hd].
    cbn [list_ascii_of_string fold_left]. apply IH; [|exact Hd].
    pose proof (digitValue_nonneg c Hc). lia. }
  apply Hgen. lia.
Qed.

(** What [takeTime] takes is two or three runs of digits between colons. *)
Lemma takeTime_inv (s time rest : string) :
  SpeakerLines.takeTime s = Some (time, rest) ->
  exists hh mm,
    digitField hh = true /\ digitField mm = true
    /\ (time = (hh ++ ":" ++ mm)%string
        \/ exists ss, digitField ss = true
                      /\ time = (hh ++ ":" ++ mm ++ ":" ++ ss)%string).
Proof.
  unfold SpeakerLines.takeTime.
  destruct s as [|d1 r1]; [discriminate|].
  destruct (isDigit d1) eqn:Hd1; [|discriminate].
  assert (Hhours : forall hours r2,
             digitField hours = true ->
             match r2 with
             | String c1 (String m1 (String m2 r3)) =>
                 if Ascii.eqb c1 ":" && isDigit m1 && isDigit m2 then
                   let minutes :=
                     (hours ++ ":" ++ String m1 (String m2 EmptyString))%string in
                   match r3 with
                   | String c2 (String s1 (String s2 r4)) =>
                       if Ascii.eqb c2 ":" && isDigit s1 && isDigit s2
                       then Some ((minutes ++ ":"
                                   ++ String s1 (String s2 EmptyString))%string, r4)
                       else Some (minutes, r3)
                   | _ => Some (minutes, r3)
                   end
                 else None
             | _ => None
             end = Some (time, rest) ->
             exists hh mm,
               digitField hh = true /\ digitField mm = true
               /\ (time = (hh ++ ":" ++ mm)%string
                   \/ exists ss, digitField ss = true
                                 /\ time = (hh ++ ":" ++ mm ++ ":" ++ ss)%string)).
  { intros hours r2 Hh Htake.
    destruct r2 as [|c1 [|m1 [|m2 r3]]]; try discriminate.
    destruct (Ascii.eqb c1 ":" && isDigit m1 && isDigit m2) eqn:Hm; [|discriminate].
    apply andb_true_iff in Hm. destruct Hm as [Hm Hm2].
    apply andb_true_iff in Hm. destruct Hm as [_ Hm1].
    assert (Hmm : digitField (String m1 (String m2 EmptyString)) = true)
      by (unfold digitField; simpl; rewrite Hm1, Hm2; reflexivity).
    cbv zeta in Htake.
    exists hours, (String m1 (String m2 EmptyString)).
    split; [exact Hh|]. split; [exact Hmm|].
    assert (Hshort : Some ((hours ++ ":" ++ String m1 (String m2 EmptyString))%string, r3)
                     = Some (time, rest) ->
                     time = (hours ++ ":" ++ String m1 (String m2 EmptyString))%string)
      by (intros Heq; inversion Heq; reflexivity).
    destruct r3 as [|c2 [|s1 [|s2 r4]]]; try (left; apply Hshort; exact Htake).
    destruct (Ascii.eqb c2 ":" && isDigit s1 && isDigit s2) eqn:Hs;
      [|left; apply Hshort; exact Htake].
    apply andb_true_iff in Hs. destruct Hs as [Hs Hs2].
    apply andb_true_iff in Hs. destruct Hs as [_ Hs1].
    right. exists (String s1 (String s2 EmptyString)). split.
    - unfold digitField. simpl. rewrite Hs1, Hs2. reflexivity.
    - inversion Htake. rewrite string_app_assoc. reflexivity. }
  destruct r1 as [|d2 r].
  - apply (Hhours (String d1 EmptyString) EmptyString).
    unfold digitField. simpl. rewrite Hd1. reflexivity.
  - destruct (isDigit d2) eqn:Hd2.
    + apply (Hhours (String d1 (String d2 EmptyString)) r).
      unfold digitField. simpl. rewrite Hd1, Hd2. reflexivity.
    + apply (Hhours (String d1 EmptyString) (String d2 r)).
      unfold digitField. simpl. rewrite Hd1. reflexivity.
Qed.

(** A time that [takeTime] took is read by [timeToSeconds] as a whole number
    of seconds that is not negative. *)
Lemma taken_time_seconds (s time rest : string) :
  SpeakerLines.takeTime s = Some (time, rest) ->
  exists q z,
    timeToSeconds time = Returned (Fin q) /\ q == inject_Z z /\ (0 <= z)%Z.
Proof.
  intros Htake. apply takeTime_inv in Htake.
  destruct Htake as (hh & mm & Hh & Hm & [-> | (ss & Hs & ->)]).
  - rewrite (timeToSeconds_two_fields hh mm Hh Hm).
    exists (inject_Z (numeral hh) * inject_Z 60 + inject_Z (numeral mm)),
      (numeral hh * 60 + numeral mm)%Z.
    split; [reflexivity|]. split.
    + rewrite inject_Z_plus, inject_Z_mult. reflexivity.
    + pose proof (numeral_nonneg hh (proj2 (digitField_parts hh Hh))).
      pose proof (numeral_nonneg mm (proj2 (digitField_parts mm Hm))). lia.
  - rewrite (timeToSeconds_three_fields hh mm ss Hh Hm Hs).
    exists (inject_Z (numeral hh) * inject_Z 3600 + inject_Z (numeral mm) * inject_Z 60
            + inject_Z (numeral ss)),
      (numeral hh * 3600 + numeral mm * 60 + numeral ss)%Z.
    split; [reflexivity|]. split.
    + rewrite !inject_Z_plus, !inject_Z_mult. reflexivity.
    + pose proof (numeral_nonneg hh (proj2 (digitField_parts hh Hh))).
      pose proof (numeral_nonneg mm (proj2 (digitField_parts mm Hm))).
      pose proof (numeral_nonneg ss (proj2 (digitField_parts ss Hs))). lia.
Qed.

Lemma dropSpaces_head (s : string) (c : ascii) (rest : string) :
  dropSpaces s = String c rest -> isSpace c = false.
Proof.
  induction s as [|x s IH]; cbn [dropSpaces]; [discriminate|].
  destruct (isSpace x) eqn:Hx; [exact IH|].
  intros Heq. inversion Heq. subst. exact Hx.
Qed.

Lemma dropSpacesEnd_idempotent (s : string) :
  dropSpacesEnd (dropSpacesEnd s) = dropSpacesEnd s.
Proof.
  induction s as [|c s IH]; [reflexivity|].
  cbn [dropSpacesEnd]. destruct (dropSpacesEnd s) as [|x kept] eqn:Hkept.
  - destruct (isSpace c) eqn:Hc; [reflexivity|].
    cbn [dropSpacesEnd]. rewrite Hc. reflexivity.
  - cbn [dropSpacesEnd]. cbn [dropSpacesEnd] in IH.
    destruct (dropSpacesEnd kept) as [|y kept'].
    + destruct (isSpace x); [discriminate IH|]. rewrite IH. reflexivity.
    + rewrite IH. reflexivity.
Qed.

Lemma dropSpacesEnd_head (c : ascii) (s : string) :
  isSpace c = false -> exists kept, dropSpacesEnd (String c s) = String c kept.
Proof.
  intros Hc. cbn [dropSpacesEnd]. destruct (dropSpacesEnd s) as [|x kept].
  - rewrite Hc. exists EmptyString. reflexivity.
  - exists (String x kept). reflexivity.
Qed.

(** [trim] leaves a trimmed string as it is. *)
Lemma trim_idempotent (s : string) : trim (trim s) = trim s.
Proof.
  unfold trim. destruct (dropSpaces s) as [|c rest] eqn:Hs; [reflexivity|].
  pose proof (dropSpaces_head s c rest Hs) as Hc.
  destruct (dropSpacesEnd_head c rest Hc) as [kept Hkept].
  rewrite Hkept. cbn [dropSpaces]. rewrite Hc, <- Hkept.
  apply dropSpacesEnd_idempotent.
Qed.

(** [parseSpeakerLine] never throws: the times that its expression lets
    through have two or three parts.  What it returns for a line that matches
    has whole, non-negative seconds for its start and its end, and a name
    without white space at either end. *)
Theorem parseSpeakerLine_total (line : string) :
  exists result,
    SpeakerLines.parseSpeakerLine line = Returned result
    /\ forall w, result = Some w ->
         (exists q z, SpeakerLines.startSec w = Fin q
                      /\ q == inject_Z z /\ (0 <= z)%Z)
         /\ (exists q z, SpeakerLines.endSec w = Fin q
                         /\ q == inject_Z z /\ (0 <= z)%Z)
         /\ trim (SpeakerLines.speakerName w) = SpeakerLines.speakerName w.
Proof.
  unfold SpeakerLines.parseSpeakerLine.
  destruct (SpeakerLines.takeTime (dropSpaces line)) as [[startTime afterStart]|]
    eqn:Hstart; [|exists None; split; [reflexivity | discriminate]].
  destruct (SpeakerLines.takeDash afterStart) as [beforeEnd|];
    [|exists None; split; [reflexivity | discriminate]].
  destruct (SpeakerLines.takeTime (dropSpaces beforeEnd)) as [[endTime afterEnd]|]
    eqn:Hend; [|exists None; split; [reflexivity | discriminate]].
  destruct (SpeakerLines.takeDash afterEnd) as [afterDash|];
    [|exists None; split; [reflexivity | discriminate]].
  destruct (SpeakerLines.nameGroup afterDash) as [name|];
    [|exists None; split; [reflexivity | discriminate]].
  destruct (taken_time_seconds _ _ _ Hstart) as (qs & zs & Hs & Hqs & Hzs).
  destruct (taken_time_seconds _ _ _ Hend) as (qe & ze & He & Hqe & Hze).
  rewrite Hs, He. eexists. split; [reflexivity|].
  intros w Hw. inversion Hw. subst w. cbn.
  split; [exists qs, zs; auto|]. split; [exists qe, ze; auto|].
  apply trim_idempotent.
Qed.

(** A line whose name is blank matches, with an empty speaker name; a line
    that stops at the second dash does not match. *)
Example parseSpeakerLine_blank_name :
  SpeakerLines.parseSpeakerLine "00:01 - 00:02 - "
  = Returned (Some (SpeakerLines.mkSpeakerLine (Fin 1) (Fin 2) EmptyString))
  /\ SpeakerLines.parseSpeakerLine "00:01 - 00:02 -" = Returned None.
Proof. split; reflexivity. Qed.

Lemma two_digits (s : string) :
  digitField s = true -> String.length s = 2%nat ->
  exists a b, s = String a (String b EmptyString)
              /\ isDigit a = true /\ isDigit b = true.
Proof.
  intros Hs Hlen. destruct s as [|a [|b [|c s]]]; try discriminate.
  apply digitField_parts in Hs. destruct Hs as [_ Hd]. simpl in Hd.
  apply andb_true_iff in Hd. destruct Hd as [Ha Hb].
  apply andb_true_iff in Hb. destruct Hb as [Hb _].
  exists a, b. auto.
Qed.

Lemma dropSpaces_space (s : string) : dropSpaces (String " " s) = dropSpaces s.
Proof. reflexivity. Qed.

Lemma dropSpaces_digit (a : ascii) (s : string) :
  isDigit a = true -> dropSpaces (String a s) = String a s.
Proof. intros Ha. cbn [dropSpaces]. rewrite (digit_not_space a Ha). reflexivity. Qed.

Lemma takeDash_dash (s : string) :
  SpeakerLines.takeDash (String " " (String "-" s)) = Some s.
Proof. reflexivity. Qed.

Lemma nameGroup_clean (name : string) :
  name <> EmptyString -> dropSpaces name = name -> dropSpacesEnd name = name ->
  SpeakerLines.noLineTerminator name = true ->
  SpeakerLines.nameGroup (String " " name) = Some name.
Proof.
  intros Hname Hdrop Hkeep Hline. unfold SpeakerLines.nameGroup.
  rewrite dropSpaces_space, Hdrop.
  destruct name as [|c rest]; [congruence|].
  cbv zeta. rewrite Hkeep, Hline. reflexivity.
Qed.

(** [takeTime] on two digits, a colon, two digits, a colon, two digits and
    something that is not a time any more. *)
Lemma takeTime_full (a b c d e f : ascii) (rest : string) :
  isDigit a = true -> isDigit b = true -> isDigit c = true ->
  isDigit d = true -> isDigit e = true -> isDigit f = true ->
  SpeakerLines.takeTime
    (String a (String b (String ":" (String c (String d
       (String ":" (String e (String f rest))))))))
  = Some ((String a (String b EmptyString) ++ ":"
           ++ String c (String d EmptyString) ++ ":"
           ++ String e (String f EmptyString))%string, rest).
Proof.
  intros Ha Hb Hc Hd He Hf. unfold SpeakerLines.takeTime.
  rewrite Ha, Hb. cbn [Ascii.eqb Bool.eqb andb]. rewrite Hc, Hd.
  cbn [andb]. cbv zeta. cbn [Ascii.eqb Bool.eqb andb]. rewrite He, Hf.
  reflexivity.
Qed.

(** A line in the documented format, [HH:MM:SS - HH:MM:SS - name] with a
    name that has no white space at its ends and no line break inside, is
    read as the window from [3600 HH + 60 MM + SS] to the same of the second
    time, for the speaker [name]. *)
Theorem parseSpeakerLine_documented_format (h1 m1 s1 h2 m2 s2 name : string) :
  digitField h1 = true -> String.length h1 = 2%nat ->
  digitField m1 = true -> String.length m1 = 2%nat ->
  digitField s1 = true -> String.length s1 = 2%nat ->
  digitField h2 = true -> String.length h2 = 2%nat ->
  digitField m2 = true -> String.length m2 = 2%nat ->
  digitField s2 = true -> String.length s2 = 2%nat ->
  name <> EmptyString -> trim name = name -> SpeakerLines.noLineTerminator name = true ->
  exists qs qe,
    SpeakerLines.parseSpeakerLine
      (h1 ++ ":" ++ m1 ++ ":" ++ s1 ++ " - " ++ h2 ++ ":" ++ m2 ++ ":" ++ s2
       ++ " - " ++ name)
    = Returned (Some (SpeakerLines.mkSpeakerLine (Fin qs) (Fin qe) name))
    /\ qs == inject_Z (numeral h1 * 3600 + numeral m1 * 60 + numeral s1)
    /\ qe == inject_Z (numeral h2 * 3600 + numeral m2 * 60 + numeral s2).
Proof.
  intros Hh1 Lh1 Hm1 Lm1 Hs1 Ls1 Hh2 Lh2 Hm2 Lm2 Hs2 Ls2 Hname Htrim Hline.
  pose proof (timeToSeconds_three_fields h1 m1 s1 Hh1 Hm1 Hs1) as Hstart.
  pose proof (timeToSeconds_three_fields h2 m2 s2 Hh2 Hm2 Hs2) as Hend.
  destruct (two_digits h1 Hh1 Lh1) as (a1 & b1 & -> & Ha1 & Hb1).
  destruct (two_digits m1 Hm1 Lm1) as (c1 & d1 & -> & Hc1 & Hd1).
  destruct (two_digits s1 Hs1 Ls1) as (e1 & f1 & -> & He1 & Hf1).
  destruct (two_digits h2 Hh2 Lh2) as (a2 & b2 & -> & Ha2 & Hb2).
  destruct (two_digits m2 Hm2 Lm2) as (c2 & d2 & -> & Hc2 & Hd2).
  destruct (two_digits s2 Hs2 Ls2) as (e2 & f2 & -> & He2 & Hf2).
  (* the name starts with a character that is not white space *)
  assert (Hbody : dropSpaces name = name /\ dropSpacesEnd name = name).
  { unfold trim in Htrim. destruct (dropSpaces name) as [|c rest] eqn:Hdrop.
    - simpl in Htrim. congruence.
    - pose proof (dropSpaces_head name c rest Hdrop) as Hc.
      destruct (dropSpacesEnd_head c rest Hc) as [kept Hkept].
      rewrite Hkept in Htrim. subst name.
      assert (Hsame : dropSpaces (String c kept) = String c kept)
        by (cbn [dropSpaces]; rewrite Hc; reflexivity).
      assert (Hrest : rest = kept) by congruence.
      rewrite Hrest in *. split; [reflexivity|].
      rewrite <- Hkept at 1. rewrite dropSpacesEnd_idempotent. exact Hkept. }
  destruct Hbody as [Hdrop Hkeep].
  unfold SpeakerLines.parseSpeakerLine. cbn [append].
  rewrite (dropSpaces_digit a1 _ Ha1).
  rewrite (takeTime_full a1 b1 c1 d1 e1 f1 _ Ha1 Hb1 Hc1 Hd1 He1 Hf1).
  rewrite takeDash_dash, dropSpaces_space, (dropSpaces_digit a2 _ Ha2).
  rewrite (takeTime_full a2 b2 c2 d2 e2 f2 _ Ha2 Hb2 Hc2 Hd2 He2 Hf2).
  rewrite takeDash_dash, (nameGroup_clean name Hname Hdrop Hkeep Hline).
  rewrite Hstart, Hend.
  unfold trim. rewrite Hdrop, Hkeep.
  eexists. eexists. split; [reflexivity|].
  split; rewrite !inject_Z_plus, !inject_Z_mult; reflexivity.
Qed.

(** The line of the source's comment. *)
Lemma parseSpeakerLine_documented_format_witness :
  exists qs qe,
    SpeakerLines.parseSpeakerLine "00:03:51 - 00:05:46 - Jules Bijl"
    = Returned (Some (SpeakerLines.mkSpeakerLine (Fin qs) (Fin qe) "Jules Bijl"))
    /\ qs == 231 /\ qe == 346.
Proof.
  apply (parseSpeakerLine_documented_format "00" "03" "51" "00" "05" "46"
           "Jules Bijl"); try reflexivity.
  discriminate.
Defined.

(* --------------------------------------------------------------------- *)
(** ** The span of the merged segments *)
(* --------------------------------------------------------------------- *)

Lemma mergeFrom_last_end (minDuration : Z) (rest : list TranscriptSegment)
    (current fallback : TranscriptSegment) :
  let finish s := (video_seconds s + duration_seconds s)%Z in
  finish (last (mergeFrom minDuration current rest) fallback)
  = finish (last (current :: rest) fallback).
Proof.
  intros finish. revert current.
  induction rest as [|next rest IH]; intros current; [reflexivity|].
  cbn [mergeFrom]. destruct (shouldMerge minDuration current next).
  - rewrite IH. destruct rest as [|third rest]; [|reflexivity].
    unfold finish. cbn [last video_seconds duration_seconds mergeInto]. lia.
  - destruct (mergeFrom_head minDuration rest next) as (head & tail & Heq & _).
    specialize (IH next). rewrite Heq in *.
    change (last (current :: head :: tail) fallback) with (last (head :: tail) fallback).
    rewrite IH. reflexivity.
Qed.

(** The merge pass keeps the span of the transcript: its first segment starts
    where the first segment of the input starts, and its last segment ends
    ([video_seconds + duration_seconds]) where the last segment of the input
    ends. *)
Theorem mergeShortSegments_keeps_span (first : TranscriptSegment)
    (others : list TranscriptSegment) :
  let finish s := (video_seconds s + duration_seconds s)%Z in
  video_seconds (hd first (mergeShortSegments (first :: others)))
  = video_seconds first
  /\ finish (last (mergeShortSegments (first :: others)) first)
     = finish (last (first :: others) first).
Proof.
  intros finish. unfold mergeShortSegments. rewrite mergeShortSegmentsWith_cons.
  split.
  - destruct (mergeFrom_head 2 others first) as (head & tail & Heq & _ & _ & Hv).
    rewrite Heq. exact Hv.
  - apply mergeFrom_last_end.
Qed.
